(** * qrgo: a QR code encoder in Go, embedded in Rocq

    This development is a shallow embedding of [qrgo.go] (package qrgo):
    the bit-stream builder, the block interleaver, the matrix builder and
    the masker.  Go values are modelled as follows.

    - [int] is [Z].  Every integer the encoder handles is a length, an
      index or a small sum, far below [2^63]; where the source relies on
      the width ([strconv.ParseInt], [byte(b)], [math.MaxInt64]) the
      bound or the wrap-around is written out.  Go's [/] and [%] truncate
      towards zero: they are [Z.quot] and [Z.rem].
    - [string] is a sequence of bytes: Stdlib's [string].  Bit streams are
      strings of the characters 0 and 1, as in the source.
    - [[]byte] is [list Z] with entries in [0, 256).
    - a Go map is a [gmap]; a lookup of a missing key yields the zero value.
    - a run-time panic (index or slice out of range) is the outcome
      [Panic]; loops whose termination is not structural run on fuel and
      [OutOfFuel] is a third outcome, shown unreachable.  *)

From Stdlib Require Import ZArith Lia Ascii String DecimalString SpecFloat.
From stdpp Require Import base option list list_numbers gmap strings.

Local Open Scope Z_scope.

(** ** Outcomes of a Go computation *)

Inductive res (A : Type) : Type :=
  | Ok (a : A)
  | Panic
  | OutOfFuel.
Arguments Ok {A} a.
Arguments Panic {A}.
Arguments OutOfFuel {A}.

Definition res_bind {A B : Type} (f : A → res B) (m : res A) : res B :=
  match m with
  | Ok a => f a
  | Panic => Panic
  | OutOfFuel => OutOfFuel
  end.

#[global] Instance res_mret : MRet res := @Ok.
#[global] Instance res_mbind : MBind res := @res_bind.

(** [for i := lo; i < hi; i++ { s = body i s }] *)
Definition forZ {S : Type} (lo hi : Z) (body : Z → S → res S) (s : S) : res S :=
  foldl (λ acc i, acc ≫= body i) (Ok s) (seqZ lo (hi - lo)).

(** ** Strings and package strconv *)

Definition len (s : string) : Z := Z.of_nat (String.length s).

Definition byteOf (c : ascii) : Z := Z.of_N (N_of_ascii c).

(** [s[i:j]] on a string; panics unless [0 <= i <= j <= len(s)]. *)
Definition slice (s : string) (i j : Z) : res string :=
  if (0 <=? i) && (i <=? j) && (j <=? len s)
  then Ok (String.substring (Z.to_nat i) (Z.to_nat (j - i)) s)
  else Panic.

(** [s[i]] on a string. *)
Definition charAt (s : string) (i : Z) : res ascii :=
  if i <? 0 then Panic
  else match String.get (Z.to_nat i) s with
       | Some c => Ok c
       | None => Panic
       end.

Fixpoint pos_to_binary (p : positive) (acc : string) : string :=
  match p with
  | xH => String "1" acc
  | xO p' => pos_to_binary p' (String "0" acc)
  | xI p' => pos_to_binary p' (String "1" acc)
  end.

(** [strconv.FormatInt(n, 2)] *)
Definition FormatInt2 (n : Z) : string :=
  match n with
  | Z0 => "0"
  | Zpos p => pos_to_binary p ""
  | Zneg p => String "-" (pos_to_binary p "")
  end.

(** The value of a digit character in [strconv.ParseUint]: 0-9, then
    letters of either case from 10. *)
Definition digitVal (c : ascii) : option Z :=
  let b := byteOf c in
  if (48 <=? b) && (b <=? 57) then Some (b - 48)
  else if (97 <=? b) && (b <=? 122) then Some (b - 97 + 10)
  else if (65 <=? b) && (b <=? 90) then Some (b - 65 + 10)
  else None.

Inductive parsed : Type :=
  | SyntaxError
  | RangeError
  | Value (n : Z).

(** The digit loop of [strconv.ParseUint(s, base, 64)]; it stops at the
    first bad digit or at the first overflow of [uint64]. *)
Fixpoint ParseUint_loop (s : string) (base n : Z) : parsed :=
  match s with
  | EmptyString => Value n
  | String c s' =>
      match digitVal c with
      | None => SyntaxError
      | Some d =>
          if base <=? d then SyntaxError
          else if 2 ^ 64 - 1 <? n * base + d then RangeError
          else ParseUint_loop s' base (n * base + d)
      end
  end.

Definition ParseUint (s : string) (base : Z) : parsed :=
  match s with
  | EmptyString => SyntaxError
  | _ => ParseUint_loop s base 0
  end.

(** [i, _ := strconv.ParseInt(s, base, 64)]: the value returned, the error
    being discarded by every caller (0 on a syntax error, the nearest
    bound on a range error). *)
Definition ParseInt (s : string) (base : Z) : Z :=
  match s with
  | EmptyString => 0
  | String c s' =>
      let neg := bool_decide (c = "-"%char) in
      let body := if bool_decide (c = "+"%char) || neg then s' else s in
      match ParseUint body base with
      | SyntaxError => 0
      | RangeError => if neg then - 2 ^ 63 else 2 ^ 63 - 1
      | Value un =>
          if negb neg && (2 ^ 63 <=? un) then 2 ^ 63 - 1
          else if neg && (2 ^ 63 <? un) then - 2 ^ 63
          else if neg then - un else un
      end
  end.

(** [n, _ := strconv.Atoi(s)] *)
Definition Atoi (s : string) : Z := ParseInt s 10.

(** [byte(b)] for an [int64] [b] *)
Definition toByte (b : Z) : Z := b mod 256.

(** ** Constants of the package *)

Definition numeric : Z := 1.
Definition alpha : Z := 2.
Definition byteMode : Z := 4.

Definition indNumeric : string := "0001".
Definition indAlpha : string := "0010".
Definition indBytes : string := "0100".

Definition versions : Z := 40.

(** ** Helpers *)

Definition max (a b : Z) : Z := if a >=? b then a else b.

Definition padLeft (binary : string) (final : Z) : string :=
  let length := len binary in
  if length >=? final then binary
  else Nat.iter (Z.to_nat (final - length)) (λ padded, "0" +:+ padded) binary.

Definition padRight (binary : string) (final : Z) : string :=
  let length := len binary in
  if length >=? final then binary
  else Nat.iter (Z.to_nat (final - length)) (λ padded, padded +:+ "0") binary.

Definition stringToBinary (number : string) : string :=
  if len number =? 0 then ""
  else FormatInt2 (ParseInt number 10).

(** ** Payload encoders *)

(** The loop [for ; i <= len(data)-3; i += 3] takes the three characters
    [data[i:i+3]] while at least three remain; the rest [data[i:]] (of
    length 0, 1 or 2) is converted after the loop. *)
Fixpoint encNumeric (data : string) : string :=
  match data with
  | String c1 (String c2 (String c3 rest)) =>
      stringToBinary (String c1 (String c2 (String c3 ""))) +:+ encNumeric rest
  | tail => stringToBinary tail
  end.

(** ** UTF-8 decoding

    [for _, c := range data] and package regexp read a string rune by
    rune.  [runes] follows [utf8.DecodeRuneInString]: a byte that does not
    start a well-formed sequence yields [RuneError] and is one byte wide. *)

Definition RuneError : Z := 65533.

(** The entry of [utf8.first] for a lead byte of a multi-byte sequence:
    the width of the sequence and the accepted range of the second byte. *)
Definition first (b0 : Z) : option (Z * Z * Z) :=
  if (194 <=? b0) && (b0 <=? 223) then Some (2, 128, 191)
  else if b0 =? 224 then Some (3, 160, 191)
  else if (225 <=? b0) && (b0 <=? 236) then Some (3, 128, 191)
  else if b0 =? 237 then Some (3, 128, 159)
  else if (238 <=? b0) && (b0 <=? 239) then Some (3, 128, 191)
  else if b0 =? 240 then Some (4, 144, 191)
  else if (241 <=? b0) && (b0 <=? 243) then Some (4, 128, 191)
  else if b0 =? 244 then Some (4, 128, 143)
  else None.

Definition contByte (b : Z) : bool := (128 <=? b) && (b <=? 191).

Fixpoint runes (s : string) : list Z :=
  match s with
  | EmptyString => []
  | String c0 s1 =>
      let b0 := byteOf c0 in
      if b0 <? 128 then b0 :: runes s1
      else
        match first b0, s1 with
        | Some (sz, lo, hi), String c1 s2 =>
            let b1 := byteOf c1 in
            if (b1 <? lo) || (hi <? b1) then RuneError :: runes s1
            else if sz =? 2 then
              Z.lor (Z.shiftl (Z.land b0 31) 6) (Z.land b1 63) :: runes s2
            else
              match s2 with
              | String c2 s3 =>
                  let b2 := byteOf c2 in
                  if negb (contByte b2) then RuneError :: runes s1
                  else if sz =? 3 then
                    Z.lor (Z.lor (Z.shiftl (Z.land b0 15) 12)
                                 (Z.shiftl (Z.land b1 63) 6))
                          (Z.land b2 63) :: runes s3
                  else
                    match s3 with
                    | String c3 s4 =>
                        let b3 := byteOf c3 in
                        if negb (contByte b3) then RuneError :: runes s1
                        else
                          Z.lor (Z.lor (Z.lor (Z.shiftl (Z.land b0 7) 18)
                                              (Z.shiftl (Z.land b1 63) 12))
                                       (Z.shiftl (Z.land b2 63) 6))
                                (Z.land b3 63) :: runes s4
                    | EmptyString => RuneError :: runes s1
                    end
              | EmptyString => RuneError :: runes s1
              end
        | _, _ => RuneError :: runes s1
        end
  end.

(** ** Tables *)

Definition maxCharsNumeric : list Z :=
  [41; 77; 127; 187; 255; 322; 370; 461; 552; 652; 772; 883; 1022;
   1101; 1250; 1408; 1548; 1725; 1903; 2061; 2232; 2409; 2620; 2812;
   3057; 3283; 3517; 3669; 3909; 4158; 4417; 4686; 4965; 5253; 5529;
   5836; 6153; 6479; 6743; 7089].

Definition maxCharsAlpha : list Z :=
  [25; 47; 77; 114; 154; 195; 224; 279; 335; 395; 468; 535; 619;
   667; 758; 854; 938; 1046; 1153; 1249; 1352; 1460; 1588; 1704;
   1853; 1990; 2132; 2223; 2369; 2520; 2677; 2840; 3009; 3183;
   3351; 3537; 3729; 3927; 4087; 4296].

Definition maxCharsBytes : list Z :=
  [17; 32; 53; 78; 106; 134; 154; 192; 230; 271; 321; 367; 425; 458;
   520; 586; 644; 718; 792; 858; 929; 779; 1091; 1171; 1273; 1367;
   1465; 1528; 1628; 1732; 1840; 1952; 2068; 2188; 2303; 2431; 2563;
   2699; 2809; 2953].

(** [alphaTable], keyed by the code point of the rune. *)
Definition alphaTable : gmap Z Z :=
  list_to_map
    [(48, 0); (49, 1); (50, 2); (51, 3); (52, 4); (53, 5); (54, 6); (55, 7);
     (56, 8); (57, 9); (65, 10); (66, 11); (67, 12); (68, 13); (69, 14);
     (70, 15); (71, 16); (72, 17); (73, 18); (74, 19); (75, 20); (76, 21);
     (77, 22); (78, 23); (79, 24); (80, 25); (81, 26); (82, 27); (83, 28);
     (84, 29); (85, 30); (86, 31); (87, 32); (88, 33); (89, 34); (90, 35);
     (32, 36); (36, 37); (37, 38); (42, 39); (43, 40); (45, 41); (46, 42);
     (47, 43); (58, 44)].

(** [blockInfo]: total codewords, error correction words, blocks in
    group 1, codewords per block of group 1, blocks in group 2, codewords
    per block of group 2, remainder bits. *)
Definition blockInfo : gmap Z (list Z) :=
  list_to_map
    [(1, [19; 7; 1; 19; 0; 0; 0]); (2, [34; 10; 1; 34; 0; 0; 7]);
     (3, [55; 15; 1; 55; 0; 0; 7]); (4, [80; 20; 1; 80; 0; 0; 7]);
     (5, [108; 26; 1; 108; 0; 0; 7]); (6, [136; 18; 2; 68; 0; 0; 7]);
     (7, [156; 20; 2; 78; 0; 0; 0]); (8, [194; 24; 2; 97; 0; 0; 0]);
     (9, [232; 30; 2; 116; 0; 0; 0]); (10, [274; 18; 2; 68; 2; 69; 0]);
     (11, [324; 20; 4; 81; 0; 0; 0]); (12, [370; 24; 2; 92; 2; 93; 0]);
     (13, [428; 26; 4; 107; 0; 0; 0]); (14, [461; 30; 3; 115; 1; 116; 0])].

Definition alignmentPatterns : gmap Z (list Z) :=
  list_to_map
    [(2, [18; 18]); (3, [22; 22]); (4, [26; 26]); (5, [30; 30]); (6, [34; 34]);
     (7, [6; 22; 22; 6; 22; 22; 22; 38; 38; 22; 38; 38]);
     (8, [6; 24; 24; 6; 24; 24; 24; 42; 42; 24; 42; 42]);
     (9, [6; 26; 26; 6; 26; 26; 26; 46; 46; 26; 46; 46]);
     (10, [6; 28; 28; 6; 28; 28; 28; 50; 50; 28; 50; 50]);
     (11, [6; 30; 30; 6; 30; 30; 30; 54; 54; 30; 54; 54]);
     (12, [6; 32; 32; 6; 32; 32; 32; 58; 58; 32; 58; 58])].

Definition terminatorPads : list string := ["11101100"; "00010001"].
Definition penaltySequences : list string := ["10111010000"; "00001011101"].

Definition formatInformationStrings : list string :=
  ["111011111000100"; "111001011110011"; "111110110101010";
   "111100010011101"; "110011000101111"; "110001100011000";
   "110110001000001"; "110100101110110"].

Definition versionInformationStrings : list string :=
  ["000111110010010100"; "001000010110111100"; "001001101010011001";
   "001010010011010011"; "001011101111110110"; "001100011101100010"].

(** [m[k]] on a Go map: the zero value when the key is absent. *)
Definition alphaTable_at (r : Z) : Z := default 0 (alphaTable !! r).
Definition blockInfo_at (version : Z) : list Z :=
  default [0; 0; 0; 0; 0; 0; 0] (blockInfo !! version).
Definition alignmentPatterns_at (version : Z) : list Z :=
  default [] (alignmentPatterns !! version).

(** [a[k]] on the array [[7]int], [k] a constant below 7. *)
Definition arr (a : list Z) (k : nat) : Z := nth k a 0.

(** [l[i]] on a slice; panics out of range. *)
Definition idx {A : Type} (l : list A) (i : Z) : res A :=
  if i <? 0 then Panic
  else match l !! Z.to_nat i with
       | Some a => Ok a
       | None => Panic
       end.

(** [l[i] = v] on a slice; panics out of range. *)
Definition upd {A : Type} (l : list A) (i : Z) (v : A) : res (list A) :=
  if (0 <=? i) && (i <? Z.of_nat (length l)) then Ok (<[Z.to_nat i := v]> l)
  else Panic.

(** [for i := lo; i < hi; i += step], [step] positive. *)
Definition forZstep {S : Type} (lo hi step : Z) (body : Z → S → res S) (s : S)
  : res S :=
  foldl (λ acc i, acc ≫= body i) (Ok s)
        ((λ k, lo + step * k) <$> seqZ 0 ((hi - lo + step - 1) `quot` step)).

(** ** Conversion between bit strings and byte arrays *)

(** The loop [for i, j := 0, 0; i < length; i, j = i+8, j+1] keeps
    [j = i/8]. *)
Definition encodingToByteArray (encoding : string) : res (list Z) :=
  let length := len encoding in
  let array := replicate (Z.to_nat (length `quot` 8)) 0 in
  forZstep 0 length 8
    (λ i array,
       chunk ← slice encoding i (i + 8);
       upd array (i `quot` 8) (toByte (ParseInt chunk 2)))
    array.

Definition byteArrayToEncoding (array : list Z) : string :=
  foldl (λ encoding b, encoding +:+ padLeft (FormatInt2 b) 8) "" array.

Fixpoint encAlpha (data : string) : string :=
  match data with
  | String c1 (String c2 rest) =>
      let num := alphaTable_at (byteOf c1) * 45 + alphaTable_at (byteOf c2) in
      padLeft (FormatInt2 num) 11 +:+ encAlpha rest
  | EmptyString => ""
  | String c _ => padLeft (FormatInt2 (alphaTable_at (byteOf c))) 6
  end.

Definition encBytes (data : string) : string :=
  foldl (λ encoding c, encoding +:+ padLeft (FormatInt2 c) 8) "" (runes data).

Definition indCount (length mode version : Z) : string :=
  let count := FormatInt2 length in
  if (1 <=? version) && (version <=? 9) then
    if mode =? numeric then padLeft count 10
    else if mode =? alpha then padLeft count 9
    else padLeft count 8
  else if (10 <=? version) && (version <=? 26) then
    if mode =? numeric then padLeft count 12
    else if mode =? alpha then padLeft count 11
    else padLeft count 16
  else
    if mode =? numeric then padLeft count 14
    else if mode =? alpha then padLeft count 13
    else padLeft count 16.

(** ** Mode detection

    [regexNumeric] is [^.[0-9]*$] and [regexAlpha] is
    [^.[0-9A-Z /.:%+\$\-\*]*$].  With no flags, [.] is any rune but the
    line feed, and [^] and [$] are the two ends of the text: the first
    rune is free and each following rune is in the class. *)

Definition isDigitRune (r : Z) : bool := (48 <=? r) && (r <=? 57).

Definition isAlphaRune (r : Z) : bool :=
  isDigitRune r || ((65 <=? r) && (r <=? 90))
  || bool_decide (r ∈ [32; 47; 46; 58; 37; 43; 36; 45; 42]).

Definition matchDotStar (class : Z → bool) (s : string) : bool :=
  match runes s with
  | [] => false
  | r :: rs => negb (r =? 10) && forallb class rs
  end.

Definition matchNumeric : string → bool := matchDotStar isDigitRune.
Definition matchAlpha : string → bool := matchDotStar isAlphaRune.

(** ** The QR structure *)

Record Cell : Type := mkCell { color : Z; data : bool }.

Record QR : Type := mkQR {
  Data : string;
  Length : Z;
  Mode : Z;
  Version : Z;
  Modules : Z;
  Errors : Z;
  Block1 : Z;
  Words1 : Z;
  Block2 : Z;
  Words2 : Z;
  Encoding : list Z;
  Correction : list Z;
  Interleaved : string;
  Mask : Z;
  Canvas : list (list Cell)
}.

(** Assignments to the fields that the methods write. *)
Definition set_Mode (qr : QR) (v : Z) : QR :=
  mkQR (Data qr) (Length qr) v (Version qr) (Modules qr) (Errors qr)
       (Block1 qr) (Words1 qr) (Block2 qr) (Words2 qr) (Encoding qr)
       (Correction qr) (Interleaved qr) (Mask qr) (Canvas qr).
Definition set_Version (qr : QR) (v : Z) : QR :=
  mkQR (Data qr) (Length qr) (Mode qr) v (Modules qr) (Errors qr)
       (Block1 qr) (Words1 qr) (Block2 qr) (Words2 qr) (Encoding qr)
       (Correction qr) (Interleaved qr) (Mask qr) (Canvas qr).
Definition set_Modules (qr : QR) (v : Z) : QR :=
  mkQR (Data qr) (Length qr) (Mode qr) (Version qr) v (Errors qr)
       (Block1 qr) (Words1 qr) (Block2 qr) (Words2 qr) (Encoding qr)
       (Correction qr) (Interleaved qr) (Mask qr) (Canvas qr).
Definition set_blocks (qr : QR) (errors block1 words1 block2 words2 : Z) : QR :=
  mkQR (Data qr) (Length qr) (Mode qr) (Version qr) (Modules qr) errors
       block1 words1 block2 words2 (Encoding qr)
       (Correction qr) (Interleaved qr) (Mask qr) (Canvas qr).
Definition set_Encoding (qr : QR) (v : list Z) : QR :=
  mkQR (Data qr) (Length qr) (Mode qr) (Version qr) (Modules qr) (Errors qr)
       (Block1 qr) (Words1 qr) (Block2 qr) (Words2 qr) v
       (Correction qr) (Interleaved qr) (Mask qr) (Canvas qr).
Definition set_Interleaved (qr : QR) (v : string) : QR :=
  mkQR (Data qr) (Length qr) (Mode qr) (Version qr) (Modules qr) (Errors qr)
       (Block1 qr) (Words1 qr) (Block2 qr) (Words2 qr) (Encoding qr)
       (Correction qr) v (Mask qr) (Canvas qr).
Definition set_Mask (qr : QR) (v : Z) : QR :=
  mkQR (Data qr) (Length qr) (Mode qr) (Version qr) (Modules qr) (Errors qr)
       (Block1 qr) (Words1 qr) (Block2 qr) (Words2 qr) (Encoding qr)
       (Correction qr) (Interleaved qr) v (Canvas qr).
Definition set_Canvas (qr : QR) (v : list (list Cell)) : QR :=
  mkQR (Data qr) (Length qr) (Mode qr) (Version qr) (Modules qr) (Errors qr)
       (Block1 qr) (Words1 qr) (Block2 qr) (Words2 qr) (Encoding qr)
       (Correction qr) (Interleaved qr) (Mask qr) v.

Definition mode (qr : QR) : QR :=
  if matchNumeric (Data qr) then set_Mode qr numeric
  else if matchAlpha (Data qr) then set_Mode qr alpha
  else set_Mode qr byteMode.

(** ** Version selection *)

Fixpoint binarySearch_loop (fuel : nat) (array : list Z) (value low high : Z)
  : res Z :=
  if low =? high then Ok low
  else
    match fuel with
    | O => OutOfFuel
    | S fuel' =>
        let mid := (low + high) `quot` 2 in
        a ← idx array mid;
        if a <? value then binarySearch_loop fuel' array value (mid + 1) high
        else binarySearch_loop fuel' array value low mid
    end.

Definition binarySearch (array : list Z) (value : Z) : res Z :=
  binarySearch_loop (Z.to_nat versions) array value 0 versions.

Definition version (qr : QR) : res QR :=
  if Mode qr =? numeric then
    v ← binarySearch maxCharsNumeric (Length qr); Ok (set_Version qr (v + 1))
  else if Mode qr =? alpha then
    v ← binarySearch maxCharsAlpha (Length qr); Ok (set_Version qr (v + 1))
  else
    v ← binarySearch maxCharsBytes (Length qr); Ok (set_Version qr (v + 1)).

(** ** Terminator and pad codewords *)

Definition terminator (encoding : string) (version : Z) : res (list Z) :=
  let length := len encoding in
  let blocks := arr (blockInfo_at version) 0 in
  if blocks * 8 - length =? 0 then encodingToByteArray encoding
  else
    let rest := 8 - length `rem` 8 in
    let padding := padRight encoding (length + rest) in
    let numPads := blocks - len padding `quot` 8 in
    padding ← forZ 0 numPads
      (λ i padding, pad ← idx terminatorPads (i `rem` 2); Ok (padding +:+ pad))
      padding;
    encodingToByteArray padding.

Definition encoding (qr : QR) : res QR :=
  if Mode qr =? numeric then
    e ← terminator (indNumeric +:+ indCount (Length qr) (Mode qr) (Version qr)
                    +:+ encNumeric (Data qr)) (Version qr);
    Ok (set_Encoding qr e)
  else if Mode qr =? alpha then
    e ← terminator (indAlpha +:+ indCount (Length qr) (Mode qr) (Version qr)
                    +:+ encAlpha (Data qr)) (Version qr);
    Ok (set_Encoding qr e)
  else
    e ← terminator (indBytes +:+ indCount (Length qr) (Mode qr) (Version qr)
                    +:+ encBytes (Data qr)) (Version qr);
    Ok (set_Encoding qr e).

(** ** Reed-Solomon check bytes *)

(** [NewField] and [NewRSEncoder], which [correction] calls, are defined
    in a file of the package that is not part of the sources at hand;
    the definitions of this section follow the specification. *)

(** Modelled from the spec: the field of [NewField(0x11d, 2)], which is
    missing, is GF(2^8) with primitive polynomial 0x11d and generator 2;
    this is the multiplication by the generator. *)
Definition gf_double (a : Z) : Z :=
  let b := 2 * a in if 256 <=? b then Z.lxor b 285 else b.

(** Modelled from the spec: the table exp[i] = g^i mod p of the missing
    field, for i in 0..254, tabulated once. *)
Definition gf_exp_table : list Z :=
  Eval vm_compute in (λ i : nat, Nat.iter i gf_double 1) <$> seq 0 255.

(** Modelled from the spec: exp[i] of the missing field. *)
Definition gf_exp (i : Z) : Z := nth (Z.to_nat (i mod 255)) gf_exp_table 0.

(** Modelled from the spec: log[a] of the missing field, with
    log[exp[i]] = i. *)
Definition gf_log (a : Z) : Z :=
  match list_find (λ e, e = a) gf_exp_table with
  | Some (i, _) => Z.of_nat i
  | None => 0
  end.

(** Modelled from the spec: the multiplication of the missing field,
    exp[(log[a] + log[b]) mod 255] for non-zero operands, 0 otherwise. *)
Definition gf_mul (a b : Z) : Z :=
  if (a =? 0) || (b =? 0) then 0 else gf_exp ((gf_log a + gf_log b) mod 255).

(** Modelled from the spec: the addition of polynomials over the missing
    field, coefficient by coefficient; addition is XOR. *)
Definition poly_xor (p q : list Z) : list Z := zip_with Z.lxor p q.

(** Modelled from the spec: the generator polynomial of the missing
    [NewRSEncoder(field, e)], the product of (x - g^i) for i below [e],
    leading coefficient first. *)
Definition rs_generator (e : nat) : list Z :=
  foldl (λ g (i : nat), poly_xor (g ++ [0]) (0 :: (gf_mul (gf_exp (Z.of_nat i)) <$> g)))
        [1] (seq 0 e).

(** Modelled from the spec: the missing [enc.ECC(data, check)] for an
    encoder with [e] check bytes, the remainder of M(x) x^e by the
    generator polynomial, most significant coefficient first. *)
Definition ECC (e : nat) (data : list Z) : list Z :=
  let g := drop 1 (rs_generator e) in
  foldl (λ r d,
           let factor := Z.lxor d (hd 0 r) in
           poly_xor (drop 1 r ++ [0]) (gf_mul factor <$> g))
        (replicate e 0) data.

(** ** Blocks and interleaving *)

(** [make([]byte, n)] *)
Definition make (n : Z) : res (list Z) :=
  if n <? 0 then Panic else Ok (replicate (Z.to_nat n) 0).

(** [l[i:j]] on a slice whose capacity is its length. *)
Definition sliceL {A : Type} (l : list A) (i j : Z) : res (list A) :=
  if (0 <=? i) && (i <=? j) && (j <=? Z.of_nat (length l))
  then Ok (take (Z.to_nat (j - i)) (drop (Z.to_nat i) l))
  else Panic.

(** [copy(dst[i:j], src)] with [len(src) = j - i] *)
Definition copyInto {A : Type} (dst : list A) (i j : Z) (src : list A)
  : res (list A) :=
  if (0 <=? i) && (i <=? j) && (j <=? Z.of_nat (length dst))
  then Ok (take (Z.to_nat i) dst ++ take (Z.to_nat (j - i)) src
           ++ drop (Z.to_nat i + length (take (Z.to_nat (j - i)) src)) dst)
  else Panic.

Definition interleaveData (array : list Z) (blocks1 blocks2 words1 words2 : Z)
  : res (list Z) :=
  inter ← make (Z.of_nat (length array));
  '(inter, _, _, _) ←
    forZ 0 (max words1 words2)
      (λ i '(inter, x, b1, b2),
         let y := i in
         '(inter, x, y, b1) ←
           (if b1 <? words1 then
              '(inter, x, y) ←
                forZ 0 blocks1
                  (λ j '(inter, x, y),
                     a ← idx array y;
                     inter ← upd inter x a;
                     Ok (inter, x + 1, y + words1))
                  (inter, x, y);
              Ok (inter, x, y, b1 + 1)
            else Ok (inter, x, y + blocks1 * words1, b1));
         if b2 <? words2 then
           '(inter, x, y) ←
             forZ 0 blocks2
               (λ j '(inter, x, y),
                  a ← idx array y;
                  inter ← upd inter x a;
                  Ok (inter, x + 1, y + words2))
               (inter, x, y);
           Ok (inter, x, b1, b2 + 1)
         else Ok (inter, x, b1, b2))
      (inter, 0, 0, 0);
  Ok inter.

Definition correction (array : list Z) (numErr numB1 numB2 numW1 numW2 : Z)
  : res (list Z) :=
  correction ← make (numErr * (numB1 + numB2));
  '(correction, _, _, _, _) ←
    forZ 0 (numB1 + numB2)
      (λ i '(correction, x, y, b1, b2),
         _ ← make numErr;
         if b1 <? numB1 then
           block ← sliceL array x (x + numW1);
           correction ← copyInto correction y (y + numErr)
                                 (ECC (Z.to_nat numErr) block);
           Ok (correction, x + numW1, y + numErr, b1 + 1, b2)
         else if b2 <? numB2 then
           block ← sliceL array x (x + numW2);
           correction ← copyInto correction y (y + numErr)
                                 (ECC (Z.to_nat numErr) block);
           Ok (correction, x + numW2, y + numErr, b1, b2 + 1)
         else Ok (correction, x, y, b1, b2))
      (correction, 0, 0, 0, 0);
  Ok correction.

Definition interleaveError (array : list Z) (numErr numB1 numB2 : Z)
  : res (list Z) :=
  inter ← make (Z.of_nat (length array));
  '(inter, _) ←
    forZ 0 numErr
      (λ i '(inter, y),
         '(inter, _, y) ←
           forZ 0 (numB1 + numB2)
             (λ j '(inter, x, y),
                a ← idx array x;
                inter ← upd inter y a;
                Ok (inter, x + numErr, y + 1))
             (inter, i, y);
         Ok (inter, y))
      (inter, 0);
  Ok inter.

Definition interleave (qr : QR) : res QR :=
  errorBytes ← correction (Encoding qr) (Errors qr) (Block1 qr) (Block2 qr)
                          (Words1 qr) (Words2 qr);
  interData ← interleaveData (Encoding qr) (Block1 qr) (Block2 qr)
                             (Words1 qr) (Words2 qr);
  interError ← interleaveError errorBytes (Errors qr) (Block1 qr) (Block2 qr);
  let inter := byteArrayToEncoding interData +:+ byteArrayToEncoding interError in
  Ok (set_Interleaved qr
        (padRight inter (len inter + arr (blockInfo_at (Version qr)) 6))).

(** ** The canvas *)

Abbreviation canvas := (list (list Cell)).

(** [canvas[r][c]] *)
Definition getCell (cv : canvas) (r c : Z) : res Cell :=
  row ← idx cv r; idx row c.

(** An assignment through the pointer [canvas[r][c]]. *)
Definition setCell (cv : canvas) (r c : Z) (f : Cell → Cell) : res canvas :=
  row ← idx cv r;
  cell ← idx row c;
  row ← upd row c (f cell);
  upd cv r row.

(** [canvas[r][c].color = v] *)
Definition setColor (cv : canvas) (r c v : Z) : res canvas :=
  setCell cv r c (λ cell, mkCell v (data cell)).

(** [canvas[r][c].data = b] *)
Definition setData (cv : canvas) (r c : Z) (b : bool) : res canvas :=
  setCell cv r c (λ cell, mkCell (color cell) b).

Definition newCanvas (modules : Z) : res canvas :=
  if modules <? 0 then Panic
  else Ok (replicate (Z.to_nat modules)
                     (replicate (Z.to_nat modules) (mkCell 0 true))).

(** ** Function patterns *)

Definition drawPattern (cv : canvas) (row col size : Z) : res canvas :=
  let inner := size - 2 in
  forZ row (row + size)
    (λ r cv,
       forZ col (col + size)
         (λ c cv,
            cv ← (if (col + 1 <=? c) && (c <=? col + inner) && (r =? row + 1)
                     || (col + 1 <=? c) && (c <=? col + inner) && (r =? row + inner)
                     || (row + 1 <=? r) && (r <=? row + inner) && (c =? col + 1)
                     || (row + 1 <=? r) && (r <=? row + inner) && (c =? col + inner)
                  then setColor cv r c 0
                  else setColor cv r c 1);
            setData cv r c false)
         cv)
    cv.

Definition placeFinderPatterns (qr : QR) : res QR :=
  cv ← drawPattern (Canvas qr) 0 0 7;
  cv ← drawPattern cv (Modules qr - 7) 0 7;
  cv ← drawPattern cv 0 (Modules qr - 7) 7;
  Ok (set_Canvas qr cv).

Definition drawSeperator (cv : canvas) (row col dr dc : Z) : res canvas :=
  '(cv, _) ←
    forZ 0 8
      (λ i '(cv, c),
         cv ← setColor cv row c 0;
         cv ← setData cv row c false;
         Ok (cv, c + dc))
      (cv, col);
  '(cv, _) ←
    forZ 0 8
      (λ i '(cv, r),
         cv ← setColor cv r col 0;
         cv ← setData cv r col false;
         Ok (cv, r + dr))
      (cv, row);
  Ok cv.

Definition placeSeparator (qr : QR) : res QR :=
  cv ← drawSeperator (Canvas qr) 7 7 (-1) (-1);
  cv ← drawSeperator cv 7 (Modules qr - 8) (-1) 1;
  cv ← drawSeperator cv (Modules qr - 8) 7 1 (-1);
  Ok (set_Canvas qr cv).

Definition placeAlignmentPatterns (qr : QR) : res QR :=
  let patterns := alignmentPatterns_at (Version qr) in
  cv ← forZstep 0 (Z.of_nat (length patterns) - 1) 2
         (λ i cv,
            pr ← idx patterns i;
            pc ← idx patterns (i + 1);
            drawPattern cv (pr - 2) (pc - 2) 5)
         (Canvas qr);
  Ok (set_Canvas qr cv).

Definition drawTimingPattern (qr : QR) : res QR :=
  let length := Modules qr - 14 in
  cv ← forZ 6 (6 + length)
         (λ i cv,
            cv ← (if i `rem` 2 =? 0 then
                    cv ← setColor cv 6 i 1; setColor cv i 6 1
                  else
                    cv ← setColor cv 6 i 0; setColor cv i 6 0);
            cv ← setData cv 6 i false;
            setData cv i 6 false)
         (Canvas qr);
  Ok (set_Canvas qr cv).

Definition drawDarkModule (qr : QR) : res QR :=
  let r := 4 * Version qr + 9 in
  cv ← setColor (Canvas qr) r 8 1;
  cv ← setData cv r 8 false;
  Ok (set_Canvas qr cv).

Definition reserveFormatInformationArea (qr : QR) : res QR :=
  cv ← forZ 0 9
         (λ i cv,
            cv ← (if negb (i =? 6) then setData cv 8 i false else Ok cv);
            if negb (i =? 0) then setData cv 8 (Modules qr - i) false else Ok cv)
         (Canvas qr);
  cv ← forZ 0 8
         (λ i cv,
            cv ← (if negb (i =? 6) then setData cv i 8 false else Ok cv);
            if negb (i =? 0) then setData cv (Modules qr - i) 8 false else Ok cv)
         cv;
  Ok (set_Canvas qr cv).

Definition reserveVersionInformationData (qr : QR) : res QR :=
  cv ← forZ 0 6
         (λ i cv,
            cv ← setData cv (Modules qr - 11) i false;
            cv ← setData cv (Modules qr - 10) i false;
            cv ← setData cv (Modules qr - 9) i false;
            cv ← setData cv i (Modules qr - 9) false;
            cv ← setData cv i (Modules qr - 10) false;
            setData cv i (Modules qr - 11) false)
         (Canvas qr);
  Ok (set_Canvas qr cv).

(** ** Data placement *)

(** [for r := hi; r >= lo; r--] *)
Definition forZdown {S : Type} (hi lo : Z) (body : Z → S → res S) (s : S)
  : res S :=
  foldl (λ acc i, acc ≫= body i) (Ok s) (reverse (seqZ lo (hi - lo + 1))).

(** One visit of the cell [(r, c)]: a data cell takes the next bit. *)
Definition placeBit (interleaved : string) (r c : Z) (st : canvas * Z)
  : res (canvas * Z) :=
  let '(cv, i) := st in
  cell ← getCell cv r c;
  if data cell then
    ch ← charAt interleaved i;
    let wb := Atoi (String ch "") in
    cv ← setColor cv r c wb;
    Ok (cv, i + 1)
  else Ok (cv, i).

Definition placeRow (interleaved : string) (c r : Z) (st : canvas * Z)
  : res (canvas * Z) :=
  st ← placeBit interleaved r c st;
  placeBit interleaved r (c - 1) st.

(** The loop [for c := qr.Modules - 1; c > 0; c -= 2] of [drawDataBits];
    on [c == 6] the body is [c++] and the step takes [c] to 5. *)
Fixpoint drawDataBits_loop (fuel : nat) (modules : Z) (interleaved : string)
    (c : Z) (up : bool) (st : canvas * Z) : res (canvas * Z) :=
  if 0 <? c then
    match fuel with
    | O => OutOfFuel
    | S fuel' =>
        if c =? 6 then
          drawDataBits_loop fuel' modules interleaved (c + 1 - 2) up st
        else
          st ← (if up then forZdown (modules - 1) 0 (placeRow interleaved c) st
                else forZ 0 modules (placeRow interleaved c) st);
          drawDataBits_loop fuel' modules interleaved (c - 2) (negb up) st
    end
  else Ok st.

Definition drawDataBits (qr : QR) : res QR :=
  '(cv, _) ← drawDataBits_loop (Z.to_nat (Modules qr)) (Modules qr)
                (Interleaved qr) (Modules qr - 1) true (Canvas qr, 0);
  Ok (set_Canvas qr cv).

(** ** Masks *)

Definition mask0 (row col : Z) : bool := (row + col) `rem` 2 =? 0.
Definition mask1 (row col : Z) : bool := row `rem` 2 =? 0.
Definition mask2 (row col : Z) : bool := col `rem` 3 =? 0.
Definition mask3 (row col : Z) : bool := (row + col) `rem` 3 =? 0.
Definition mask4 (row col : Z) : bool := (row `quot` 2 + col `quot` 3) `rem` 2 =? 0.
Definition mask5 (row col : Z) : bool :=
  (row * col) `rem` 2 + (row * col) `rem` 3 =? 0.
Definition mask6 (row col : Z) : bool :=
  ((row * col) `rem` 2 + (row * col) `rem` 3) `rem` 2 =? 0.
Definition mask7 (row col : Z) : bool :=
  ((row + col) `rem` 2 + (row * col) `rem` 3) `rem` 2 =? 0.

Definition masks : list (Z → Z → bool) :=
  [mask0; mask1; mask2; mask3; mask4; mask5; mask6; mask7].

(** [copy[r][c] = &Cell{...}]: the slot itself is replaced. *)
Definition putCell (cv : canvas) (r c : Z) (cell : Cell) : res canvas :=
  row ← idx cv r;
  row ← upd row c cell;
  upd cv r row.

Definition copyCanvas (cv copy : canvas) : res canvas :=
  let length := Z.of_nat (length cv) in
  forZ 0 length
    (λ r copy,
       forZ 0 length
         (λ c copy,
            cell ← getCell cv r c;
            putCell copy r c (mkCell (color cell) (data cell)))
         copy)
    copy.

Definition maskCanvas (cv : canvas) (fn : Z → Z → bool) : res canvas :=
  let length := Z.of_nat (length cv) in
  masked ← newCanvas length;
  masked ← copyCanvas cv masked;
  forZ 0 length
    (λ r masked,
       forZ 0 length
         (λ c masked,
            cell ← getCell masked r c;
            if data cell && fn r c then setColor masked r c (Z.lxor (color cell) 1)
            else Ok masked)
         masked)
    masked.

(** ** Penalties *)

Definition pen1 (masked : canvas) : res Z :=
  let length := Z.of_nat (length masked) in
  forZ 0 length
    (λ r total,
       '(total, count, _) ←
         forZ 0 length
           (λ c '(total, count, prev),
              cell ← getCell masked r c;
              let color := color cell in
              if color =? prev then Ok (total, count + 1, color)
              else
                let diff := count - 5 in
                Ok (if 0 <=? diff then total + (3 + diff) else total, 1, color))
           (total, 0, -1);
       let diff := count - 5 in
       Ok (if 0 <=? diff then total + (3 + diff) else total))
    0.

Definition pen2 (masked : canvas) : res Z :=
  let length := Z.of_nat (length masked) in
  forZ 0 1
    (λ r total,
       forZ 0 (length - 1)
         (λ c total,
            c00 ← getCell masked r c;
            c01 ← getCell masked r (c + 1);
            c10 ← getCell masked (r + 1) c;
            c11 ← getCell masked (r + 1) (c + 1);
            let sum := color c00 + color c01 + color c10 + color c11 in
            Ok (if (sum =? 0) || (sum =? 4) then total + 3 else total))
         total)
    0.

(** [strings.Contains(s, sub)] *)
Fixpoint Contains (s sub : string) : bool :=
  String.prefix sub s
  || match s with
     | EmptyString => false
     | String _ s' => Contains s' sub
     end.

Definition substringOccurrences (s sub : string) : res Z :=
  let sLength := len s in
  let subLength := len sub in
  forZ 0 (sLength - subLength + 1)
    (λ i total,
       window ← slice s i (i + subLength);
       Ok (if Contains window sub then total + 1 else total))
    0.

(** [strconv.Itoa(n)] *)
Definition Itoa (n : Z) : string := DecimalString.NilZero.string_of_int (Z.to_int n).

Definition pen3 (masked : canvas) : res Z :=
  let length := Z.of_nat (length masked) in
  forZ 0 length
    (λ i total,
       '(row, col) ←
         forZ 0 length
           (λ j '(row, col),
              cij ← getCell masked i j;
              cji ← getCell masked j i;
              Ok (row +:+ Itoa (color cij), col +:+ Itoa (color cji)))
           (EmptyString, EmptyString);
       seq0 ← idx penaltySequences 0;
       n0 ← substringOccurrences row seq0;
       seq1 ← idx penaltySequences 1;
       n1 ← substringOccurrences col seq1;
       Ok (total + n0 * 40 + n1 * 40))
    0.

(** *** [float64] arithmetic: IEEE 754 binary64, round to nearest even *)

Definition f64_of_int (n : Z) : spec_float := binary_normalize 53 1024 n 0 false.
Definition f64_div : spec_float → spec_float → spec_float := SFdiv 53 1024.
Definition f64_mul : spec_float → spec_float → spec_float := SFmul 53 1024.
Definition f64_sub : spec_float → spec_float → spec_float := SFsub 53 1024.

(** The value of an [int] after an operation that overflows: arithmetic
    modulo 2^64 in two's complement. *)
Definition wrap64 (z : Z) : Z := (z + 2 ^ 63) mod 2 ^ 64 - 2 ^ 63.

(** [int(f)]: truncation towards zero.  A NaN or an infinity converts to
    the smallest [int64], as the amd64 instruction does. *)
Definition int_of_f64 (f : spec_float) : Z :=
  match f with
  | S754_zero _ => 0
  | S754_finite s m e =>
      let a := if 0 <=? e then Z.pos m * 2 ^ e else Z.pos m `quot` 2 ^ (- e) in
      let v := if s then - a else a in
      if (- 2 ^ 63 <=? v) && (v <? 2 ^ 63) then v else - 2 ^ 63
  | _ => - 2 ^ 63
  end.

Definition pen4 (masked : canvas) : res Z :=
  let length := Z.of_nat (length masked) in
  let numModules := length * length in
  numBlack ←
    forZ 0 length
      (λ r numBlack,
         forZ 0 length
           (λ c numBlack,
              cell ← getCell masked r c; Ok (wrap64 (numBlack + color cell)))
           numBlack)
      0;
  let ratio := f64_mul (f64_div (f64_of_int numBlack) (f64_of_int numModules))
                       (f64_of_int 100) in
  let low := wrap64 (int_of_f64 (f64_div ratio (f64_of_int 5)) * 5) in
  let up := wrap64 (wrap64 (int_of_f64 (f64_div ratio (f64_of_int 5)) + 1) * 5) in
  let down := f64_div (SFabs (f64_sub (f64_of_int low) (f64_of_int 50)))
                      (f64_of_int 5) in
  let top := f64_div (SFabs (f64_sub (f64_of_int up) (f64_of_int 50)))
                     (f64_of_int 5) in
  if SFleb down top then Ok (int_of_f64 (f64_mul down (f64_of_int 10)))
  else Ok (int_of_f64 (f64_mul top (f64_of_int 10))).

(** ** Mask selection *)

Definition MaxInt64 : Z := 2 ^ 63 - 1.

(** [pen1(masked) + pen2(masked) + pen3(masked) + pen4(masked)], every
    addition in [int]. *)
Definition penalty (masked : canvas) : res Z :=
  p1 ← pen1 masked; p2 ← pen2 masked; p3 ← pen3 masked; p4 ← pen4 masked;
  Ok (wrap64 (wrap64 (wrap64 (p1 + p2) + p3) + p4)).

Definition dataMasking (qr : QR) : res QR :=
  '(winner, mask, _) ←
    forZ 0 8
      (λ i '(winner, mask, min),
         fn ← idx masks i;
         masked ← maskCanvas (Canvas qr) fn;
         penalty ← penalty masked;
         if penalty <? min then Ok (masked, i, penalty)
         else Ok (winner, mask, min))
      ([], -1, MaxInt64);
  Ok (set_Mask (set_Canvas qr winner) mask).

(** ** Format and version information *)

Definition drawFormatInformationString (qr : QR) : res QR :=
  fis ← idx formatInformationStrings (Mask qr);
  cv ← forZ 0 7
         (λ i cv,
            ch ← charAt fis i;
            let num := Atoi (String ch "") in
            cv ← (if i =? 6 then setColor cv 8 (i + 1) num
                  else setColor cv 8 i num);
            setColor cv (Modules qr - (i + 1)) 8 num)
         (Canvas qr);
  cv ← forZ 0 8
         (λ i cv,
            ch ← charAt fis (i + 7);
            let num := Atoi (String ch "") in
            if negb (i =? 2) then
              cv ← setColor cv (8 - i) 8 num;
              setColor cv 8 (Modules qr - (8 - i)) num
            else Ok cv)
         cv;
  Ok (set_Canvas qr cv).

Definition drawVersionInformationString (qr : QR) : res QR :=
  vis ← idx versionInformationStrings (Version qr - 7);
  '(cv, _) ←
    forZdown 5 0
      (λ i st,
         forZ 0 3
           (λ j '(cv, x),
              ch ← charAt vis x;
              let wb := Atoi (String ch "") in
              cv ← setColor cv (Modules qr - (9 + j)) i wb;
              cv ← setColor cv i (Modules qr - (9 + j)) wb;
              Ok (cv, x + 1))
           st)
      (Canvas qr, 0);
  Ok (set_Canvas qr cv).

(** ** The entry point *)

(** [QR{Data: data, Length: length}]: the other fields are zero. *)
Definition initQR (data : string) (length : Z) : QR :=
  mkQR data length 0 0 0 0 0 0 0 0 [] [] "" 0 [].

(** The body of [NewQR] after the check of the length, in the three
    stages its paragraphs make: the bit stream, *)
Definition buildStream (data : string) (length : Z) : res QR :=
  let qr := initQR data length in
  let qr := mode qr in
  qr ← version qr;
  let qr := set_Modules qr ((Version qr - 1) * 4 + 21) in
  let info := blockInfo_at (Version qr) in
  let qr := set_blocks qr (arr info 1) (arr info 2) (arr info 3) (arr info 4)
                       (arr info 5) in
  qr ← encoding qr;
  interleave qr.

(** the function patterns and the reserved areas on a new canvas, *)
Definition buildPatterns (qr : QR) : res QR :=
  cv ← newCanvas (Modules qr);
  let qr := set_Canvas qr cv in
  qr ← placeFinderPatterns qr;
  qr ← placeSeparator qr;
  qr ← placeAlignmentPatterns qr;
  qr ← drawTimingPattern qr;
  qr ← drawDarkModule qr;
  qr ← reserveFormatInformationArea qr;
  if 7 <=? Version qr then reserveVersionInformationData qr else Ok qr.

(** and the data bits, the mask, the format and the version information. *)
Definition buildSymbol (qr : QR) : res QR :=
  qr ← drawDataBits qr;
  qr ← dataMasking qr;
  qr ← drawFormatInformationString qr;
  if 7 <=? Version qr then drawVersionInformationString qr else Ok qr.

(** [NewQR] returns a pointer to a QR and an error; [nil] is [None]. *)
Definition NewQR (data : string) : res (option QR * option string) :=
  let length := len data in
  if length =? 0 then Ok (None, Some "Empty data input.")
  else
    qr ← buildStream data length;
    qr ← buildPatterns qr;
    qr ← buildSymbol qr;
    Ok (Some qr, None).

(** The rows of a canvas as strings of colours, for display. *)
Definition render (cv : canvas) : list string :=
  (λ row, foldr (λ cell s, Itoa (color cell) +:+ s) "" row) <$> cv.

(** * Definitions used by the statements *)

Definition isDigit (c : ascii) : bool := (48 <=? byteOf c) && (byteOf c <=? 57).

Fixpoint allDigits (s : string) : bool :=
  match s with
  | EmptyString => true
  | String c s' => isDigit c && allDigits s'
  end.

(** The integer a string of decimal digits denotes. *)
Definition decimalValue (g : string) : Z :=
  foldl (λ acc c, acc * 10 + (byteOf c - 48)) 0 (String.list_ascii_of_string g).

(** The groups the numeric encoder consumes: threes, then what is left. *)
Fixpoint groups3 (data : string) : list string :=
  match data with
  | String c1 (String c2 (String c3 rest)) =>
      String c1 (String c2 (String c3 "")) :: groups3 rest
  | EmptyString => []
  | tail => [tail]
  end.

(** Concatenation of a list of bit strings. *)
Definition joinBits (l : list string) : string := foldr String.append "" l.

Definition groupWidth (g : string) : Z :=
  match String.length g with
  | 3%nat => 10
  | 2%nat => 7
  | 1%nat => 4
  | _ => 0
  end.

(** The numeric payload as the specification words it: every group is
    padded on the left to the width of its size. *)
Definition encNumeric_spec (data : string) : string :=
  joinBits ((λ g, padLeft (FormatInt2 (decimalValue g)) (groupWidth g))
                      <$> groups3 data).


(** [k] zero bits. *)
Fixpoint zeros (k : nat) : string :=
  match k with
  | O => ""
  | S k' => String "0" (zeros k')
  end.

(** [k] pad codewords, alternately 0xEC and 0x11; [ec] tells whether the
    first one is 0xEC. *)
Fixpoint padCodewords (k : nat) (ec : bool) : string :=
  match k with
  | O => ""
  | S k' => (if ec then "11101100" else "00010001") +:+ padCodewords k' (negb ec)
  end.

(** The state of the encoder once the mode and the version are chosen. *)
Definition selected (data : string) : res QR :=
  version (mode (initQR data (len data))).

(** The bit string [encoding] hands to [terminator]: mode indicator,
    character count and payload. *)
Definition payloadBits (qr : QR) : string :=
  if Mode qr =? numeric then
    indNumeric +:+ indCount (Length qr) (Mode qr) (Version qr)
    +:+ encNumeric (Data qr)
  else if Mode qr =? alpha then
    indAlpha +:+ indCount (Length qr) (Mode qr) (Version qr)
    +:+ encAlpha (Data qr)
  else
    indBytes +:+ indCount (Length qr) (Mode qr) (Version qr)
    +:+ encBytes (Data qr).

(** Terminator and padding as the specification words them, for [B]
    data codewords: up to four zero bits, as many as fit in [8 B]; zero
    bits up to a multiple of 8; pad codewords up to [B] codewords. *)
Definition terminator_spec (bits : string) (B : Z) : string :=
  let t := Z.max 0 (Z.min 4 (8 * B - len bits)) in
  let s1 := bits +:+ zeros (Z.to_nat t) in
  let s2 := s1 +:+ zeros (Z.to_nat ((8 - len s1 mod 8) mod 8)) in
  s2 +:+ padCodewords (Z.to_nat (B - len s2 / 8)) true.

(** Terminator and padding as the package does them: nothing at exactly
    [8 B] bits; otherwise zero bits up to the next multiple of 8 above
    the length, then pad codewords up to [B] codewords. *)
Definition terminator_bits (bits : string) (B : Z) : string :=
  let n := len bits in
  if 8 * B =? n then bits
  else bits +:+ zeros (Z.to_nat (8 - n mod 8))
       +:+ padCodewords (Z.to_nat (B - (n + (8 - n mod 8)) / 8)) true.

(** The characters of the alphanumeric mode. *)
Definition isAlnum (c : ascii) : bool :=
  isDigit c
  || ((65 <=? byteOf c) && (byteOf c <=? 90))
  || bool_decide (c ∈ [" "; "$"; "%"; "*"; "+"; "-"; "."; "/"; ":"]%char).

Fixpoint allAlnum (s : string) : bool :=
  match s with
  | EmptyString => true
  | String c s' => isAlnum c && allAlnum s'
  end.

(** Mode detection as the specification words it. *)
Definition mode_spec (data : string) : Z :=
  if allDigits data then numeric
  else if allAlnum data then alpha
  else byteMode.

(** The capacity table [version] searches for a mode. *)
Definition capacityTable (m : Z) : list Z :=
  if m =? numeric then maxCharsNumeric
  else if m =? alpha then maxCharsAlpha
  else maxCharsBytes.

(** The mode [mode] detects for an input. *)
Definition detected (data : string) : Z := Mode (mode (initQR data (len data))).

(** [r] is the first index of [table] whose entry is at least [value]. *)
Definition firstFit (table : list Z) (value : Z) (r : Z) : bool :=
  match table !! Z.to_nat r with
  | Some c => (0 <=? r) && (value <=? c) && forallb (λ a, a <? value) (take (Z.to_nat r) table)
  | None => false
  end.

(** The string of [n] copies of a character. *)
Definition repeated (n : Z) (c : ascii) : string :=
  Nat.iter (Z.to_nat n) (String c) "".

(** The number of cells of a canvas still marked as data cells. *)
Definition countData (cv : canvas) : Z :=
  Z.of_nat (length (filter (λ cell, data cell = true) (concat cv))).

(** The colour of a cell, [-1] off the canvas. *)
Definition colorAt (cv : canvas) (r c : Z) : Z :=
  match getCell cv r c with
  | Ok cell => color cell
  | _ => -1
  end.

(** Bit [k] of the format string of a mask, [-1] when there is none. *)
Definition formatBit (mask k : Z) : Z :=
  match fis ← idx formatInformationStrings mask; charAt fis k with
  | Ok ch => Atoi (String ch "")
  | _ => -1
  end.

(** The cell of bit [k] of the format string, as the specification lists
    them: the copy around the top-left finder, *)
Definition formatCell1 (k : Z) : Z * Z :=
  if k <=? 5 then (8, k)
  else if k =? 6 then (8, 7)
  else if k =? 7 then (8, 8)
  else if k =? 8 then (7, 8)
  else (14 - k, 8).

(** and the copy split between the bottom-left and the top-right finder
    of a symbol of [N] modules. *)
Definition formatCell2 (N k : Z) : Z * Z :=
  if k <=? 6 then (N - 1 - k, 8) else (8, N - 15 + k).

(** The bits of the format string that a canvas does not show at the
    cell the specification gives them. *)
Definition formatMismatches (qr : QR) (cell : Z → Z * Z) : list Z :=
  filter (λ k, colorAt (Canvas qr) (cell k).1 (cell k).2 ≠ formatBit (Mask qr) k)
         (seqZ 0 15).

(** A canvas of [N] rows of [N] cells. *)
Definition shape (N : nat) (cv : canvas) : Prop :=
  length cv = N ∧ Forall (λ row, length row = N) cv.

(** One step of the selection loop of [dataMasking] on a candidate: its
    index, its masked canvas and its penalty. *)
Definition pick (st : canvas * Z * Z) (x : Z * (canvas * Z)) : canvas * Z * Z :=
  let '(winner, mask, min) := st in
  let '(i, (masked, penalty)) := x in
  if penalty <? min then (masked, i, penalty) else (winner, mask, min).

(** The function patterns and reserved areas of a symbol of version [v]. *)
Definition patternsOf (v : Z) : res QR :=
  buildPatterns (set_Modules (set_Version (initQR "" 0) v) ((v - 1) * 4 + 21)).

(** The length the interleaved stream has by the block information of a
    version: data codewords, check codewords, remainder bits. *)
Definition streamLength (v : Z) : Z :=
  let info := blockInfo_at v in
  8 * (arr info 2 * arr info 3 + arr info 4 * arr info 5)
  + 8 * arr info 1 * (arr info 2 + arr info 4) + arr info 6.

(** The binary search returns the first index of [table] that fits
    [value]. *)
Definition searchFinds (table : list Z) (value : Z) : bool :=
  match binarySearch table value with
  | Ok r => firstFit table value r
  | _ => false
  end.

(** A computation that does not run out of fuel. *)
Definition finishes {A} (r : res A) : Prop := r ≠ OutOfFuel.
(** * Definitions used by the further properties *)

(** The characters of a bit string. *)
Definition isBit (c : ascii) : bool :=
  bool_decide (c = "0"%char) || bool_decide (c = "1"%char).

Fixpoint allBits (s : string) : bool :=
  match s with
  | EmptyString => true
  | String c s' => isBit c && allBits s'
  end.

(** The eight binary digits of a byte. *)
Definition byte8 (b : Z) : string := padLeft (FormatInt2 b) 8.

(** The width of the character count, as the comment of [indCount]
    tabulates it. *)
Definition countWidth (mode version : Z) : Z :=
  if version <=? 9 then
    (if mode =? numeric then 10 else if mode =? alpha then 9 else 8)
  else if version <=? 26 then
    (if mode =? numeric then 12 else if mode =? alpha then 11 else 16)
  else
    (if mode =? numeric then 14 else if mode =? alpha then 13 else 16).

(** The number of bits of the numeric payload of [n] digits. *)
Definition numericBits (n : Z) : Z :=
  10 * (n / 3) + (if n mod 3 =? 0 then 0 else if n mod 3 =? 1 then 4 else 7).

(** Every byte of the string is below 128. *)
Definition isASCII (s : string) : bool :=
  forallb (λ c, byteOf c <? 128) (String.list_ascii_of_string s).

(** The number of payload bits of [n] characters in a mode, when every
    group has its full width. *)
Definition modeBits (mode n : Z) : Z :=
  if mode =? numeric then numericBits n
  else if mode =? alpha then 11 * (n / 2) + 6 * (n mod 2)
  else 8 * n.

(** The capacity of a version in a mode fits the character count and the
    data codewords of the version. *)
Definition capacityFits (mode version : Z) : bool :=
  match capacityTable mode !! Z.to_nat (version - 1) with
  | Some c =>
      (c <? 2 ^ countWidth mode version)
      && (4 + countWidth mode version + modeBits mode c
          <=? 8 * arr (blockInfo_at version) 0)
  | None => false
  end.

(** The entries of a table never decrease. *)
Fixpoint sortedb (l : list Z) : bool :=
  match l with
  | a :: (b :: _) as t => (a <=? b) && sortedb t
  | _ => true
  end.

(** The [n] entries of [array] at [start], [start + step], ... *)
Definition column (array : list Z) (start step n : Z) : list Z :=
  (λ j, nth (Z.to_nat (start + j * step)) array 0) <$> seqZ 0 n.

(** The words of index [i] of the blocks of group 1, then those of the
    blocks of group 2, which start after the blocks of group 1. *)
Definition columnAt (array : list Z) (blocks1 blocks2 words1 words2 i : Z)
  : list Z :=
  (if i <? words1 then column array i words1 blocks1 else [])
  ++ (if i <? words2 then column array (i + blocks1 * words1) words2 blocks2
      else []).

(** The columns of the blocks, for every index of a word in its block. *)
Definition blockColumns (array : list Z) (blocks1 blocks2 words1 words2 : Z)
  : list (list Z) :=
  columnAt array blocks1 blocks2 words1 words2 <$> seqZ 0 (Z.max words1 words2).


(** * Penalties of a canvas of modules *)

(** A module is light or dark. *)
Definition binaryCell (cell : Cell) : bool := (color cell =? 0) || (color cell =? 1).

(** Every module of the canvas is light or dark. *)
Definition binaryb (cv : canvas) : bool := forallb (forallb binaryCell) cv.

(** A square canvas of side [N] whose cells all satisfy [P]. *)
Definition grid (N : nat) (P : Cell → Prop) (cv : canvas) : Prop :=
  shape N cv ∧ Forall (Forall P) cv.

(** [p] is the sum of the four penalties of [masked]. *)
Definition scored (masked : canvas) (p : Z) : Prop :=
  ∃ p1 p2 p3 p4,
    pen1 masked = Ok p1 ∧ pen2 masked = Ok p2 ∧ pen3 masked = Ok p3
    ∧ pen4 masked = Ok p4 ∧ p = p1 + p2 + p3 + p4.

(** [pen4] once the twentieth of the percentage is converted to [int]. *)
Definition pen4_of_twentieth (q : Z) : Z :=
  let low := wrap64 (q * 5) in
  let up := wrap64 (wrap64 (q + 1) * 5) in
  let down := f64_div (SFabs (f64_sub (f64_of_int low) (f64_of_int 50)))
                      (f64_of_int 5) in
  let top := f64_div (SFabs (f64_sub (f64_of_int up) (f64_of_int 50)))
                     (f64_of_int 5) in
  if SFleb down top then int_of_f64 (f64_mul down (f64_of_int 10))
  else int_of_f64 (f64_mul top (f64_of_int 10)).

(** A float that is zero, or positive and at most [2^K]; the exponents
    of binary64 are at least -1074, and both sides are scaled by 2^1074. *)
Definition below (f : spec_float) (K : Z) : Prop :=
  match f with
  | S754_zero _ => True
  | S754_finite false m e =>
      -1074 ≤ e ∧ Z.pos m * 2 ^ (e + 1074) ≤ 2 ^ (K + 1074)
  | _ => False
  end.


(** * The assertions of the package's tests *)

Example test_max : max 0 0 = 0 ∧ max 0 1 = 1 ∧ max 1 0 = 1 ∧ max 2 1 = 2.
Proof. repeat split. Qed.

Example test_padLeft :
  padLeft "000" 3 = "000" ∧ padLeft "" 3 = "000" ∧ padLeft "1" 3 = "001"
  ∧ padLeft "11" 3 = "011" ∧ padLeft "1111" 2 = "1111".
Proof. repeat split. Qed.

Example test_padRight :
  padRight "000" 3 = "000" ∧ padRight "" 3 = "000" ∧ padRight "1" 3 = "100"
  ∧ padRight "11" 3 = "110" ∧ padRight "111" 10 = "1110000000".
Proof. repeat split. Qed.

Example test_stringToBinary :
  stringToBinary "" = "" ∧ stringToBinary "0" = "0" ∧ stringToBinary "2" = "10"
  ∧ stringToBinary "4" = "100" ∧ stringToBinary "255" = "11111111".
Proof. repeat split. Qed.

Example test_encodingToByteArray :
  encodingToByteArray "00000000" = Ok [0]
  ∧ encodingToByteArray "0000000100000010" = Ok [1; 2]
  ∧ encodingToByteArray "0000001011111111" = Ok [2; 255].
Proof. repeat split. Qed.

Example test_byteArrayToEncoding :
  byteArrayToEncoding [0] = "00000000"
  ∧ byteArrayToEncoding [1; 2] = "0000000100000010"
  ∧ byteArrayToEncoding [2; 255] = "0000001011111111".
Proof. repeat split. Qed.

Example test_binarySearch :
  binarySearch maxCharsNumeric 20 = Ok 0
  ∧ binarySearch maxCharsNumeric 41 = Ok 0
  ∧ binarySearch maxCharsNumeric 360 = Ok 6
  ∧ binarySearch maxCharsNumeric 7089 = Ok 39
  ∧ binarySearch maxCharsAlpha 25 = Ok 0
  ∧ binarySearch maxCharsAlpha 200 = Ok 6
  ∧ binarySearch maxCharsAlpha 4296 = Ok 39
  ∧ binarySearch maxCharsBytes 17 = Ok 0
  ∧ binarySearch maxCharsBytes 150 = Ok 6
  ∧ binarySearch maxCharsBytes 2953 = Ok 39.
Proof. repeat split. Qed.

Example test_indCount :
  indCount 1 numeric 1 = "0000000001"
  ∧ indCount 2 numeric 15 = "000000000010"
  ∧ indCount 3 numeric 40 = "00000000000011"
  ∧ indCount 1 alpha 1 = "000000001"
  ∧ indCount 2 alpha 15 = "00000000010"
  ∧ indCount 3 alpha 40 = "0000000000011"
  ∧ indCount 1 byteMode 1 = "00000001"
  ∧ indCount 2 byteMode 15 = "0000000000000010"
  ∧ indCount 3 byteMode 40 = "0000000000000011".
Proof. repeat split. Qed.

Example test_encNumeric :
  encNumeric "0" = "0" ∧ encNumeric "1" = "1" ∧ encNumeric "02" = "10"
  ∧ encNumeric "10" = "1010" ∧ encNumeric "100" = "1100100"
  ∧ encNumeric "8675309" = "110110001110000100101001".
Proof. repeat split. Qed.

Example test_encAlpha :
  encAlpha "0" = "000000" ∧ encAlpha "A" = "001010" ∧ encAlpha "AB" = "00111001101"
  ∧ encAlpha "HE" = "01100001011"
  ∧ encAlpha "HELLO WORLD"
    = "0110000101101111000110100010111001011011100010011010100001101".
Proof. repeat split. Qed.

Example test_encBytes :
  encBytes "a" = "01100001" ∧ encBytes "ab" = "0110000101100010"
  ∧ encBytes "He" = "0100100001100101".
Proof. repeat split. Qed.

Example test_mode :
  detected "123" = numeric ∧ detected "ABC" = alpha ∧ detected "abc" = byteMode
  ∧ detected "001234" = numeric ∧ detected "1+B*C$/" = alpha
  ∧ detected "LOCAL@HOST.COM" = byteMode ∧ detected "1111 1" = alpha
  ∧ detected "12AbC" = byteMode.
Proof. repeat split. Qed.

Example test_substringOccurrences :
  substringOccurrences "ABCDEF" "CDE" = Ok 1
  ∧ substringOccurrences "101011101" "101" = Ok 3
  ∧ substringOccurrences "ABCEF" "GG" = Ok 0.
Proof. repeat split. Qed.

Example test_interleaveData :
  interleaveData (seqZ 1 26) 2 0 13 0
  = Ok [1; 14; 2; 15; 3; 16; 4; 17; 5; 18; 6; 19; 7; 20; 8; 21; 9; 22; 10;
        23; 11; 24; 12; 25; 13; 26]
  ∧ interleaveData (seqZ 1 46) 2 2 11 12
    = Ok [1; 12; 23; 35; 2; 13; 24; 36; 3; 14; 25; 37; 4; 15; 26; 38; 5; 16;
          27; 39; 6; 17; 28; 40; 7; 18; 29; 41; 8; 19; 30; 42; 9; 20; 31; 43;
          10; 21; 32; 44; 11; 22; 33; 45; 34; 46].
Proof. split; vm_compute; reflexivity. Qed.

Example test_interleaveError :
  interleaveError (seqZ 1 44) 22 2 0
  = Ok [1; 23; 2; 24; 3; 25; 4; 26; 5; 27; 6; 28; 7; 29; 8; 30; 9; 31; 10; 32;
        11; 33; 12; 34; 13; 35; 14; 36; 15; 37; 16; 38; 17; 39; 18; 40; 19;
        41; 20; 42; 21; 43; 22; 44].
Proof. vm_compute. reflexivity. Qed.

Example test_correction :
  correction (seqZ 1 9) 17 1 0 9 0
  = Ok [48; 91; 177; 195; 164; 76; 88; 163; 118; 109; 85; 153; 22; 5; 66; 122;
        247]
  ∧ correction (seqZ 1 26) 22 2 0 13 0
    = Ok [108; 198; 169; 133; 107; 122; 23; 61; 170; 4; 240; 137; 36; 218;
          167; 73; 75; 243; 140; 7; 102; 46; 61; 246; 34; 63; 18; 3; 37; 139;
          140; 40; 21; 168; 44; 195; 134; 38; 181; 167; 97; 104; 218; 228]
  ∧ correction (seqZ 1 36) 16 4 0 9 0
    = Ok [177; 172; 114; 149; 225; 181; 117; 6; 10; 141; 19; 137; 16; 48; 72;
          169; 208; 89; 208; 15; 151; 75; 173; 17; 157; 177; 179; 25; 230; 49;
          129; 244; 144; 68; 189; 136; 109; 242; 34; 116; 204; 12; 60; 76; 6;
          33; 141; 33; 199; 89; 153; 158; 184; 183; 163; 92; 79; 147; 93; 154;
          126; 131; 188; 23].
Proof. split; [|split]; vm_compute; reflexivity. Qed.

(** * The numeric payload *)

Lemma string_ind3 (P : string → Prop) :
  P "" → (∀ c, P (String c "")) → (∀ c1 c2, P (String c1 (String c2 ""))) →
  (∀ c1 c2 c3 rest, P rest → P (String c1 (String c2 (String c3 rest)))) →
  ∀ s, P s.
Proof.
  intros H0 H1 H2 H3.
  fix IH 1. intros [|c1 [|c2 [|c3 rest]]];
    [apply H0 | apply H1 | apply H2 | apply H3, IH].
Qed.

Lemma append_nil_r (s : string) : s +:+ "" = s.
Proof.
  induction s as [|c s IH]; [done|].
  change (String c (s +:+ "") = String c s). by rewrite IH.
Qed.

Lemma pos_to_binary_length p acc :
  String.length (pos_to_binary p acc) = (Pos.size_nat p + String.length acc)%nat.
Proof.
  revert acc. induction p as [p IH|p IH|]; intros acc; simpl; auto.
  - rewrite IH. simpl. lia.
  - rewrite IH. simpl. lia.
Qed.

Lemma size_nat_bound p (k : nat) :
  Z.pos p < 2 ^ Z.of_nat k → (Pos.size_nat p ≤ k)%nat.
Proof.
  revert k. induction p as [p IH|p IH|]; intros k Hk; simpl.
  - destruct k as [|k]; [simpl in Hk; lia|].
    rewrite Nat2Z.inj_succ, Z.pow_succ_r in Hk by lia.
    apply le_n_S, IH. lia.
  - destruct k as [|k]; [simpl in Hk; lia|].
    rewrite Nat2Z.inj_succ, Z.pow_succ_r in Hk by lia.
    apply le_n_S, IH. lia.
  - destruct k as [|k]; [simpl in Hk; lia|]. lia.
Qed.

Lemma FormatInt2_length v (k : nat) :
  0 ≤ v < 2 ^ Z.of_nat k → (1 ≤ k)%nat →
  1 ≤ len (FormatInt2 v) ≤ Z.of_nat k.
Proof.
  intros [Hv Hk] H1. unfold len. destruct v as [|p|p]; simpl; [lia| |lia].
  rewrite pos_to_binary_length. simpl.
  pose proof (size_nat_bound p k Hk). destruct p; simpl in *; lia.
Qed.

Lemma isDigit_digitVal c :
  isDigit c = true → digitVal c = Some (byteOf c - 48) ∧ 0 ≤ byteOf c - 48 ≤ 9.
Proof.
  unfold isDigit, digitVal. intros H. rewrite H. split; [done|lia].
Qed.

Lemma ParseUint_loop_digits s n :
  allDigits s = true → 0 ≤ n →
  (n + 1) * 10 ^ Z.of_nat (String.length s) ≤ 2 ^ 64 →
  ParseUint_loop s 10 n
  = Value (foldl (λ acc c, acc * 10 + (byteOf c - 48)) n
                 (String.list_ascii_of_string s))
  ∧ n * 10 ^ Z.of_nat (String.length s)
    ≤ foldl (λ acc c, acc * 10 + (byteOf c - 48)) n (String.list_ascii_of_string s)
    < (n + 1) * 10 ^ Z.of_nat (String.length s).
Proof.
  revert n. induction s as [|c s IH]; intros n Hd Hn Hb.
  - simpl in *. split; [done|lia].
  - simpl in Hd. apply andb_prop in Hd as [Hc Hs].
    destruct (isDigit_digitVal c Hc) as [Hv Hr].
    cbn [String.length] in *. rewrite Nat2Z.inj_succ, Z.pow_succ_r in * by lia.
    cbn [ParseUint_loop String.list_ascii_of_string foldl]. rewrite Hv.
    assert (Hp : 0 < 10 ^ Z.of_nat (String.length s)) by (apply Z.pow_pos_nonneg; lia).
    assert (Hlt : n * 10 + (byteOf c - 48) + 1 ≤ (n + 1) * 10) by lia.
    assert (Hb' : (n * 10 + (byteOf c - 48) + 1) * 10 ^ Z.of_nat (String.length s) ≤ 2 ^ 64) by nia.
    destruct (10 <=? byteOf c - 48) eqn:E1; [lia|].
    destruct (2 ^ 64 - 1 <? n * 10 + (byteOf c - 48)) eqn:E2; [nia|].
    destruct (IH (n * 10 + (byteOf c - 48)) Hs ltac:(lia) Hb') as [-> Hr'].
    split; [done|]. nia.
Qed.

Lemma isDigit_not_sign c : isDigit c = true → c ≠ "-"%char ∧ c ≠ "+"%char.
Proof.
  unfold isDigit. intros H; split; intros ->; vm_compute in H; discriminate.
Qed.

Lemma ParseInt_digits g :
  allDigits g = true → (1 ≤ String.length g ≤ 3)%nat →
  ParseInt g 10 = decimalValue g ∧ 0 ≤ decimalValue g < 10 ^ Z.of_nat (String.length g).
Proof.
  intros Hd Hl. destruct g as [|c s]; [simpl in Hl; lia|].
  assert (Hb : (0 + 1) * 10 ^ Z.of_nat (String.length (String c s)) ≤ 2 ^ 64).
  { transitivity (1 * 10 ^ 3); [|lia].
    apply Z.mul_le_mono_nonneg_l; [lia|]. apply Z.pow_le_mono_r; lia. }
  destruct (ParseUint_loop_digits (String c s) 0 Hd ltac:(lia) Hb) as [Hp Hr].
  fold (decimalValue (String c s)) in Hp, Hr.
  assert (Hc : isDigit c = true) by (simpl in Hd; apply andb_prop in Hd; tauto).
  destruct (isDigit_not_sign c Hc) as [Hm Hpl].
  unfold ParseInt. rewrite !bool_decide_eq_false_2 by done. cbn [orb].
  unfold ParseUint. rewrite Hp.
  assert (decimalValue (String c s) < 2 ^ 63).
  { eapply Z.lt_le_trans; [apply Hr|]. transitivity (1 * 10 ^ 3); [|lia].
    apply Z.mul_le_mono_nonneg_l; [lia|]. apply Z.pow_le_mono_r; lia. }
  cbn [negb andb]. destruct (2 ^ 63 <=? decimalValue (String c s)) eqn:E; [lia|].
  split; [done|lia].
Qed.

Lemma stringToBinary_group g :
  allDigits g = true → (1 ≤ String.length g ≤ 3)%nat →
  stringToBinary g = FormatInt2 (decimalValue g)
  ∧ 1 ≤ len (FormatInt2 (decimalValue g)) ≤ groupWidth g.
Proof.
  intros Hd Hl. destruct (ParseInt_digits g Hd Hl) as [Hp Hr].
  unfold stringToBinary, len. 
  destruct (Z.of_nat (String.length g) =? 0) eqn:E; [lia|]. rewrite Hp. split; [done|].
  unfold groupWidth.
  destruct (String.length g) as [|[|[|[|n]]]] eqn:El; try lia.
  - apply (FormatInt2_length _ 4); simpl in *; lia.
  - apply (FormatInt2_length _ 7); simpl in *; lia.
  - apply (FormatInt2_length _ 10); simpl in *; lia.
Qed.

(** C1 (amended).  For every string of decimal digits, [encNumeric] emits
    for each full group of three digits, and for a trailing group of two
    or of one digit, the binary representation of the integer the group
    denotes, without padding: between 1 and 10 bits for a full group, 1
    to 7 for a trailing pair, 1 to 4 for a trailing digit.  Leading zeros
    of a group are dropped. *)
Theorem encNumeric_groups (data : string) :
  allDigits data = true →
  encNumeric data
  = joinBits ((λ g, FormatInt2 (decimalValue g)) <$> groups3 data)
  ∧ Forall (λ g, 1 ≤ len (FormatInt2 (decimalValue g)) ≤ groupWidth g)
           (groups3 data).
Proof.
  induction data as [|c|c1 c2|c1 c2 c3 rest IH] using string_ind3; intros Hd.
  - split; [reflexivity|constructor].
  - destruct (stringToBinary_group (String c "") Hd ltac:(simpl; lia)) as [He Hl].
    cbn [encNumeric groups3 fmap list_fmap]. unfold joinBits; cbn [foldr].
    split; [by rewrite He, append_nil_r|].
    constructor; [apply Hl|constructor].
  - destruct (stringToBinary_group (String c1 (String c2 "")) Hd ltac:(simpl; lia))
      as [He Hl].
    cbn [encNumeric groups3 fmap list_fmap]. unfold joinBits; cbn [foldr].
    split; [by rewrite He, append_nil_r|].
    constructor; [apply Hl|constructor].
  - assert (Hg : allDigits (String c1 (String c2 (String c3 ""))) = true
                 ∧ allDigits rest = true).
    { cbn [allDigits] in *.
      apply andb_prop in Hd as [Hc1 Hd]. apply andb_prop in Hd as [Hc2 Hd].
      apply andb_prop in Hd as [Hc3 Hd]. rewrite Hc1, Hc2, Hc3. done. }
    destruct Hg as [Hg Hrest].
    destruct (stringToBinary_group _ Hg ltac:(simpl; lia)) as [He Hl].
    destruct (IH Hrest) as [IHe IHl].
    cbn [encNumeric groups3 fmap list_fmap]. rewrite He, IHe. split.
    + reflexivity.
    + constructor; [apply Hl|apply IHl].
Qed.

Lemma encNumeric_groups_witness :
  encNumeric "8675309"
  = joinBits ((λ g, FormatInt2 (decimalValue g)) <$> groups3 "8675309")
  ∧ Forall (λ g, 1 ≤ len (FormatInt2 (decimalValue g)) ≤ groupWidth g)
           (groups3 "8675309").
Proof. apply (encNumeric_groups "8675309"). reflexivity. Defined.

(** C1 (counterexample).  The full group 007 is emitted as the three bits
    111, not as ten bits. *)
Lemma encNumeric_unpadded :
  allDigits "007" = true
  ∧ encNumeric "007" = "111"
  ∧ len (encNumeric "007") ≠ 10
  ∧ encNumeric_spec "007" = "0000000111"
  ∧ encNumeric "007" ≠ encNumeric_spec "007".
Proof.
  split; [reflexivity|]. split; [reflexivity|]. split; [vm_compute; discriminate|].
  split; [reflexivity|]. vm_compute. discriminate.
Qed.

(** * Terminator and padding *)

(** ** Loops *)

Lemma res_bind_Ok {A B} (f : A → res B) (a : A) : (Ok a ≫= f) = f a.
Proof. reflexivity. Qed.

Lemma foldl_res_bind {A S} (body : A → S → res S) (r : res S) (l : list A) :
  foldl (λ acc i, acc ≫= body i) r l
  = r ≫= (λ s, foldl (λ acc i, acc ≫= body i) (Ok s) l).
Proof.
  revert r. induction l as [|a l IH]; intros r.
  - by destruct r.
  - cbn [foldl]. rewrite IH. destruct r; [|done..].
    change (Ok a0 ≫= body a) with (body a a0).
    rewrite <- IH. reflexivity.
Qed.

Lemma forZ_nil {S} lo hi (body : Z → S → res S) s :
  hi ≤ lo → forZ lo hi body s = Ok s.
Proof. intros H. unfold forZ. by rewrite seqZ_nil by lia. Qed.

Lemma forZ_cons {S} lo hi (body : Z → S → res S) s :
  lo < hi → forZ lo hi body s = body lo s ≫= forZ (lo + 1) hi body.
Proof.
  intros H. unfold forZ. rewrite seqZ_cons by lia. cbn [foldl].
  rewrite foldl_res_bind. change (Ok s ≫= body lo) with (body lo s).
  replace (Z.pred (hi - lo)) with (hi - (lo + 1)) by lia.
  replace (Z.succ lo) with (lo + 1) by lia. reflexivity.
Qed.

(** ** Lengths of bit strings *)

Lemma len_append s t : len (s +:+ t) = len s + len t.
Proof.
  unfold len. induction s as [|c s IH]; [done|].
  change (String c s +:+ t) with (String c (s +:+ t)). cbn [String.length]. lia.
Qed.

Lemma len_nonneg s : 0 ≤ len s.
Proof. unfold len. lia. Qed.

Lemma len_zeros k : len (zeros k) = Z.of_nat k.
Proof. unfold len. induction k; simpl; lia. Qed.

Lemma len_padCodewords k ec : len (padCodewords k ec) = 8 * Z.of_nat k.
Proof.
  revert ec. induction k as [|k IH]; intros ec; [done|].
  cbn [padCodewords]. rewrite len_append, IH. destruct ec; unfold len; simpl; lia.
Qed.

Lemma append_assoc (s t u : string) : (s +:+ t) +:+ u = s +:+ (t +:+ u).
Proof.
  induction s as [|c s IH]; [done|].
  change (String c ((s +:+ t) +:+ u) = String c (s +:+ (t +:+ u))). by rewrite IH.
Qed.

Lemma zeros_snoc k : zeros k +:+ "0" = zeros (S k).
Proof.
  induction k as [|k IH]; [done|].
  change (String "0" (zeros k +:+ "0") = String "0" (zeros (S k))). by rewrite IH.
Qed.

Lemma iter_snoc_zeros (n : nat) (s : string) :
  Nat.iter n (λ padded, padded +:+ "0") s = s +:+ zeros n.
Proof.
  induction n as [|n IH].
  - by rewrite append_nil_r.
  - change (Nat.iter (S n) (λ padded, padded +:+ "0") s)
      with (Nat.iter n (λ padded, padded +:+ "0") s +:+ "0").
    by rewrite IH, append_assoc, zeros_snoc.
Qed.

Lemma padRight_zeros s (k : Z) :
  0 < k → padRight s (len s + k) = s +:+ zeros (Z.to_nat k).
Proof.
  intros Hk. unfold padRight. destruct (len s >=? len s + k) eqn:E; [lia|].
  replace (len s + k - len s) with k by lia. apply iter_snoc_zeros.
Qed.

(** ** The pad loop of [terminator] *)

Lemma pad_loop (k : nat) (i : Z) (s : string) :
  0 ≤ i →
  forZ i (i + Z.of_nat k)
       (λ i padding, pad ← idx terminatorPads (i `rem` 2); Ok (padding +:+ pad)) s
  = Ok (s +:+ padCodewords k (i `rem` 2 =? 0)).
Proof.
  revert i s. induction k as [|k IH]; intros i s Hi.
  - rewrite forZ_nil by lia. by rewrite append_nil_r.
  - rewrite forZ_cons by lia.
    replace (i + Z.of_nat (S k)) with (i + 1 + Z.of_nat k) by lia.
    assert (Hr : i `rem` 2 = 0 ∧ (i + 1) `rem` 2 = 1
                 ∨ i `rem` 2 = 1 ∧ (i + 1) `rem` 2 = 0).
    { rewrite !Z.rem_mod_nonneg by lia. 
      pose proof (Z.mod_pos_bound i 2). pose proof (Z.mod_pos_bound (i + 1) 2).
      rewrite (Z.add_mod i 1 2) by lia.
      destruct (decide (i mod 2 = 0)) as [->| ]; [left; done|].
      right. replace (i mod 2) with 1 by lia. done. }
    destruct Hr as [[H0 H1]|[H0 H1]]; rewrite H0.
    + change (idx terminatorPads 0) with (Ok (A:=string) "11101100").
      unfold mbind, res_mbind, res_bind.
      rewrite IH by lia. rewrite H1. cbn [Z.eqb padCodewords negb].
      by rewrite append_assoc.
    + change (idx terminatorPads 1) with (Ok (A:=string) "00010001").
      unfold mbind, res_mbind, res_bind.
      rewrite IH by lia. rewrite H1. cbn [Z.eqb padCodewords negb].
      by rewrite append_assoc.
Qed.

Lemma terminator_eq (bits : string) (v : Z) :
  terminator bits v
  = encodingToByteArray (terminator_bits bits (arr (blockInfo_at v) 0)).
Proof.
  unfold terminator, terminator_bits.
  set (B := arr (blockInfo_at v) 0). set (n := len bits).
  assert (Hn : 0 ≤ n) by apply len_nonneg.
  destruct (B * 8 - n =? 0) eqn:E1; destruct (8 * B =? n) eqn:E2; try lia; [done|].
  rewrite Z.rem_mod_nonneg by lia.
  pose proof (Z.mod_pos_bound n 8 ltac:(lia)) as Hm.
  rewrite padRight_zeros by lia.
  rewrite len_append, len_zeros, Z2Nat.id by lia. fold n.
  rewrite Z.quot_div_nonneg by lia.
  destruct (Z_le_gt_dec (B - (n + (8 - n mod 8)) / 8) 0) as [Hle|Hgt].
  - rewrite forZ_nil by lia. rewrite res_bind_Ok.
    replace (Z.to_nat (B - (n + (8 - n mod 8)) / 8)) with 0%nat by lia.
    cbn [padCodewords]. by rewrite append_nil_r.
  - set (k := B - (n + (8 - n mod 8)) / 8) in *.
    replace k with (0 + Z.of_nat (Z.to_nat k)) at 1 by lia.
    rewrite pad_loop by lia. rewrite res_bind_Ok.
    by rewrite append_assoc.
Qed.

Lemma encoding_eq (qr : QR) :
  encoding qr = e ← terminator (payloadBits qr) (Version qr); Ok (set_Encoding qr e).
Proof.
  unfold encoding, payloadBits.
  destruct (Mode qr =? numeric); [done|]. by destruct (Mode qr =? alpha).
Qed.

Lemma terminator_bits_length (bits : string) (B : Z) :
  len bits ≤ 8 * B → len (terminator_bits bits B) = 8 * B.
Proof.
  intros Hle. unfold terminator_bits. pose proof (len_nonneg bits) as Hn.
  destruct (8 * B =? len bits) eqn:E; [lia|].
  pose proof (Z.mod_pos_bound (len bits) 8 ltac:(lia)) as Hm.
  rewrite !len_append, len_zeros, len_padCodewords.
  pose proof (Z.div_mod (len bits) 8 ltac:(lia)) as Hd.
  assert (Hq : (len bits + (8 - len bits mod 8)) / 8 = len bits / 8 + 1).
  { replace (len bits + (8 - len bits mod 8)) with ((len bits / 8 + 1) * 8) by lia.
    apply Z.div_mul. lia. }
  rewrite Hq. lia.
Qed.

(** C2 (amended).  For every state [qr] of the encoder whose version has
    a block-info entry, with [B] its total of data codewords, [encoding]
    stores the bytes of the header-plus-payload bit string extended, when
    its length is not already [8 B], by the 1 to 8 zero bits that reach
    the next multiple of 8 above its length and then by the pad codewords
    0xEC, 0x11, 0xEC, ... while fewer than [B] codewords are present; a
    bit string of at most [8 B] bits is extended to exactly [8 B] bits. *)
Theorem terminator_next_byte_then_pads (qr : QR) (info : list Z) :
  blockInfo !! Version qr = Some info →
  let B := arr info 0 in
  let bits := payloadBits qr in
  encoding qr
  = (e ← encodingToByteArray (terminator_bits bits B); Ok (set_Encoding qr e))
  ∧ (8 * B ≠ len bits → 1 ≤ 8 - len bits mod 8 ≤ 8)
  ∧ (len bits ≤ 8 * B → len (terminator_bits bits B) = 8 * B).
Proof.
  intros Hinfo B bits. split; [|split].
  - rewrite encoding_eq, terminator_eq. unfold blockInfo_at. rewrite Hinfo. done.
  - intros _. pose proof (Z.mod_pos_bound (len bits) 8 ltac:(lia)). lia.
  - apply terminator_bits_length.
Qed.

Lemma terminator_next_byte_then_pads_witness :
  let qr := set_Version (mode (initQR "ABC" 3)) 1 in
  let B := 19 in
  let bits := payloadBits qr in
  encoding qr
  = (e ← encodingToByteArray (terminator_bits bits B); Ok (set_Encoding qr e))
  ∧ (8 * B ≠ len bits → 1 ≤ 8 - len bits mod 8 ≤ 8)
  ∧ (len bits ≤ 8 * B → len (terminator_bits bits B) = 8 * B).
Proof.
  apply (terminator_next_byte_then_pads
           (set_Version (mode (initQR "ABC" 3)) 1) [19; 7; 1; 19; 0; 0; 0]).
  vm_compute. reflexivity.
Defined.

(** C2 (counterexample).  The input ABC is alphanumeric and of version 1
    (19 data codewords); its header and payload take 30 bits.  Four
    terminator bits and the zero bits up to a multiple of 8 would give
    five bytes, the fifth being 0; the package appends two zero bits and
    goes on with 0xEC. *)
Lemma terminator_ABC :
  (qr ← selected "ABC"; Ok (Mode qr, Version qr, len (payloadBits qr)))
  = Ok (alpha, 1, 30)
  ∧ blockInfo !! 1 = Some [19; 7; 1; 19; 0; 0; 0]
  ∧ (qr ← selected "ABC"; qr ← encoding qr; Ok (Encoding qr))
    = Ok [32; 25; 205; 48; 236; 17; 236; 17; 236; 17; 236; 17; 236; 17; 236;
          17; 236; 17; 236]
  ∧ (qr ← selected "ABC"; encodingToByteArray (terminator_spec (payloadBits qr) 19))
    = Ok [32; 25; 205; 48; 0; 236; 17; 236; 17; 236; 17; 236; 17; 236; 17;
          236; 17; 236; 17]
  ∧ (qr ← selected "ABC"; qr ← encoding qr; Ok (Encoding qr))
    ≠ (qr ← selected "ABC"; encodingToByteArray (terminator_spec (payloadBits qr) 19)).
Proof. repeat split; try (vm_compute; reflexivity). vm_compute. discriminate. Qed.

(** * Mode detection and version selection *)

(** C5 (evaluation at the failing input).  The one-letter input A is not a
    string of digits, yet [mode] selects Numeric for it: the first
    character escapes the class of [regexNumeric]. *)
Lemma mode_first_character_free :
  allDigits "A" = false
  ∧ allAlnum "A" = true
  ∧ mode_spec "A" = alpha
  ∧ detected "A" = numeric
  ∧ detected "a1" = numeric
  ∧ mode_spec "a1" = byteMode.
Proof. repeat split; reflexivity. Qed.

(** ** Version selection *)

Lemma mode_Length (qr : QR) : Length (mode qr) = Length qr.
Proof.
  unfold mode. destruct (matchNumeric _); [done|]. by destruct (matchAlpha _).
Qed.

Lemma version_eq (qr : QR) :
  version qr
  = v ← binarySearch (capacityTable (Mode qr)) (Length qr); Ok (set_Version qr (v + 1)).
Proof.
  unfold version, capacityTable.
  destruct (Mode qr =? numeric); [done|]. by destruct (Mode qr =? alpha).
Qed.

(** The search and its specification see [value] only through the
    comparisons with the entries of the table. *)
Lemma idx_elem_of {A} (l : list A) (i : Z) (a : A) : idx l i = Ok a → a ∈ l.
Proof.
  unfold idx. destruct (i <? 0); [discriminate|].
  destruct (l !! Z.to_nat i) eqn:E; [|discriminate].
  intros [= <-]. by eapply list_elem_of_lookup_2.
Qed.

Lemma binarySearch_loop_ext (fuel : nat) (table : list Z) (v v' low high : Z) :
  (∀ a, a ∈ table → (a <? v) = (a <? v')) →
  binarySearch_loop fuel table v low high = binarySearch_loop fuel table v' low high.
Proof.
  intros Hext. revert low high.
  induction fuel as [|fuel IH]; intros low high; cbn [binarySearch_loop]; [done|].
  destruct (low =? high); [done|].
  destruct (idx table ((low + high) `quot` 2)) as [a| |] eqn:E; [|done..].
  unfold mbind, res_mbind, res_bind.
  rewrite (Hext a (idx_elem_of _ _ _ E)), !IH. reflexivity.
Qed.

Lemma forallb_ext_elem {A} (f g : A → bool) (l : list A) :
  (∀ a, a ∈ l → f a = g a) → forallb f l = forallb g l.
Proof.
  induction l as [|x l IH]; intros H; [done|]. cbn [forallb].
  rewrite (H x) by left. rewrite IH; [done|]. intros a Ha. apply H. by right.
Qed.

Lemma firstFit_ext (table : list Z) (v v' r : Z) :
  (∀ a, a ∈ table → (a <? v) = (a <? v')) →
  firstFit table v r = firstFit table v' r.
Proof.
  intros Hext. unfold firstFit.
  destruct (table !! Z.to_nat r) as [c|] eqn:E; [|done].
  assert (Hc : (v <=? c) = (v' <=? c)).
  { pose proof (Hext c (list_elem_of_lookup_2 _ _ _ E)). lia. }
  rewrite Hc. f_equal.
  apply forallb_ext_elem. intros a Ha. apply Hext.
  apply list_elem_of_lookup in Ha as [i Hi].
  apply lookup_take_Some in Hi as [Hi _]. by eapply list_elem_of_lookup_2.
Qed.

Lemma least_fitting_entry (table : list Z) (v : Z) :
  Exists (λ c, v ≤ c) table →
  ∃ c, c ∈ table ∧ v ≤ c ∧ ∀ a, a ∈ table → v ≤ a → c ≤ a.
Proof.
  induction table as [|x table IH]; intros Hex; [by apply Exists_nil in Hex|].
  destruct (decide (Exists (λ c, v ≤ c) table)) as [Ht|Hn].
  - destruct (IH Ht) as (c & Hc & Hvc & Hmin).
    destruct (decide (v ≤ x ∧ x < c)) as [[Hvx Hxc]|Hx].
    + exists x. split; [left|]. split; [done|].
      intros a Ha Hva. apply elem_of_cons in Ha as [->|Ha]; [lia|].
      specialize (Hmin a Ha Hva). lia.
    + exists c. split; [by right|]. split; [done|].
      intros a Ha Hva. apply elem_of_cons in Ha as [->|Ha]; [lia|].
      by apply Hmin.
  - apply Exists_cons in Hex as [Hx|Ht]; [|done].
    exists x. split; [left|]. split; [done|].
    intros a Ha Hva. apply elem_of_cons in Ha as [->|Ha]; [lia|].
    exfalso. apply Hn, Exists_exists. by exists a.
Qed.

Lemma searchFinds_entries (m : Z) :
  forallb (searchFinds (capacityTable m)) (capacityTable m) = true.
Proof.
  unfold capacityTable.
  destruct (m =? numeric); [vm_compute; reflexivity|].
  destruct (m =? alpha); vm_compute; reflexivity.
Qed.

Lemma capacityTable_length (m : Z) : length (capacityTable m) = 40%nat.
Proof.
  unfold capacityTable.
  destruct (m =? numeric); [reflexivity|]. destruct (m =? alpha); reflexivity.
Qed.

Lemma binarySearch_firstFit (m value : Z) :
  Exists (λ c, value ≤ c) (capacityTable m) →
  ∃ r, binarySearch (capacityTable m) value = Ok r
       ∧ firstFit (capacityTable m) value r = true.
Proof.
  intros Hex. destruct (least_fitting_entry _ _ Hex) as (c & Hc & Hvc & Hmin).
  assert (Hext : ∀ a, a ∈ capacityTable m → (a <? value) = (a <? c)).
  { intros a Ha. destruct (decide (value ≤ a)) as [Hva|Hva].
    - specialize (Hmin a Ha Hva). lia.
    - lia. }
  pose proof (searchFinds_entries m) as Hall. rewrite forallb_forall in Hall.
  specialize (Hall c (proj1 (list_elem_of_In _ _) Hc)).
  unfold searchFinds, binarySearch in *.
  rewrite (binarySearch_loop_ext _ _ value c) by exact Hext.
  destruct (binarySearch_loop _ _ c 0 versions) as [r| |]; [|discriminate..].
  exists r. split; [done|]. by rewrite (firstFit_ext _ value c).
Qed.

Lemma firstFit_spec (table : list Z) (value r : Z) :
  firstFit table value r = true →
  0 ≤ r < Z.of_nat (length table)
  ∧ (∃ c, table !! Z.to_nat r = Some c ∧ value ≤ c)
  ∧ ∀ j c, 0 ≤ j < r → table !! Z.to_nat j = Some c → c < value.
Proof.
  unfold firstFit. destruct (table !! Z.to_nat r) as [c|] eqn:E; [|discriminate].
  intros H. apply andb_prop in H as [H H3]. apply andb_prop in H as [H1 H2].
  pose proof (lookup_lt_Some _ _ _ E). split; [lia|]. split; [exists c; split; [done|lia]|].
  intros j c' Hj Hc'. rewrite forallb_forall in H3.
  assert (Hin : take (Z.to_nat r) table !! Z.to_nat j = Some c').
  { rewrite lookup_take_lt by lia. done. }
  apply list_elem_of_lookup_2, list_elem_of_In, H3 in Hin. lia.
Qed.

(** C6.  For every non-empty input for which some entry of the capacity
    table of the detected mode is at least the length of the input,
    [version] returns, and the version it selects is the smallest index
    [i] of [1..40] with [table[i-1]] at least the length.  The byte table
    with its entry 779 out of order is one of the three tables. *)
Theorem version_smallest_fit (data : string) :
  data ≠ "" →
  Exists (λ c, len data ≤ c) (capacityTable (detected data)) →
  ∃ qr, selected data = Ok qr
        ∧ Mode qr = detected data
        ∧ 1 ≤ Version qr ≤ 40
        ∧ (∃ c, capacityTable (detected data) !! Z.to_nat (Version qr - 1) = Some c
                ∧ len data ≤ c)
        ∧ ∀ i c, 1 ≤ i < Version qr →
                 capacityTable (detected data) !! Z.to_nat (i - 1) = Some c →
                 c < len data.
Proof.
  intros Hne Hex.
  destruct (binarySearch_firstFit _ _ Hex) as (r & Hr & Hfit).
  apply firstFit_spec in Hfit as (Hrange & Hc & Hless).
  rewrite capacityTable_length in Hrange.
  exists (set_Version (mode (initQR data (len data))) (r + 1)).
  split.
  { unfold selected. rewrite version_eq, mode_Length.
    fold (detected data). cbn [Length initQR]. rewrite Hr. reflexivity. }
  cbn [Mode Version set_Version]. replace (r + 1 - 1) with r by lia.
  split; [reflexivity|]. split; [lia|]. split; [exact Hc|].
  intros i c Hi. apply Hless. lia.
Qed.

Lemma version_smallest_fit_witness :
  ∃ qr, selected (repeated 1000 "a") = Ok qr
        ∧ Mode qr = detected (repeated 1000 "a")
        ∧ 1 ≤ Version qr ≤ 40
        ∧ (∃ c, capacityTable (detected (repeated 1000 "a"))
                  !! Z.to_nat (Version qr - 1) = Some c
                ∧ len (repeated 1000 "a") ≤ c)
        ∧ ∀ i c, 1 ≤ i < Version qr →
                 capacityTable (detected (repeated 1000 "a")) !! Z.to_nat (i - 1)
                 = Some c →
                 c < len (repeated 1000 "a").
Proof.
  apply (version_smallest_fit (repeated 1000 "a")).
  - vm_compute. discriminate.
  - apply Exists_exists. exists 1091. split.
    + vm_compute. do 22 right. left.
    + vm_compute. discriminate.
Defined.

Example version_byte_1000 :
  (qr ← selected (repeated 1000 "a"); Ok (Mode qr, Version qr)) = Ok (byteMode, 23).
Proof. vm_compute. reflexivity. Qed.

(** * Errors *)

(** ** Errors of [NewQR] *)

Lemma len_zero_iff (s : string) : len s = 0 ↔ s = "".
Proof.
  unfold len. destruct s; cbn [String.length]; split; intros H; try done; lia.
Qed.

Lemma NewQR_empty : NewQR "" = Ok (None, Some "Empty data input.").
Proof. reflexivity. Qed.

Lemma NewQR_nonempty_no_error (data : string) (e : string) :
  data ≠ "" → NewQR data ≠ Ok (None, Some e).
Proof.
  intros Hne. unfold NewQR.
  destruct (len data =? 0) eqn:E; [apply Z.eqb_eq, len_zero_iff in E; done|].
  destruct (buildStream data (len data)) as [q1| |]; [|done..].
  unfold mbind, res_mbind, res_bind.
  destruct (buildPatterns q1) as [q2| |]; [|done..].
  destruct (buildSymbol q2) as [q3| |]; done.
Qed.

Lemma binarySearch_loop_all_less (fuel : nat) (table : list Z) (value low : Z) :
  length table = 40%nat → Forall (λ a, a < value) table →
  0 ≤ low ≤ 40 → 40 - low ≤ Z.of_nat fuel →
  binarySearch_loop fuel table value low 40 = Ok 40.
Proof.
  intros Hl Hall. revert low.
  induction fuel as [|fuel IH]; intros low Hlow Hfuel; cbn [binarySearch_loop].
  - replace low with 40 by lia. reflexivity.
  - destruct (low =? 40) eqn:E; [f_equal; lia|].
    assert (Hmid : low ≤ (low + 40) `quot` 2 < 40).
    { rewrite Z.quot_div_nonneg by lia.
      pose proof (Z.div_mod (low + 40) 2 ltac:(lia)).
      pose proof (Z.mod_pos_bound (low + 40) 2 ltac:(lia)). lia. }
    unfold idx. destruct ((low + 40) `quot` 2 <? 0) eqn:E0; [lia|].
    destruct (table !! Z.to_nat ((low + 40) `quot` 2)) as [a|] eqn:Ea.
    + unfold mbind, res_mbind, res_bind.
      rewrite Forall_forall in Hall.
      pose proof (Hall a (list_elem_of_lookup_2 _ _ _ Ea)).
      destruct (a <? value) eqn:Ev; [|lia]. apply IH; lia.
    + apply lookup_ge_None in Ea. lia.
Qed.

Lemma version_oversize (data : string) :
  Forall (λ c, c < len data) (capacityTable (detected data)) →
  selected data = Ok (set_Version (mode (initQR data (len data))) 41).
Proof.
  intros Hall. unfold selected. rewrite version_eq, mode_Length.
  fold (detected data). cbn [Length initQR]. unfold binarySearch.
  change versions with 40. 
  rewrite binarySearch_loop_all_less; [reflexivity|apply capacityTable_length|done|lia|lia].
Qed.

(** The only error value of [NewQR] is the one for the empty input.  For
    an input longer than every capacity of its mode the check is missing:
    [binarySearch] returns 40, nothing compares it with [versions], and
    [version] stores 41. *)
Theorem NewQR_error_iff_empty (data : string) :
  ((∃ e, NewQR data = Ok (None, Some e)) ↔ data = "")
  ∧ (Forall (λ c, c < len data) (capacityTable (detected data)) →
     (∀ e, NewQR data ≠ Ok (None, Some e))
     ∧ ∃ qr, selected data = Ok qr ∧ Version qr = 41).
Proof.
  split.
  - split.
    + intros [e He]. destruct (decide (data = "")) as [|Hne]; [done|].
      by apply NewQR_nonempty_no_error in He.
    + intros ->. eexists. apply NewQR_empty.
  - intros Hall. split.
    + intros e. apply NewQR_nonempty_no_error. intros ->.
      unfold detected, capacityTable in Hall. vm_compute in Hall.
      apply Forall_cons in Hall as [H _]. done.
    + eexists. split; [by apply version_oversize|reflexivity].
Qed.

(** ** The version is fixed once selected *)

Ltac res_cases :=
  repeat match goal with
         | |- context [match ?x with _ => _ end] => destruct x eqn:?; try discriminate
         end.

Ltac keeps_version f :=
  unfold f, mbind, res_mbind, res_bind; res_cases; intros [= <-]; reflexivity.

Lemma encoding_Version qr q : encoding qr = Ok q → Version q = Version qr.
Proof. rewrite encoding_eq. keeps_version terminator. Qed.

Lemma interleave_Version qr q : interleave qr = Ok q → Version q = Version qr.
Proof. keeps_version interleave. Qed.

Lemma placeFinderPatterns_Version qr q :
  placeFinderPatterns qr = Ok q → Version q = Version qr.
Proof. keeps_version placeFinderPatterns. Qed.

Lemma placeSeparator_Version qr q :
  placeSeparator qr = Ok q → Version q = Version qr.
Proof. keeps_version placeSeparator. Qed.

Lemma placeAlignmentPatterns_Version qr q :
  placeAlignmentPatterns qr = Ok q → Version q = Version qr.
Proof. keeps_version placeAlignmentPatterns. Qed.

Lemma drawTimingPattern_Version qr q :
  drawTimingPattern qr = Ok q → Version q = Version qr.
Proof. keeps_version drawTimingPattern. Qed.

Lemma drawDarkModule_Version qr q :
  drawDarkModule qr = Ok q → Version q = Version qr.
Proof. keeps_version drawDarkModule. Qed.

Lemma reserveFormatInformationArea_Version qr q :
  reserveFormatInformationArea qr = Ok q → Version q = Version qr.
Proof. keeps_version reserveFormatInformationArea. Qed.

Lemma reserveVersionInformationData_Version qr q :
  reserveVersionInformationData qr = Ok q → Version q = Version qr.
Proof. keeps_version reserveVersionInformationData. Qed.

Lemma drawDataBits_Version qr q : drawDataBits qr = Ok q → Version q = Version qr.
Proof. keeps_version drawDataBits. Qed.

Lemma dataMasking_Version qr q : dataMasking qr = Ok q → Version q = Version qr.
Proof. keeps_version dataMasking. Qed.

Lemma drawFormatInformationString_Version qr q :
  drawFormatInformationString qr = Ok q → Version q = Version qr.
Proof. keeps_version drawFormatInformationString. Qed.

Lemma bind_Ok_inv {A B} (m : res A) (f : A → res B) (b : B) :
  m ≫= f = Ok b → ∃ a, m = Ok a ∧ f a = Ok b.
Proof. destruct m; [|done..]. intros H. by eexists. Qed.

Lemma buildStream_Version data q0 q :
  selected data = Ok q0 → buildStream data (len data) = Ok q →
  Version q = Version q0.
Proof.
  unfold selected, buildStream. intros ->. 
  change (Ok q0 ≫= ?f) with (f q0). cbv beta zeta.
  intros (q1 & H1 & H2)%bind_Ok_inv.
  apply interleave_Version in H2. apply encoding_Version in H1.
  rewrite H2, H1. reflexivity.
Qed.

Lemma buildPatterns_Version qr q : buildPatterns qr = Ok q → Version q = Version qr.
Proof.
  unfold buildPatterns.
  intros (cv & _ & H)%bind_Ok_inv.
  apply bind_Ok_inv in H as (q1 & H1%placeFinderPatterns_Version & H).
  apply bind_Ok_inv in H as (q2 & H2%placeSeparator_Version & H).
  apply bind_Ok_inv in H as (q3 & H3%placeAlignmentPatterns_Version & H).
  apply bind_Ok_inv in H as (q4 & H4%drawTimingPattern_Version & H).
  apply bind_Ok_inv in H as (q5 & H5%drawDarkModule_Version & H).
  apply bind_Ok_inv in H as (q6 & H6%reserveFormatInformationArea_Version & H).
  assert (Version q = Version q6) as ->.
  { destruct (7 <=? Version q6); [by apply reserveVersionInformationData_Version|].
    by injection H as <-. }
  rewrite H6, H5, H4, H3, H2, H1. reflexivity.
Qed.

Lemma drawVersionInformationString_missing qr :
  13 ≤ Version qr → drawVersionInformationString qr = Panic.
Proof.
  intros Hv. unfold drawVersionInformationString, idx.
  destruct (Version qr - 7 <? 0) eqn:E; [lia|].
  destruct (versionInformationStrings !! Z.to_nat (Version qr - 7)) eqn:El; [|done].
  apply lookup_lt_Some in El. cbn [length versionInformationStrings] in El. lia.
Qed.

Lemma buildSymbol_no_return qr q : 13 ≤ Version qr → buildSymbol qr ≠ Ok q.
Proof.
  intros Hv H. unfold buildSymbol in H.
  apply bind_Ok_inv in H as (q1 & H1%drawDataBits_Version & H).
  apply bind_Ok_inv in H as (q2 & H2%dataMasking_Version & H).
  apply bind_Ok_inv in H as (q3 & H3%drawFormatInformationString_Version & H).
  assert (Hq : Version q3 = Version qr) by (rewrite H3, H2, H1; reflexivity).
  destruct (7 <=? Version q3) eqn:E; [|lia].
  rewrite drawVersionInformationString_missing in H by lia. done.
Qed.

(** From version 13 on [NewQR] does not return. *)
Lemma NewQR_no_return data q0 r :
  data ≠ "" → selected data = Ok q0 → 13 ≤ Version q0 → NewQR data ≠ Ok r.
Proof.
  intros Hne Hsel Hv H. unfold NewQR in H.
  destruct (len data =? 0) eqn:E; [apply Z.eqb_eq, len_zero_iff in E; done|].
  apply bind_Ok_inv in H as (q1 & H1 & H).
  apply bind_Ok_inv in H as (q2 & H2 & H).
  apply bind_Ok_inv in H as (q3 & H3 & H).
  apply (buildStream_Version _ _ _ Hsel) in H1.
  apply buildPatterns_Version in H2.
  apply buildSymbol_no_return in H3; [done|]. lia.
Qed.

(** * The fuel never runs out *)

Lemma fin_Ok {A} (a : A) : finishes (Ok a).
Proof. done. Qed.

Lemma fin_Panic {A} : finishes (@Panic A).
Proof. done. Qed.

Lemma fin_bind {A B} (m : res A) (f : A → res B) :
  finishes m → (∀ a, finishes (f a)) → finishes (m ≫= f).
Proof. intros Hm Hf. destruct m; [apply Hf|done..]. Qed.

Lemma fin_foldl {A St} (body : A → St → res St) (l : list A) (r : res St) :
  finishes r → (∀ i s, finishes (body i s)) →
  finishes (foldl (λ acc i, acc ≫= body i) r l).
Proof.
  intros Hr Hbody. revert r Hr. induction l as [|a l IH]; intros r Hr; [done|].
  cbn [foldl]. apply IH. by apply fin_bind.
Qed.

Lemma fin_forZ {St} lo hi (body : Z → St → res St) s :
  (∀ i s, finishes (body i s)) → finishes (forZ lo hi body s).
Proof. intros. by apply fin_foldl. Qed.

Lemma fin_forZstep {St} lo hi step (body : Z → St → res St) s :
  (∀ i s, finishes (body i s)) → finishes (forZstep lo hi step body s).
Proof. intros. by apply fin_foldl. Qed.

Lemma fin_forZdown {St} hi lo (body : Z → St → res St) s :
  (∀ i s, finishes (body i s)) → finishes (forZdown hi lo body s).
Proof. intros. by apply fin_foldl. Qed.

Create HintDb fin discriminated.
#[local] Hint Resolve fin_Ok fin_Panic : fin.

(** Decomposition of a computation along binds, loops, conditionals and
    pairs; calls are closed by the lemmas of the database. *)
Ltac fin :=
  repeat first
    [ apply fin_Ok
    | apply fin_Panic
    | solve [eauto 2 with fin]
    | apply fin_bind; [|intros ?]
    | apply fin_forZ; intros ? ?
    | apply fin_forZstep; intros ? ?
    | apply fin_forZdown; intros ? ?
    | match goal with
      | |- finishes (if ?b then _ else _) => destruct b
      | |- finishes (match ?x with (_, _) => _ end) => destruct x
      | |- finishes (match ?x with Some _ => _ | None => _ end) => destruct x
      end ].

Ltac fin_unfold f := intros; unfold f; fin.

Lemma fin_idx {A} (l : list A) i : finishes (idx l i).
Proof. fin_unfold @idx. Qed.
Lemma fin_upd {A} (l : list A) i v : finishes (upd l i v).
Proof. fin_unfold @upd. Qed.
Lemma fin_slice s i j : finishes (slice s i j).
Proof. fin_unfold slice. Qed.
Lemma fin_charAt s i : finishes (charAt s i).
Proof. fin_unfold charAt. Qed.
Lemma fin_make n : finishes (make n).
Proof. fin_unfold make. Qed.
Lemma fin_sliceL {A} (l : list A) i j : finishes (sliceL l i j).
Proof. fin_unfold @sliceL. Qed.
Lemma fin_copyInto {A} (d : list A) i j s : finishes (copyInto d i j s).
Proof. fin_unfold @copyInto. Qed.
Lemma fin_newCanvas n : finishes (newCanvas n).
Proof. fin_unfold newCanvas. Qed.
#[local] Hint Resolve fin_idx fin_upd fin_slice fin_charAt fin_make fin_sliceL
  fin_copyInto fin_newCanvas : fin.

Lemma fin_getCell cv r c : finishes (getCell cv r c).
Proof. fin_unfold getCell. Qed.
Lemma fin_setCell cv r c f : finishes (setCell cv r c f).
Proof. fin_unfold setCell. Qed.
Lemma fin_putCell cv r c cell : finishes (putCell cv r c cell).
Proof. fin_unfold putCell. Qed.
#[local] Hint Resolve fin_getCell fin_setCell fin_putCell : fin.
Lemma fin_setColor cv r c v : finishes (setColor cv r c v).
Proof. fin_unfold setColor. Qed.
Lemma fin_setData cv r c b : finishes (setData cv r c b).
Proof. fin_unfold setData. Qed.
#[local] Hint Resolve fin_setColor fin_setData : fin.

Lemma fin_encodingToByteArray e : finishes (encodingToByteArray e).
Proof. fin_unfold encodingToByteArray. Qed.
#[local] Hint Resolve fin_encodingToByteArray : fin.
Lemma fin_terminator e v : finishes (terminator e v).
Proof. fin_unfold terminator. Qed.
#[local] Hint Resolve fin_terminator : fin.
Lemma fin_encoding qr : finishes (encoding qr).
Proof. fin_unfold encoding. Qed.
Lemma fin_interleaveData a b1 b2 w1 w2 : finishes (interleaveData a b1 b2 w1 w2).
Proof. fin_unfold interleaveData. Qed.
Lemma fin_correction a e b1 b2 w1 w2 : finishes (correction a e b1 b2 w1 w2).
Proof. fin_unfold correction. Qed.
Lemma fin_interleaveError a e b1 b2 : finishes (interleaveError a e b1 b2).
Proof. fin_unfold interleaveError. Qed.
#[local] Hint Resolve fin_encoding fin_interleaveData fin_correction
  fin_interleaveError : fin.
Lemma fin_interleave qr : finishes (interleave qr).
Proof. fin_unfold interleave. Qed.
#[local] Hint Resolve fin_interleave : fin.

Lemma fin_drawPattern cv r c s : finishes (drawPattern cv r c s).
Proof. fin_unfold drawPattern. Qed.
Lemma fin_drawSeperator cv r c dr dc : finishes (drawSeperator cv r c dr dc).
Proof. fin_unfold drawSeperator. Qed.
#[local] Hint Resolve fin_drawPattern fin_drawSeperator : fin.
Lemma fin_placeFinderPatterns qr : finishes (placeFinderPatterns qr).
Proof. fin_unfold placeFinderPatterns. Qed.
Lemma fin_placeSeparator qr : finishes (placeSeparator qr).
Proof. fin_unfold placeSeparator. Qed.
Lemma fin_placeAlignmentPatterns qr : finishes (placeAlignmentPatterns qr).
Proof. fin_unfold placeAlignmentPatterns. Qed.
Lemma fin_drawTimingPattern qr : finishes (drawTimingPattern qr).
Proof. fin_unfold drawTimingPattern. Qed.
Lemma fin_drawDarkModule qr : finishes (drawDarkModule qr).
Proof. fin_unfold drawDarkModule. Qed.
Lemma fin_reserveFormatInformationArea qr :
  finishes (reserveFormatInformationArea qr).
Proof. fin_unfold reserveFormatInformationArea. Qed.
Lemma fin_reserveVersionInformationData qr :
  finishes (reserveVersionInformationData qr).
Proof. fin_unfold reserveVersionInformationData. Qed.
#[local] Hint Resolve fin_placeFinderPatterns fin_placeSeparator
  fin_placeAlignmentPatterns fin_drawTimingPattern fin_drawDarkModule
  fin_reserveFormatInformationArea fin_reserveVersionInformationData : fin.

Lemma fin_placeBit s r c st : finishes (placeBit s r c st).
Proof. fin_unfold placeBit. Qed.
#[local] Hint Resolve fin_placeBit : fin.
Lemma fin_placeRow s c r st : finishes (placeRow s c r st).
Proof. fin_unfold placeRow. Qed.
#[local] Hint Resolve fin_placeRow : fin.

(** Each turn of the loop of [drawDataBits] lowers [c]: fuel above [c]
    is enough. *)
Lemma fin_drawDataBits_loop fuel modules s c up st :
  c < Z.of_nat fuel → finishes (drawDataBits_loop fuel modules s c up st).
Proof.
  revert c up st. induction fuel as [|fuel IH]; intros c up st Hc;
    cbn [drawDataBits_loop].
  - destruct (0 <? c) eqn:E; [lia|done].
  - destruct (0 <? c) eqn:E; [|done].
    destruct (c =? 6); [apply IH; lia|].
    apply fin_bind; [destruct up; fin|]. intros st'. apply IH. lia.
Qed.

Lemma fin_drawDataBits qr : finishes (drawDataBits qr).
Proof.
  unfold drawDataBits. apply fin_bind; [|intros [cv i]; done].
  destruct (decide (0 < Modules qr)) as [Hm|Hm].
  - apply fin_drawDataBits_loop. lia.
  - destruct (Z.to_nat (Modules qr)); cbn [drawDataBits_loop];
      destruct (0 <? Modules qr - 1) eqn:E; (lia || done).
Qed.

(** Each turn of the binary search narrows the interval. *)
Lemma fin_binarySearch_loop fuel array value low high :
  low ≤ high → high - low ≤ Z.of_nat fuel → 0 ≤ low →
  finishes (binarySearch_loop fuel array value low high).
Proof.
  revert low high. induction fuel as [|fuel IH]; intros low high Hle Hfuel H0;
    cbn [binarySearch_loop].
  - destruct (low =? high) eqn:E; [done|lia].
  - destruct (low =? high) eqn:E; [done|].
    assert (Hmid : low ≤ (low + high) `quot` 2 < high).
    { rewrite Z.quot_div_nonneg by lia.
      pose proof (Z.div_mod (low + high) 2 ltac:(lia)).
      pose proof (Z.mod_pos_bound (low + high) 2 ltac:(lia)). lia. }
    apply fin_bind; [apply fin_idx|]. intros a.
    destruct (a <? value); apply IH; lia.
Qed.

Lemma fin_binarySearch array value : finishes (binarySearch array value).
Proof. apply fin_binarySearch_loop; unfold versions; lia. Qed.
#[local] Hint Resolve fin_drawDataBits fin_binarySearch : fin.

Lemma fin_version qr : finishes (version qr).
Proof. fin_unfold version. Qed.
#[local] Hint Resolve fin_version : fin.

Lemma fin_copyCanvas cv copy : finishes (copyCanvas cv copy).
Proof. fin_unfold copyCanvas. Qed.
#[local] Hint Resolve fin_copyCanvas : fin.
Lemma fin_maskCanvas cv fn : finishes (maskCanvas cv fn).
Proof. fin_unfold maskCanvas. Qed.
Lemma fin_pen1 m : finishes (pen1 m).
Proof. fin_unfold pen1. Qed.
Lemma fin_pen2 m : finishes (pen2 m).
Proof. fin_unfold pen2. Qed.
Lemma fin_substringOccurrences s sub : finishes (substringOccurrences s sub).
Proof. fin_unfold substringOccurrences. Qed.
#[local] Hint Resolve fin_substringOccurrences : fin.
Lemma fin_pen3 m : finishes (pen3 m).
Proof. fin_unfold pen3. Qed.
Lemma fin_pen4 m : finishes (pen4 m).
Proof. fin_unfold pen4. Qed.
#[local] Hint Resolve fin_maskCanvas fin_pen1 fin_pen2 fin_pen3 fin_pen4 : fin.
Lemma fin_penalty m : finishes (penalty m).
Proof. fin_unfold penalty. Qed.
#[local] Hint Resolve fin_penalty : fin.
Lemma fin_dataMasking qr : finishes (dataMasking qr).
Proof. fin_unfold dataMasking. Qed.
Lemma fin_drawFormatInformationString qr :
  finishes (drawFormatInformationString qr).
Proof. fin_unfold drawFormatInformationString. Qed.
Lemma fin_drawVersionInformationString qr :
  finishes (drawVersionInformationString qr).
Proof. fin_unfold drawVersionInformationString. Qed.
#[local] Hint Resolve fin_dataMasking fin_drawFormatInformationString
  fin_drawVersionInformationString : fin.

Lemma fin_buildStream d l : finishes (buildStream d l).
Proof. fin_unfold buildStream. Qed.
Lemma fin_buildPatterns qr : finishes (buildPatterns qr).
Proof. fin_unfold buildPatterns. Qed.
Lemma fin_buildSymbol qr : finishes (buildSymbol qr).
Proof. fin_unfold buildSymbol. Qed.
#[local] Hint Resolve fin_buildStream fin_buildPatterns fin_buildSymbol : fin.

(** [NewQR] returns or panics on every input. *)
Theorem NewQR_finishes (d : string) : NewQR d ≠ OutOfFuel.
Proof. change (finishes (NewQR d)). unfold NewQR. fin. Qed.

(** * Inputs of version 13 and above *)

(** From version 13 on [NewQR] panics: at the latest when it looks up the
    version information string. *)
Lemma NewQR_panics_from_13 (input : string) (q0 : QR) :
  input ≠ "" → selected input = Ok q0 → 13 ≤ Version q0 → NewQR input = Panic.
Proof.
  intros Hne Hsel Hv.
  pose proof (NewQR_finishes input) as Hfin.
  destruct (NewQR input) as [r| |] eqn:E; [|done..].
  by apply (NewQR_no_return _ _ r Hne Hsel) in Hv.
Qed.

(** C3 (evaluation at the failing input).  7090 digits are of numeric
    mode and exceed every capacity of the mode, 7089 of version 40
    included.  [NewQR] returns no error value for them: [version] stores
    41 unchecked and the call panics. *)
Lemma NewQR_oversize_panics :
  let digits := repeated 7090 "1" in
  allDigits digits = true
  ∧ detected digits = numeric
  ∧ Forall (λ c, c < len digits) (capacityTable numeric)
  ∧ NewQR digits = Panic.
Proof.
  assert (Hd : detected (repeated 7090 "1") = numeric) by (vm_compute; reflexivity).
  assert (Hall : Forall (λ c, c < len (repeated 7090 "1")) (capacityTable numeric))
    by (vm_compute; repeat constructor).
  intros digits. split; [vm_compute; reflexivity|]. split; [exact Hd|].
  split; [exact Hall|].
  apply (NewQR_panics_from_13 _
           (set_Version (mode (initQR (repeated 7090 "1") (len (repeated 7090 "1")))) 41)).
  - vm_compute. discriminate.
  - apply version_oversize. rewrite Hd. exact Hall.
  - cbn [Version set_Version]. lia.
Qed.

(** * Table lookups, stream length, data cells, format cells *)

Lemma blockInfo_versions (v : Z) : is_Some (blockInfo !! v) ↔ 1 ≤ v ≤ 14.
Proof.
  split.
  - intros [info Hinfo]. destruct (decide (1 ≤ v ≤ 14)) as [|Hn]; [done|].
    exfalso. revert Hinfo. unfold blockInfo. cbn [list_to_map foldr uncurry fst snd].
    rewrite !lookup_insert_ne by lia. by rewrite lookup_empty.
  - intros Hv.
    assert (Hc : v ∈ seqZ 1 14) by (apply elem_of_seqZ; lia).
    vm_compute in Hc. repeat (apply elem_of_cons in Hc as [->|Hc]; [by eexists|]).
    by apply elem_of_nil in Hc.
Qed.

Lemma alignmentPatterns_versions (v : Z) :
  is_Some (alignmentPatterns !! v) ↔ 2 ≤ v ≤ 12.
Proof.
  split.
  - intros [info Hinfo]. destruct (decide (2 ≤ v ≤ 12)) as [|Hn]; [done|].
    exfalso. revert Hinfo. unfold alignmentPatterns. cbn [list_to_map foldr uncurry fst snd].
    rewrite !lookup_insert_ne by lia. by rewrite lookup_empty.
  - intros Hv.
    assert (Hc : v ∈ seqZ 2 11) by (apply elem_of_seqZ; lia).
    vm_compute in Hc. repeat (apply elem_of_cons in Hc as [->|Hc]; [by eexists|]).
    by apply elem_of_nil in Hc.
Qed.

Lemma versionInformationStrings_versions (v : Z) :
  (∃ vis, idx versionInformationStrings (v - 7) = Ok vis) ↔ 7 ≤ v ≤ 12.
Proof.
  unfold idx. split.
  - intros [vis H]. destruct (v - 7 <? 0) eqn:E; [done|].
    destruct (versionInformationStrings !! Z.to_nat (v - 7)) eqn:El; [|done].
    apply lookup_lt_Some in El. cbn [length versionInformationStrings] in El. lia.
  - intros Hv. destruct (v - 7 <? 0) eqn:E; [lia|].
    destruct (versionInformationStrings !! Z.to_nat (v - 7)) eqn:El; [by eexists|].
    apply lookup_ge_None in El. cbn [length versionInformationStrings] in El. lia.
Qed.

(** C7 (evaluation at the failing input).  The tables stop early: block
    information at version 14, alignment patterns at 12, version
    information at 12.  An input of 459 bytes is valid, of version 15:
    the three lookups miss, and [NewQR] panics. *)
Lemma table_lookups_miss :
  let input := repeated 459 "a" in
  detected input = byteMode
  ∧ Exists (λ c, len input ≤ c) (capacityTable byteMode)
  ∧ (qr ← selected input; Ok (Version qr)) = Ok 15
  ∧ blockInfo !! 15 = None
  ∧ alignmentPatterns !! 15 = None
  ∧ idx versionInformationStrings (15 - 7) = Panic
  ∧ NewQR input = Panic.
Proof.
  split; [vm_compute; reflexivity|].
  split; [apply Exists_exists; exists 520; split;
          [vm_compute; do 14 right; left|vm_compute; discriminate]|].
  split; [vm_compute; reflexivity|]. split; [vm_compute; reflexivity|].
  split; [vm_compute; reflexivity|]. split; [vm_compute; reflexivity|].
  apply (NewQR_panics_from_13 _
           (set_Version (mode (initQR (repeated 459 "a") (len (repeated 459 "a")))) 15)).
  - vm_compute. discriminate.
  - vm_compute. reflexivity.
  - cbn [Version set_Version]. lia.
Qed.

(** C8 (evaluation at the failing inputs).  For the 459 bytes of version
    15 the block-info lookup yields zero codewords and [encoding] stores
    462 bytes.  With an entry in the table the length can differ as well:
    nine bytes 0xFF are of version 1 (19 codewords); [encBytes] reads them
    as nine runes U+FFFD of 16 bits each, the bit string has 156 bits, and
    [encoding] stores 20 bytes. *)
Lemma encoding_length_differs :
  (qr ← selected (repeated 459 "a"); qr ← encoding qr;
   Ok (Mode qr, Version qr, Z.of_nat (length (Encoding qr)),
       arr (blockInfo_at (Version qr)) 0))
  = Ok (byteMode, 15, 462, 0)
  ∧ (qr ← selected (repeated 9 "255"); qr ← encoding qr;
     Ok (Mode qr, Version qr, len (payloadBits qr),
         Z.of_nat (length (Encoding qr)), arr (blockInfo_at (Version qr)) 0))
    = Ok (byteMode, 1, 156, 20, 19).
Proof. split; vm_compute; reflexivity. Qed.

(** C10 (evaluation at the failing input).  An input of 368 bytes is of
    version 13, which has block information (4 blocks of 107 codewords,
    26 check bytes each: 4256 bits) but no alignment patterns: 4396 cells
    are left for data, and [drawDataBits] reads past the end of the
    stream. *)
Lemma data_cells_exceed_stream :
  blockInfo !! 13 = Some [428; 26; 4; 107; 0; 0; 0]
  ∧ alignmentPatterns !! 13 = None
  ∧ 8 * (4 * 107 + 0 * 0) + 8 * 26 * (4 + 0) + 0 = 4256
  ∧ (qr ← buildStream (repeated 368 "a") 368; qr ← buildPatterns qr;
     Ok (Mode qr, Version qr, countData (Canvas qr), len (Interleaved qr),
         drawDataBits qr))
    = Ok (byteMode, 13, 4396, 4256, Panic).
Proof.
  split; [vm_compute; reflexivity|]. split; [vm_compute; reflexivity|].
  split; vm_compute; reflexivity.
Qed.

(** Where the tables are complete the count is right: for versions 1 to
    12 the data cells are as many as the bits of the stream; versions 13
    and 14 leave 140 and 308 cells too many. *)
Lemma data_cells_by_version :
  (λ v, qr ← patternsOf v; Ok (countData (Canvas qr) - streamLength v)) <$> seqZ 1 14
  = [Ok 0; Ok 0; Ok 0; Ok 0; Ok 0; Ok 0; Ok 0; Ok 0; Ok 0; Ok 0; Ok 0; Ok 0;
     Ok 140; Ok 308].
Proof. vm_compute. reflexivity. Qed.

(** C4 (evaluation at the failing input).  For the input of the package's
    own test the winning mask is 1 and the symbol has 25 modules.  Of the
    copy at the top-left finder, bits 10, 12 and 14 are not at their
    cells: the loop skips bit 9 and writes bits 10 to 14 one cell early,
    and [(0, 8)] is never written.  Of the second copy, bit 9 is not at
    [(8, N-6)], which is never written.  Whatever the mask, some bit of
    the first copy is misplaced: the second part lists, for the masks 0
    to 7 on the patterns of version 1, the bits of either copy that are
    not at their cells. *)
Lemma format_bits_misplaced :
  match NewQR "EPFLLAUSANNE2016SWITZERLAND" with
  | Ok (Some qr, None) =>
      Some (Mask qr, Modules qr,
            formatMismatches qr formatCell1,
            formatMismatches qr (formatCell2 (Modules qr)),
            (colorAt (Canvas qr) 4 8, formatBit (Mask qr) 10, formatBit (Mask qr) 11),
            (colorAt (Canvas qr) 0 8, formatBit (Mask qr) 14),
            (colorAt (Canvas qr) 8 19, formatBit (Mask qr) 9))
  | _ => None
  end
  = Some (1, 25, [10; 12; 14], [9], (0, 1, 0), (0, 1), (0, 1))
  ∧ (λ mask, qr ← patternsOf 1;
             qr ← drawFormatInformationString (set_Mask qr mask);
             Ok (formatMismatches qr formatCell1,
                 formatMismatches qr (formatCell2 21))) <$> seqZ 0 8
    = [Ok ([11; 12], []); Ok ([10; 12; 14], [9]);
       Ok ([9; 10; 11; 12; 13], [9]); Ok ([9; 12; 13; 14], []);
       Ok ([9; 10; 14], [9]); Ok ([9; 11], []); Ok ([13; 14], []);
       Ok ([10; 11; 13], [9])].
Proof. split; vm_compute; reflexivity. Qed.

(** * Mask selection *)

(** ** Loops that succeed *)

Lemma forZ_inv {S} (I : S → Prop) lo hi (body : Z → S → res S) s :
  I s →
  (∀ i s, lo ≤ i < hi → I s → ∃ s', body i s = Ok s' ∧ I s') →
  ∃ s', forZ lo hi body s = Ok s' ∧ I s'.
Proof.
  intros Hs Hbody.
  remember (Z.to_nat (hi - lo)) as n eqn:Hn. revert lo s Hs Hbody Hn.
  induction n as [|n IH]; intros lo s Hs Hbody Hn.
  - rewrite forZ_nil by lia. by exists s.
  - rewrite forZ_cons by lia.
    destruct (Hbody lo s ltac:(lia) Hs) as (s1 & -> & Hs1).
    change (Ok s1 ≫= ?f) with (f s1); cbv beta. apply IH; [done| |lia].
    intros i s2 Hi. apply Hbody. lia.
Qed.

Lemma forZ_Ok {S} lo hi (body : Z → S → res S) s :
  (∀ i s, lo ≤ i < hi → ∃ s', body i s = Ok s') →
  ∃ s', forZ lo hi body s = Ok s'.
Proof.
  intros Hbody.
  destruct (forZ_inv (λ _, True) lo hi body s I) as (s' & Hs' & _); [|by exists s'].
  intros i s0 Hi _. destruct (Hbody i s0 Hi) as [s1 Hs1]. by exists s1.
Qed.

(** ** Cells of a square canvas *)

Lemma idx_Ok {A} (l : list A) (i : Z) :
  0 ≤ i < Z.of_nat (length l) → ∃ a, idx l i = Ok a ∧ l !! Z.to_nat i = Some a.
Proof.
  intros Hi. unfold idx. destruct (i <? 0) eqn:E; [lia|].
  destruct (l !! Z.to_nat i) as [a|] eqn:El; [by exists a|].
  apply lookup_ge_None in El. lia.
Qed.

Lemma upd_Ok {A} (l : list A) (i : Z) (v : A) :
  0 ≤ i < Z.of_nat (length l) → upd l i v = Ok (<[Z.to_nat i := v]> l).
Proof.
  intros Hi. unfold upd.
  destruct ((0 <=? i) && (i <? Z.of_nat (length l))) eqn:E; [done|lia].
Qed.

Lemma shape_row N cv (r : Z) row :
  shape N cv → cv !! Z.to_nat r = Some row → length row = N.
Proof.
  intros [_ Hrows] Hr. rewrite Forall_forall in Hrows.
  apply Hrows. by eapply list_elem_of_lookup_2.
Qed.

Lemma getCell_Ok N cv (r c : Z) :
  shape N cv → 0 ≤ r < Z.of_nat N → 0 ≤ c < Z.of_nat N →
  ∃ cell, getCell cv r c = Ok cell.
Proof.
  intros Hsh Hr Hc. unfold getCell.
  destruct (idx_Ok cv r) as (row & -> & Hrow); [destruct Hsh as [-> _]; lia|].
  change (Ok row ≫= ?f) with (f row); cbv beta.
  pose proof (shape_row _ _ _ _ Hsh Hrow) as Hl.
  destruct (idx_Ok row c) as (cell & -> & _); [lia|]. by exists cell.
Qed.

Lemma putCell_Ok N cv (r c : Z) (cell : Cell) :
  shape N cv → 0 ≤ r < Z.of_nat N → 0 ≤ c < Z.of_nat N →
  ∃ cv', putCell cv r c cell = Ok cv' ∧ shape N cv'.
Proof.
  intros Hsh Hr Hc. unfold putCell.
  destruct (idx_Ok cv r) as (row & -> & Hrow); [destruct Hsh as [-> _]; lia|].
  change (Ok row ≫= ?f) with (f row); cbv beta.
  pose proof (shape_row _ _ _ _ Hsh Hrow) as Hl.
  rewrite upd_Ok by lia. change (Ok ?x ≫= ?f) with (f x); cbv beta.
  destruct Hsh as [Hlen Hrows]. rewrite upd_Ok by lia.
  eexists. split; [done|]. split; [by rewrite length_insert|].
  apply Forall_insert; [done|]. by rewrite length_insert.
Qed.

Lemma setCell_Ok N cv (r c : Z) (f : Cell → Cell) :
  shape N cv → 0 ≤ r < Z.of_nat N → 0 ≤ c < Z.of_nat N →
  ∃ cv', setCell cv r c f = Ok cv' ∧ shape N cv'.
Proof.
  intros Hsh Hr Hc. unfold setCell.
  destruct (idx_Ok cv r) as (row & -> & Hrow); [destruct Hsh as [-> _]; lia|].
  change (Ok row ≫= ?g) with (g row); cbv beta.
  pose proof (shape_row _ _ _ _ Hsh Hrow) as Hl.
  destruct (idx_Ok row c) as (cell & -> & _); [lia|].
  change (Ok cell ≫= ?g) with (g cell); cbv beta.
  rewrite upd_Ok by lia. change (Ok ?x ≫= ?g) with (g x); cbv beta.
  destruct Hsh as [Hlen Hrows]. rewrite upd_Ok by lia.
  eexists. split; [done|]. split; [by rewrite length_insert|].
  apply Forall_insert; [done|]. by rewrite length_insert.
Qed.

Lemma newCanvas_Ok (N : nat) :
  ∃ cv, newCanvas (Z.of_nat N) = Ok cv ∧ shape N cv.
Proof.
  unfold newCanvas. destruct (Z.of_nat N <? 0) eqn:E; [apply Z.ltb_lt in E; lia|].
  rewrite Nat2Z.id. eexists. split; [done|].
  split; [by rewrite length_replicate|].
  apply Forall_replicate. by rewrite length_replicate.
Qed.

(** ** Masking and the penalties return on a square canvas *)

Lemma bind_Ok {A B} (m : res A) (f : A → res B) :
  (∃ a, m = Ok a) → (∀ a, ∃ b, f a = Ok b) → ∃ b, m ≫= f = Ok b.
Proof. intros [a ->] Hf. apply Hf. Qed.

Lemma bind_Ok_with {A B} (P : A → Prop) (Q : B → Prop) (m : res A) (f : A → res B) :
  (∃ a, m = Ok a ∧ P a) → (∀ a, P a → ∃ b, f a = Ok b ∧ Q b) →
  ∃ b, m ≫= f = Ok b ∧ Q b.
Proof. intros (a & -> & Ha) Hf. by apply Hf. Qed.

Lemma copyCanvas_Ok N cv copy :
  shape N cv → shape N copy →
  ∃ copy', copyCanvas cv copy = Ok copy' ∧ shape N copy'.
Proof.
  intros Hcv Hcopy. unfold copyCanvas.
  pose proof Hcv as [Hlen _]. rewrite Hlen.
  apply forZ_inv; [done|]. intros r cp Hr Hcp.
  apply forZ_inv; [done|]. intros c cp' Hc Hcp'.
  apply (bind_Ok_with (λ _, True)).
  - destruct (getCell_Ok N cv r c) as [cell ->]; [done|lia..|]. by eexists.
  - intros cell _. apply putCell_Ok; [done|lia..].
Qed.

Lemma maskCanvas_Ok N cv (fn : Z → Z → bool) :
  shape N cv → ∃ masked, maskCanvas cv fn = Ok masked ∧ shape N masked.
Proof.
  intros Hcv. unfold maskCanvas. pose proof Hcv as [Hlen _]. rewrite Hlen.
  apply (bind_Ok_with (shape N)); [apply newCanvas_Ok|]. intros cv0 Hcv0.
  apply (bind_Ok_with (shape N)); [by apply copyCanvas_Ok|]. intros cv1 Hcv1.
  apply forZ_inv; [done|]. intros r m Hr Hm.
  apply forZ_inv; [done|]. intros c m' Hc Hm'.
  apply (bind_Ok_with (λ _, True)).
  - destruct (getCell_Ok N m' r c) as [cell ->]; [done|lia..|]. by eexists.
  - intros cell _. destruct (data cell && fn r c); [|by exists m'].
    apply setCell_Ok; [done|lia..].
Qed.

Lemma pen1_Ok N masked : shape N masked → ∃ p, pen1 masked = Ok p.
Proof.
  intros Hsh. unfold pen1. pose proof Hsh as [Hlen _]. rewrite Hlen.
  apply forZ_Ok. intros r total Hr. apply bind_Ok.
  - apply forZ_Ok. intros c [[t cnt] prev] Hc. apply bind_Ok.
    + apply (getCell_Ok N); [done|lia..].
    + intros cell. cbv zeta. destruct (color cell =? prev); by eexists.
  - intros [[t cnt] prev]. by eexists.
Qed.

Lemma pen2_Ok N masked : shape N masked → ∃ p, pen2 masked = Ok p.
Proof.
  intros Hsh. unfold pen2. pose proof Hsh as [Hlen _]. rewrite Hlen.
  apply forZ_Ok. intros r total Hr.
  apply forZ_Ok. intros c total' Hc.
  apply bind_Ok; [apply (getCell_Ok N); [done|lia..]|]. intros c00.
  apply bind_Ok; [apply (getCell_Ok N); [done|lia..]|]. intros c01.
  apply bind_Ok; [apply (getCell_Ok N); [done|lia..]|]. intros c10.
  apply bind_Ok; [apply (getCell_Ok N); [done|lia..]|]. intros c11.
  by eexists.
Qed.

Lemma substringOccurrences_Ok (s sub : string) :
  ∃ n, substringOccurrences s sub = Ok n.
Proof.
  unfold substringOccurrences. apply forZ_Ok. intros i total Hi.
  unfold slice. pose proof (len_nonneg sub).
  destruct ((0 <=? i) && (i <=? i + len sub) && (i + len sub <=? len s)) eqn:E; [|lia].
  by eexists.
Qed.

Lemma pen3_Ok N masked : shape N masked → ∃ p, pen3 masked = Ok p.
Proof.
  intros Hsh. unfold pen3. pose proof Hsh as [Hlen _]. rewrite Hlen.
  apply forZ_Ok. intros i total Hi. apply bind_Ok.
  - apply forZ_Ok. intros j [row col] Hj.
    apply bind_Ok; [apply (getCell_Ok N); [done|lia..]|]. intros cij.
    apply bind_Ok; [apply (getCell_Ok N); [done|lia..]|]. intros cji.
    by eexists.
  - intros [row col].
    apply bind_Ok; [by eexists|]. intros seq0.
    apply bind_Ok; [apply substringOccurrences_Ok|]. intros n0.
    apply bind_Ok; [by eexists|]. intros seq1.
    apply bind_Ok; [apply substringOccurrences_Ok|]. intros n1.
    by eexists.
Qed.

Lemma pen4_Ok N masked : shape N masked → ∃ p, pen4 masked = Ok p.
Proof.
  intros Hsh. unfold pen4. pose proof Hsh as [Hlen _]. rewrite Hlen.
  apply bind_Ok.
  - apply forZ_Ok. intros r nb Hr. apply forZ_Ok. intros c nb' Hc.
    apply bind_Ok; [apply (getCell_Ok N); [done|lia..]|]. intros cell.
    by eexists.
  - intros nb. cbv zeta. destruct (SFleb _ _); by eexists.
Qed.

Lemma penalty_Ok N masked : shape N masked → ∃ p, penalty masked = Ok p.
Proof.
  intros Hsh. unfold penalty.
  apply bind_Ok; [by apply (pen1_Ok N)|]. intros p1.
  apply bind_Ok; [by apply (pen2_Ok N)|]. intros p2.
  apply bind_Ok; [by apply (pen3_Ok N)|]. intros p3.
  apply bind_Ok; [by apply (pen4_Ok N)|]. intros p4.
  by eexists.
Qed.

(** ** The selection loop *)

Lemma forZ_fold {St A} (body : Z → St → res St) (f : St → Z * A → St)
    (xs : list A) (lo : Z) (s : St) :
  (∀ (k : nat) x s, xs !! k = Some x →
     body (lo + Z.of_nat k) s = Ok (f s (lo + Z.of_nat k, x))) →
  forZ lo (lo + Z.of_nat (length xs)) body s
  = Ok (foldl f s (zip (seqZ lo (Z.of_nat (length xs))) xs)).
Proof.
  revert lo s. induction xs as [|x xs IH]; intros lo s Hbody.
  - rewrite forZ_nil by (cbn [length]; lia). reflexivity.
  - rewrite forZ_cons by (cbn [length]; lia).
    pose proof (Hbody 0%nat x s eq_refl) as H0.
    rewrite Z.add_0_r in H0. rewrite H0.
    change (Ok ?a ≫= ?g) with (g a); cbv beta.
    cbn [length]. rewrite seqZ_cons by lia. cbn [zip zip_with foldl].
    replace (lo + Z.of_nat (S (length xs))) with (lo + 1 + Z.of_nat (length xs)) by lia.
    replace (Z.succ lo) with (lo + 1) by lia.
    replace (Z.pred (Z.of_nat (S (length xs)))) with (Z.of_nat (length xs)) by lia.
    apply IH. intros k y s' Hk.
    replace (lo + 1 + Z.of_nat k) with (lo + Z.of_nat (S k)) by lia.
    by apply Hbody.
Qed.

(** What the fold of [pick] leaves: the initial state when no candidate
    is below the initial minimum, otherwise the first candidate of least
    penalty. *)
Lemma pick_first_least (xs : list (canvas * Z)) (i0 : Z) (w : canvas) (mk mn : Z) :
  let st := foldl pick (w, mk, mn) (zip (seqZ i0 (Z.of_nat (length xs))) xs) in
  (Forall (λ x, mn ≤ x.2) xs ∧ st = (w, mk, mn))
  ∨ ∃ (k : nat) m p,
      xs !! k = Some (m, p) ∧ st = (m, i0 + Z.of_nat k, p) ∧ p < mn
      ∧ Forall (λ x, p ≤ x.2) xs
      ∧ ∀ (j : nat) x, (j < k)%nat → xs !! j = Some x → p < x.2.
Proof.
  revert i0 w mk mn. induction xs as [|[m p] xs IH]; intros i0 w mk mn.
  - left. split; [constructor|reflexivity].
  - cbn [length]. rewrite seqZ_cons by lia. cbn [zip zip_with foldl].
    replace (Z.pred (Z.of_nat (S (length xs)))) with (Z.of_nat (length xs)) by lia.
    change (pick (w, mk, mn) (i0, (m, p)))
      with (if p <? mn then (m, i0, p) else (w, mk, mn)).
    destruct (p <? mn) eqn:E.
    + destruct (IH (Z.succ i0) m i0 p) as [[Hall ->]|(k & m' & p' & Hk & -> & Hlt & Hall & Hfirst)].
      * right. exists 0%nat, m, p. split; [done|]. split; [do 2 f_equal; lia|].
        split; [lia|]. split; [constructor; [cbn; lia|done]|]. intros j x Hj. lia.
      * right. exists (S k), m', p'. split; [done|]. split; [do 2 f_equal; lia|].
        split; [lia|]. split; [constructor; [cbn; lia|done]|].
        intros [|j] x Hj Hx; [injection Hx as <-; cbn; lia|].
        apply (Hfirst j); [lia|done].
    + destruct (IH (Z.succ i0) w mk mn) as [[Hall ->]|(k & m' & p' & Hk & -> & Hlt & Hall & Hfirst)].
      * left. split; [constructor; [cbn; lia|done]|reflexivity].
      * right. exists (S k), m', p'. split; [done|]. split; [do 2 f_equal; lia|].
        split; [lia|]. split; [constructor; [cbn; lia|done]|].
        intros [|j] x Hj Hx; [injection Hx as <-; cbn; lia|].
        apply (Hfirst j); [lia|done].
Qed.

Lemma masks_length : length masks = 8%nat.
Proof. reflexivity. Qed.

Lemma dataMasking_fold (qr : QR) (ms : list canvas) (ps : list Z) :
  Forall2 (λ fn m, maskCanvas (Canvas qr) fn = Ok m) masks ms →
  Forall2 (λ m p, penalty m = Ok p) ms ps →
  dataMasking qr
  = let '(winner, mask, _) :=
      foldl pick ([], -1, MaxInt64) (zip (seqZ 0 8) (zip ms ps)) in
    Ok (set_Mask (set_Canvas qr winner) mask).
Proof.
  intros Hms Hps. unfold dataMasking.
  pose proof (Forall2_length _ _ _ Hms) as Hl1.
  pose proof (Forall2_length _ _ _ Hps) as Hl2.
  rewrite masks_length in Hl1.
  assert (Hlz : length (zip ms ps) = 8%nat) by (rewrite length_zip; lia).
  change 8 with (0 + Z.of_nat 8) at 1. rewrite <- Hlz.
  rewrite (forZ_fold _ pick (zip ms ps) 0 ([], -1, MaxInt64)).
  - rewrite Hlz. change (Z.of_nat 8) with 8.
    change (Ok ?a ≫= ?g) with (g a); cbv beta. reflexivity.
  - intros k [m p] [[w mk] mn] Hk.
    apply lookup_zip_with_Some in Hk as (m' & p' & [= <- <-] & Hm & Hp).
    destruct (Forall2_lookup_r _ _ _ _ _ Hms Hm) as (fn & Hfn & Hmask).
    pose proof (Forall2_lookup_lr _ _ _ _ _ _ Hps Hm Hp) as Hpen.
    unfold idx. destruct (0 + Z.of_nat k <? 0) eqn:E; [apply Z.ltb_lt in E; lia|].
    replace (Z.to_nat (0 + Z.of_nat k)) with k by lia. rewrite Hfn.
    change (Ok ?a ≫= ?g) with (g a); cbv beta. rewrite Hmask.
    change (Ok ?a ≫= ?g) with (g a); cbv beta. rewrite Hpen.
    change (Ok ?a ≫= ?g) with (g a); cbv beta.
    unfold pick. by destruct (p <? mn).
Qed.

(** Masks 4 and 6 tie at the least penalty; the lower index is kept. *)
Example dataMasking_small :
  let qr := set_Canvas (initQR "" 0)
              [[mkCell 1 true; mkCell 0 false]; [mkCell 0 true; mkCell 0 true]] in
  (λ fn, m ← maskCanvas (Canvas qr) fn; penalty m) <$> masks
  = [Ok 40; Ok 93; Ok 40; Ok 93; Ok 0; Ok 40; Ok 0; Ok 93]
  ∧ (q ← dataMasking qr; Ok (Mask q, render (Canvas q))) = Ok (4, ["00"; "11"]).
Proof. split; vm_compute; reflexivity. Qed.
(** * Further properties of the package

    ** Traces of loops *)

(** A loop whose state after [k] turns is [st k]. *)
Lemma forZ_steps {St} (body : Z → St → res St) (st : nat → St) (lo : Z) (n : nat) :
  (∀ k : nat, (k < n)%nat → body (lo + Z.of_nat k) (st k) = Ok (st (S k))) →
  forZ lo (lo + Z.of_nat n) body (st 0%nat) = Ok (st n).
Proof.
  revert lo st. induction n as [|n IH]; intros lo st Hbody.
  - rewrite forZ_nil by lia. reflexivity.
  - rewrite forZ_cons by lia.
    pose proof (Hbody 0%nat ltac:(lia)) as H0. rewrite Z.add_0_r in H0. rewrite H0.
    change (Ok ?a ≫= ?g) with (g a); cbv beta.
    replace (lo + Z.of_nat (S n)) with (lo + 1 + Z.of_nat n) by lia.
    apply (IH (lo + 1) (λ k, st (S k))). intros k Hk.
    replace (lo + 1 + Z.of_nat k) with (lo + Z.of_nat (S k)) by lia.
    apply Hbody. lia.
Qed.

Lemma foldl_fmap_res {A B St} (f : St → B → St) (g : A → B) (l : list A) (s : St) :
  foldl f s (g <$> l) = foldl (λ acc x, f acc (g x)) s l.
Proof. revert s. induction l as [|x l IH]; intros s; [done|]. cbn. apply IH. Qed.

(** A stepped loop is a loop over the number of its turns. *)
Lemma forZstep_forZ {St} (lo hi step : Z) (body : Z → St → res St) (s : St) :
  forZstep lo hi step body s
  = forZ 0 ((hi - lo + step - 1) `quot` step) (λ k, body (lo + step * k)) s.
Proof.
  unfold forZstep, forZ. rewrite foldl_fmap_res, Z.sub_0_r. reflexivity.
Qed.

(** A loop keeps what each of its turns keeps. *)
Lemma forZ_preserves {St} (I : St → Prop) lo hi (body : Z → St → res St) s s' :
  (∀ i s s', lo ≤ i < hi → I s → body i s = Ok s' → I s') →
  I s → forZ lo hi body s = Ok s' → I s'.
Proof.
  intros Hbody.
  remember (Z.to_nat (hi - lo)) as n eqn:Hn. revert lo s Hbody Hn.
  induction n as [|n IH]; intros lo s Hbody Hn Hs.
  - rewrite forZ_nil by lia. by intros [= <-].
  - rewrite forZ_cons by lia. intros (s1 & H1 & H2)%bind_Ok_inv.
    apply (IH (lo + 1) s1); [|lia| |done].
    + intros i t t' Hi. apply Hbody. lia.
    + apply (Hbody lo s s1); [lia|done..].
Qed.

Lemma forZ_snoc {St} lo hi (body : Z → St → res St) s :
  lo ≤ hi → forZ lo (hi + 1) body s = forZ lo hi body s ≫= body hi.
Proof.
  intros H. unfold forZ.
  replace (hi + 1 - lo) with ((hi - lo) + 1) by lia.
  rewrite seqZ_app by lia. rewrite foldl_app. cbn [seqZ foldl].
  replace (lo + (hi - lo)) with hi by lia. reflexivity.
Qed.

(** ** Strings of bits *)

Lemma joinBits_app (l k : list string) : joinBits (l ++ k) = joinBits l +:+ joinBits k.
Proof.
  induction l as [|s l IH]; [done|].
  cbn [app]. unfold joinBits in *. cbn [foldr]. rewrite IH, append_assoc. done.
Qed.

Lemma substring_0_append (a b : string) :
  String.substring 0 (String.length a) (a +:+ b) = a.
Proof.
  induction a as [|c a IH]; [by destruct b|].
  change (String c a +:+ b) with (String c (a +:+ b)). cbn. by rewrite IH.
Qed.

Lemma substring_skip (p a b : string) :
  String.substring (String.length p) (String.length a) (p +:+ (a +:+ b)) = a.
Proof.
  induction p as [|c p IH]; [exact (substring_0_append a b)|].
  change (String c p +:+ (a +:+ b)) with (String c (p +:+ (a +:+ b))). cbn. apply IH.
Qed.

Lemma len_joinBits_chunks (w : Z) (chunks : list string) :
  Forall (λ c, len c = w) chunks → len (joinBits chunks) = w * Z.of_nat (length chunks).
Proof.
  induction 1 as [|c chunks Hc _ IH]; [cbn [length]; rewrite Z.mul_0_r; reflexivity|].
  unfold joinBits in *. cbn [foldr length]. rewrite len_append, IH, Hc. lia.
Qed.

Lemma slice_chunk (chunks : list string) (k : nat) (c : string) :
  Forall (λ c, len c = 8) chunks → chunks !! k = Some c →
  slice (joinBits chunks) (8 * Z.of_nat k) (8 * Z.of_nat k + 8) = Ok c.
Proof.
  intros Hall Hk.
  pose proof (len_joinBits_chunks 8 chunks Hall) as Hlen.
  pose proof (lookup_lt_Some _ _ _ Hk) as Hlt.
  assert (Hpre : len (joinBits (take k chunks)) = 8 * Z.of_nat k).
  { rewrite (len_joinBits_chunks 8) by (by apply Forall_take).
    rewrite length_take_le; lia. }
  assert (Hc : len c = 8).
  { rewrite Forall_forall in Hall. apply Hall. by eapply list_elem_of_lookup_2. }
  assert (Hsplit : joinBits chunks
                   = joinBits (take k chunks) +:+ (c +:+ joinBits (drop (S k) chunks))).
  { transitivity (joinBits (take k chunks ++ c :: drop (S k) chunks));
      [by rewrite take_drop_middle | by rewrite joinBits_app]. }
  unfold slice. rewrite Hlen.
  destruct ((0 <=? 8 * Z.of_nat k) && (8 * Z.of_nat k <=? 8 * Z.of_nat k + 8)
            && (8 * Z.of_nat k + 8 <=? 8 * Z.of_nat (length chunks))) eqn:E; [|lia].
  f_equal. rewrite Hsplit.
  replace (Z.to_nat (8 * Z.of_nat k)) with (String.length (joinBits (take k chunks)))
    by (unfold len in Hpre; lia).
  replace (Z.to_nat (8 * Z.of_nat k + 8 - 8 * Z.of_nat k)) with (String.length c)
    by (replace (8 * Z.of_nat k + 8 - 8 * Z.of_nat k) with 8 by ring;
        unfold len in Hc; clear -Hc; lia).
  apply substring_skip.
Qed.

Lemma quot_mul_add (k n r : Z) :
  0 < k → 0 ≤ n → 0 ≤ r < k → (k * n + r) `quot` k = n.
Proof.
  intros Hk Hn Hr. rewrite Z.quot_div_nonneg by nia.
  symmetry. apply (Z.div_unique _ _ n r); lia.
Qed.

(** The bytes of a string made of chunks of eight characters. *)
Lemma encodingToByteArray_chunks (chunks : list string) :
  Forall (λ c, len c = 8) chunks →
  encodingToByteArray (joinBits chunks)
  = Ok ((λ c, toByte (ParseInt c 2)) <$> chunks).
Proof.
  intros Hall. unfold encodingToByteArray.
  rewrite (len_joinBits_chunks 8) by done.
  set (n := length chunks).
  rewrite forZstep_forZ.
  replace (8 * Z.of_nat n - 0 + 8 - 1) with (8 * Z.of_nat n + 7) by lia.
  rewrite (quot_mul_add 8 (Z.of_nat n) 7) by lia.
  rewrite <- (Z.add_0_r (8 * Z.of_nat n)) at 1.
  rewrite (quot_mul_add 8 (Z.of_nat n) 0), Nat2Z.id by lia.
  rewrite <- (Z.add_0_l (Z.of_nat n)).
  set (f := λ c, toByte (ParseInt c 2)).
  pose (st := λ k : nat, (f <$> take k chunks) ++ replicate (n - k) 0).
  replace (replicate n 0) with (st 0%nat)
    by (unfold st; rewrite Nat.sub_0_r; reflexivity).
  { rewrite (forZ_steps _ st 0 n).
    - unfold st. rewrite Nat.sub_diag, take_ge by (unfold n; lia).
      cbn [replicate]. by rewrite app_nil_r.
    - intros k Hk.
      destruct (lookup_lt_is_Some_2 chunks k ltac:(unfold n in Hk; lia)) as [c Hc].
      replace (0 + 8 * (0 + Z.of_nat k)) with (8 * Z.of_nat k) by lia.
      rewrite (slice_chunk chunks k c Hall Hc).
      change (Ok c ≫= ?g) with (g c); cbv beta.
      rewrite <- (Z.add_0_r (8 * Z.of_nat k)) at 1.
      rewrite (quot_mul_add 8 (Z.of_nat k) 0) by lia.
      unfold st.
      rewrite upd_Ok
        by (rewrite length_app, length_fmap, length_take_le, length_replicate;
            unfold n in *; lia).
      f_equal. rewrite Nat2Z.id.
      rewrite (take_S_r chunks k c Hc), fmap_app. cbn [fmap list_fmap].
      replace (n - k)%nat with (S (n - S k)) by lia. cbn [replicate].
      rewrite <- (Nat.add_0_r k) at 1.
      replace k with (length (f <$> take k chunks)) at 1
        by (rewrite length_fmap, length_take_le; unfold n in *; lia).
      rewrite insert_app_r. cbn. by rewrite <- app_assoc. }
Qed.

(** ** Binary numerals *)

Lemma ParseUint_loop_zeros (k : nat) (s : string) :
  ParseUint_loop (zeros k +:+ s) 2 0 = ParseUint_loop s 2 0.
Proof.
  induction k as [|k IH]; [done|].
  change (zeros (S k) +:+ s) with (String "0" (zeros k +:+ s)).
  cbn [ParseUint_loop]. exact IH.
Qed.

Lemma ParseUint_loop_binary (p : positive) (acc : string) (n : Z) :
  0 ≤ n → n * 2 ^ Z.of_nat (Pos.size_nat p) + Z.pos p ≤ 2 ^ 64 - 1 →
  ParseUint_loop (pos_to_binary p acc) 2 n
  = ParseUint_loop acc 2 (n * 2 ^ Z.of_nat (Pos.size_nat p) + Z.pos p).
Proof.
  revert acc. induction p as [p IH|p IH|]; intros acc Hn Hb;
    cbn [pos_to_binary Pos.size_nat] in *.
  - rewrite Nat2Z.inj_succ, Z.pow_succ_r in Hb by lia.
    rewrite IH by lia.
    change (ParseUint_loop (String "1" acc) 2 ?m)
      with (if 2 ^ 64 - 1 <? m * 2 + 1 then RangeError
            else ParseUint_loop acc 2 (m * 2 + 1)).
    destruct (2 ^ 64 - 1 <? _) eqn:E; [lia|].
    f_equal. rewrite Nat2Z.inj_succ, Z.pow_succ_r by lia. lia.
  - rewrite Nat2Z.inj_succ, Z.pow_succ_r in Hb by lia.
    rewrite IH by lia.
    change (ParseUint_loop (String "0" acc) 2 ?m)
      with (if 2 ^ 64 - 1 <? m * 2 + 0 then RangeError
            else ParseUint_loop acc 2 (m * 2 + 0)).
    destruct (2 ^ 64 - 1 <? _) eqn:E; [lia|].
    f_equal. rewrite Nat2Z.inj_succ, Z.pow_succ_r by lia. lia.
  - change (ParseUint_loop (String "1" acc) 2 n)
      with (if 2 ^ 64 - 1 <? n * 2 + 1 then RangeError
            else ParseUint_loop acc 2 (n * 2 + 1)).
    change (2 ^ Z.of_nat 1) with 2 in *.
    destruct (2 ^ 64 - 1 <? _) eqn:E; [lia|]. reflexivity.
Qed.

Lemma ParseUint_loop_FormatInt2 (n : Z) :
  0 ≤ n < 2 ^ 63 → ParseUint_loop (FormatInt2 n) 2 0 = Value n.
Proof.
  intros Hn. destruct n as [|p|p]; [done| |lia].
  cbn [FormatInt2]. rewrite ParseUint_loop_binary by lia. reflexivity.
Qed.

Lemma ParseInt_of_loop (s : string) (base n : Z) :
  s ≠ "" → ParseUint_loop s base 0 = Value n → n < 2 ^ 63 → ParseInt s base = n.
Proof.
  intros Hs Hloop Hn. destruct s as [|c s]; [done|].
  unfold ParseInt.
  destruct (bool_decide (c = "+"%char)) eqn:Eplus.
  { apply bool_decide_eq_true in Eplus. subst c. discriminate Hloop. }
  destruct (bool_decide (c = "-"%char)) eqn:Eminus.
  { apply bool_decide_eq_true in Eminus. subst c. discriminate Hloop. }
  cbn [orb]. unfold ParseUint. rewrite Hloop. cbn [negb andb].
  destruct (2 ^ 63 <=? n) eqn:E; [lia|reflexivity].
Qed.

Lemma iter_cons_zeros (n : nat) (s : string) :
  Nat.iter n (λ padded, "0" +:+ padded) s = zeros n +:+ s.
Proof.
  induction n as [|n IH]; [done|].
  change (Nat.iter (S n) (λ padded, "0" +:+ padded) s)
    with (String "0" (Nat.iter n (λ padded, "0" +:+ padded) s)).
  by rewrite IH.
Qed.

Lemma padLeft_zeros (s : string) (w : Z) :
  padLeft s w = zeros (Z.to_nat (w - len s)) +:+ s.
Proof.
  unfold padLeft. destruct (len s >=? w) eqn:E.
  - replace (Z.to_nat (w - len s)) with 0%nat by lia. reflexivity.
  - apply iter_cons_zeros.
Qed.

Lemma padRight_zeros_gen (s : string) (w : Z) :
  padRight s w = s +:+ zeros (Z.to_nat (w - len s)).
Proof.
  unfold padRight. destruct (len s >=? w) eqn:E.
  - replace (Z.to_nat (w - len s)) with 0%nat by lia. by rewrite append_nil_r.
  - apply iter_snoc_zeros.
Qed.

Lemma FormatInt2_nonempty (n : Z) : FormatInt2 n ≠ "".
Proof.
  destruct n as [|p|p]; [done| |done].
  cbn [FormatInt2]. intros H. apply (f_equal String.length) in H.
  rewrite pos_to_binary_length in H. destruct p; cbn in H; lia.
Qed.

Lemma append_nonempty_r (s t : string) : t ≠ "" → s +:+ t ≠ "".
Proof. destruct s; [done|]. intros _. discriminate. Qed.

Lemma ParseInt_padLeft_FormatInt2 (n w : Z) :
  0 ≤ n < 2 ^ 63 → ParseInt (padLeft (FormatInt2 n) w) 2 = n.
Proof.
  intros Hn. rewrite padLeft_zeros. apply ParseInt_of_loop; [| |lia].
  - apply append_nonempty_r, FormatInt2_nonempty.
  - rewrite ParseUint_loop_zeros. by apply ParseUint_loop_FormatInt2.
Qed.

Lemma len_padLeft (s : string) (w : Z) : len (padLeft s w) = Z.max (len s) w.
Proof.
  rewrite padLeft_zeros, len_append, len_zeros. pose proof (len_nonneg s). lia.
Qed.

Lemma len_padRight (s : string) (w : Z) : len (padRight s w) = Z.max (len s) w.
Proof.
  rewrite padRight_zeros_gen, len_append, len_zeros. pose proof (len_nonneg s). lia.
Qed.

Lemma len_byte8 (b : Z) : 0 ≤ b < 256 → len (byte8 b) = 8.
Proof.
  intros Hb. unfold byte8. rewrite len_padLeft.
  pose proof (FormatInt2_length b 8 ltac:(change (2 ^ Z.of_nat 8) with 256; lia) ltac:(lia)).
  lia.
Qed.

Lemma foldl_append_joinBits {A} (g : A → string) (l : list A) (s : string) :
  foldl (λ e b, e +:+ g b) s l = s +:+ joinBits (g <$> l).
Proof.
  revert s. induction l as [|x l IH]; intros s.
  - cbn. by rewrite append_nil_r.
  - cbn [foldl fmap list_fmap]. rewrite IH.
    change (joinBits (g x :: ?t)) with (g x +:+ joinBits t). by rewrite append_assoc.
Qed.

Lemma byteArrayToEncoding_joinBits (array : list Z) :
  byteArrayToEncoding array = joinBits (byte8 <$> array).
Proof. unfold byteArrayToEncoding. by rewrite (foldl_append_joinBits byte8). Qed.

(** X1.  Writing a byte array as a bit string and reading the bit string
    back gives the array again: [encodingToByteArray] undoes
    [byteArrayToEncoding] on every array of bytes, and does not panic. *)
Theorem bytes_roundtrip (array : list Z) :
  Forall (λ b, 0 ≤ b < 256) array →
  encodingToByteArray (byteArrayToEncoding array) = Ok array.
Proof.
  intros Hall. rewrite byteArrayToEncoding_joinBits.
  rewrite encodingToByteArray_chunks.
  - f_equal. rewrite <- list_fmap_compose.
    rewrite <- (list_fmap_id array) at 2.
    apply Forall_fmap_ext_1. eapply Forall_impl; [exact Hall|].
    intros b Hb. cbv beta in Hb. cbn. unfold byte8.
    rewrite ParseInt_padLeft_FormatInt2 by (change (2 ^ 63) with 9223372036854775808; lia).
    unfold toByte. apply Z.mod_small. lia.
  - apply Forall_fmap. eapply Forall_impl; [exact Hall|].
    intros b Hb. cbv beta in Hb. by apply len_byte8.
Qed.

Lemma bytes_roundtrip_witness :
  encodingToByteArray (byteArrayToEncoding [65; 0; 255]) = Ok [65; 0; 255].
Proof.
  apply (bytes_roundtrip [65; 0; 255]).
  repeat (constructor; [cbv beta; lia|]). constructor.
Defined.

Lemma string_split (k : nat) (s : string) :
  (k ≤ String.length s)%nat →
  ∃ a b, s = a +:+ b ∧ String.length a = k.
Proof.
  revert s. induction k as [|k IH]; intros s Hk.
  - by exists "", s.
  - destruct s as [|c s]; [cbn in Hk; lia|].
    destruct (IH s ltac:(cbn in Hk; lia)) as (a & b & -> & Ha).
    exists (String c a), b. split; [done|]. cbn. by rewrite Ha.
Qed.

Lemma allBits_append (a b : string) :
  allBits (a +:+ b) = allBits a && allBits b.
Proof.
  induction a as [|c a IH]; [done|].
  change (String c a +:+ b) with (String c (a +:+ b)). cbn [allBits].
  by rewrite IH, andb_assoc.
Qed.

(** A string whose length is a multiple of eight is a sequence of chunks
    of eight characters. *)
Lemma chunks_exist (n : nat) (s : string) :
  len s = 8 * Z.of_nat n →
  ∃ chunks, s = joinBits chunks ∧ length chunks = n
            ∧ Forall (λ c, len c = 8) chunks
            ∧ (allBits s = true → Forall (λ c, allBits c = true) chunks).
Proof.
  revert s. induction n as [|n IH]; intros s Hs.
  - exists []. destruct s; [|unfold len in Hs; cbn in Hs; lia].
    repeat split; constructor.
  - destruct (string_split 8 s) as (a & b & -> & Ha); [unfold len in Hs; lia|].
    rewrite len_append in Hs.
    destruct (IH b) as (chunks & -> & Hn & Hall & Hbits); [unfold len in *; lia|].
    exists (a :: chunks). split; [done|]. split; [cbn; lia|]. split.
    + constructor; [unfold len; lia|done].
    + rewrite allBits_append. intros [H1 H2]%andb_true_iff.
      constructor; [done|by apply Hbits].
Qed.

Lemma bits8_roundtrip (c : string) :
  len c = 8 → allBits c = true → byte8 (toByte (ParseInt c 2)) = c.
Proof.
  intros Hlen Hbits.
  do 8 (destruct c as [|? c]; [discriminate Hlen|]).
  destruct c; [|unfold len in Hlen; cbn in Hlen; lia].
  cbn [allBits] in Hbits. unfold isBit in Hbits.
  repeat match goal with
         | H : _ && _ = true |- _ => apply andb_true_iff in H; destruct H
         | H : _ || _ = true |- _ => apply orb_true_iff in H; destruct H
         | H : bool_decide _ = true |- _ => apply bool_decide_eq_true in H; subst
         end; reflexivity.
Qed.

Lemma toByte_range (b : Z) : 0 ≤ toByte b < 256.
Proof. unfold toByte. apply Z.mod_pos_bound. lia. Qed.

(** The conversion succeeds on every string whose length is a multiple
    of 8, whatever its characters. *)
Lemma encodingToByteArray_multiple (encoding : string) :
  len encoding `mod` 8 = 0 →
  ∃ array, encodingToByteArray encoding = Ok array
           ∧ Z.of_nat (length array) = len encoding / 8
           ∧ Forall (λ b, 0 ≤ b < 256) array.
Proof.
  intros Hmod.
  destruct (chunks_exist (Z.to_nat (len encoding / 8)) encoding)
    as (chunks & -> & Hn & Hall & _).
  { pose proof (len_nonneg encoding).
    rewrite Z2Nat.id by (apply Z.div_pos; lia).
    rewrite (Z.div_mod (len encoding) 8) at 1 by lia. lia. }
  eexists. split; [by apply encodingToByteArray_chunks|]. split.
  - rewrite length_fmap, Hn, Z2Nat.id; [done|].
    apply Z.div_pos; [apply len_nonneg|lia].
  - apply Forall_fmap, Forall_forall. intros c _. apply toByte_range.
Qed.

(** X2.  Reading a bit string of whole bytes as a byte array and writing
    the array back gives the bit string again: [byteArrayToEncoding]
    undoes [encodingToByteArray] on every string of the characters 0 and 1
    whose length is a multiple of 8. *)
Theorem bits_roundtrip (encoding : string) :
  allBits encoding = true → len encoding `mod` 8 = 0 →
  ∃ array, encodingToByteArray encoding = Ok array
           ∧ byteArrayToEncoding array = encoding.
Proof.
  intros Hbits Hmod.
  destruct (chunks_exist (Z.to_nat (len encoding / 8)) encoding)
    as (chunks & -> & Hn & Hall & Hb).
  { pose proof (len_nonneg encoding).
    rewrite Z2Nat.id by (apply Z.div_pos; lia).
    rewrite (Z.div_mod (len encoding) 8) at 1 by lia. lia. }
  specialize (Hb Hbits).
  eexists. split; [by apply encodingToByteArray_chunks|].
  rewrite byteArrayToEncoding_joinBits, <- list_fmap_compose. f_equal.
  rewrite <- (list_fmap_id chunks) at 2.
  apply Forall_fmap_ext_1.
  rewrite Forall_forall in *. intros c Hc. cbn.
  apply bits8_roundtrip; [by apply Hall|by apply Hb].
Qed.

Lemma bits_roundtrip_witness :
  ∃ array, encodingToByteArray "0000001011111111" = Ok array
           ∧ byteArrayToEncoding array = "0000001011111111".
Proof. apply (bits_roundtrip "0000001011111111"); reflexivity. Defined.

(** The conversion panics on every other string: the slice of the last
    turn of the loop ends past the string. *)
Lemma encodingToByteArray_partial (encoding : string) :
  len encoding `mod` 8 ≠ 0 → encodingToByteArray encoding = Panic.
Proof.
  intros Hmod. unfold encodingToByteArray.
  pose proof (len_nonneg encoding) as Hlen.
  pose proof (Z.div_mod (len encoding) 8 ltac:(lia)) as Hdm.
  pose proof (Z.mod_pos_bound (len encoding) 8 ltac:(lia)) as Hr.
  set (n := len encoding / 8) in *. set (r := len encoding `mod` 8) in *.
  assert (Hn : 0 ≤ n) by (apply Z.div_pos; lia).
  rewrite forZstep_forZ.
  replace (len encoding - 0 + 8 - 1) with (8 * (n + 1) + (r - 1)) by lia.
  rewrite (quot_mul_add 8 (n + 1) (r - 1)) by lia.
  replace (len encoding `quot` 8) with n
    by (rewrite Hdm; symmetry; apply quot_mul_add; lia).
  rewrite forZ_snoc by lia.
  destruct (forZ_inv (λ a : list Z, length a = Z.to_nat n) 0 n
              (λ k array, chunk ← slice encoding (0 + 8 * k) (0 + 8 * k + 8);
                          upd array ((0 + 8 * k) `quot` 8) (toByte (ParseInt chunk 2)))
              (replicate (Z.to_nat n) 0)) as (a & -> & Ha).
  - by rewrite length_replicate.
  - intros k a Hk Ha.
    unfold slice.
    destruct ((0 <=? 0 + 8 * k) && (0 + 8 * k <=? 0 + 8 * k + 8)
              && (0 + 8 * k + 8 <=? len encoding)) eqn:E; [|lia].
    change (Ok ?x ≫= ?g) with (g x); cbv beta.
    replace (0 + 8 * k) with (8 * k + 0) by lia.
    rewrite (quot_mul_add 8 k 0) by lia.
    rewrite upd_Ok by lia. eexists. split; [done|]. by rewrite length_insert.
  - change (Ok a ≫= ?g) with (g a); cbv beta.
    unfold slice.
    destruct ((0 <=? 0 + 8 * n) && (0 + 8 * n <=? 0 + 8 * n + 8)
              && (0 + 8 * n + 8 <=? len encoding)) eqn:E; [lia|reflexivity].
Qed.

(** X3.  [encodingToByteArray] returns exactly on the strings whose length
    is a multiple of 8, whatever their characters, and then returns one
    byte for every eight characters; on every other string it panics. *)
Theorem encodingToByteArray_outcome (encoding : string) :
  match encodingToByteArray encoding with
  | Ok array => len encoding `mod` 8 = 0
                ∧ Z.of_nat (length array) = len encoding / 8
                ∧ Forall (λ b, 0 ≤ b < 256) array
  | Panic => len encoding `mod` 8 ≠ 0
  | OutOfFuel => False
  end.
Proof.
  destruct (decide (len encoding `mod` 8 = 0)) as [H|H].
  - destruct (encodingToByteArray_multiple encoding H) as (array & -> & Hl & Hr).
    done.
  - by rewrite encodingToByteArray_partial.
Qed.
(** ** Padding and the character count *)

(** X4.  [padLeft] and [padRight] add zeros and nothing else: the result
    is the input with [final - len(binary)] characters 0 before it,
    respectively after it (none when the input is already that long), so
    its length is the larger of the two lengths and the input is never
    cut. *)
Theorem pad_zeros (binary : string) (final : Z) :
  padLeft binary final = zeros (Z.to_nat (final - len binary)) +:+ binary
  ∧ padRight binary final = binary +:+ zeros (Z.to_nat (final - len binary))
  ∧ len (padLeft binary final) = Z.max (len binary) final
  ∧ len (padRight binary final) = Z.max (len binary) final.
Proof.
  split; [apply padLeft_zeros|]. split; [apply padRight_zeros_gen|].
  split; [apply len_padLeft|apply len_padRight].
Qed.

Lemma FormatInt2_width (v w : Z) :
  0 ≤ v < 2 ^ w → 1 ≤ w → len (padLeft (FormatInt2 v) w) = w.
Proof.
  intros Hv Hw. rewrite len_padLeft.
  pose proof (FormatInt2_length v (Z.to_nat w)) as H.
  rewrite Z2Nat.id in H by lia. specialize (H Hv ltac:(lia)). lia.
Qed.

Lemma indCount_padLeft (length mode version : Z) :
  1 ≤ version ≤ 40 →
  indCount length mode version
  = padLeft (FormatInt2 length) (countWidth mode version).
Proof.
  intros Hv. unfold indCount, countWidth.
  destruct (Z.leb_spec 1 version); [|lia].
  destruct (mode =? numeric), (mode =? alpha);
    (destruct (Z.leb_spec version 9); cbn [andb]; [done|];
     destruct (Z.leb_spec 10 version); [|lia];
     destruct (Z.leb_spec version 26); cbn [andb]; done).
Qed.

Lemma countWidth_range (mode version : Z) : 8 ≤ countWidth mode version ≤ 16.
Proof.
  unfold countWidth. repeat destruct (_ <=? _); repeat destruct (_ =? _); lia.
Qed.

Lemma len_indCount (length mode version : Z) :
  1 ≤ version ≤ 40 → 0 ≤ length < 2 ^ countWidth mode version →
  len (indCount length mode version) = countWidth mode version.
Proof.
  intros Hv Hl. pose proof (countWidth_range mode version).
  rewrite indCount_padLeft by done. apply FormatInt2_width; lia.
Qed.

(** X5.  For a version from 1 to 40 and a length that fits the width the
    comment of [indCount] gives for the mode and the version, the
    character count has exactly that width, and read back as a binary
    numeral it is the length. *)
Theorem indCount_width_value (length mode version : Z) :
  1 ≤ version ≤ 40 → 0 ≤ length < 2 ^ countWidth mode version →
  len (indCount length mode version) = countWidth mode version
  ∧ ParseInt (indCount length mode version) 2 = length.
Proof.
  intros Hv Hl. split; [by apply len_indCount|].
  pose proof (countWidth_range mode version) as Hw.
  rewrite indCount_padLeft by done.
  apply ParseInt_padLeft_FormatInt2.
  split; [lia|]. eapply Z.lt_le_trans; [apply Hl|].
  apply Z.pow_le_mono_r; lia.
Qed.

Lemma indCount_width_value_witness :
  len (indCount 11 alpha 1) = countWidth alpha 1
  ∧ ParseInt (indCount 11 alpha 1) 2 = 11.
Proof.
  apply (indCount_width_value 11 alpha 1);
    [lia | change (2 ^ countWidth alpha 1) with 512; lia].
Defined.

(** ** encAlpha *)

Lemma alphaTable_at_range (r : Z) : 0 ≤ alphaTable_at r ≤ 44.
Proof.
  unfold alphaTable_at. destruct (alphaTable !! r) as [v|] eqn:E; [|cbn; lia].
  cbn [default]. unfold alphaTable in E. apply elem_of_list_to_map_2 in E.
  match type of E with
  | _ ∈ ?l => assert (Hall : Forall (λ kv : Z * Z, 0 ≤ kv.2 ≤ 44) l)
  end.
  { repeat (constructor; [cbn; lia|]). constructor. }
  rewrite Forall_forall in Hall. exact (Hall _ E).
Qed.

Lemma string_ind2 (P : string → Prop) :
  P "" → (∀ c, P (String c "")) →
  (∀ c1 c2 rest, P rest → P (String c1 (String c2 rest))) →
  ∀ s, P s.
Proof.
  intros H0 H1 H2.
  fix IH 1. intros [|c1 [|c2 rest]]; [apply H0 | apply H1 | apply H2, IH].
Qed.

Lemma len_encAlpha (data : string) :
  len (encAlpha data) = 11 * (len data / 2) + 6 * (len data mod 2).
Proof.
  induction data as [|c|c1 c2 rest IH] using string_ind2.
  - reflexivity.
  - cbn [encAlpha]. rewrite FormatInt2_width; [reflexivity| |lia].
    pose proof (alphaTable_at_range (byteOf c)). change (2 ^ 6) with 64. lia.
  - cbn [encAlpha]. rewrite len_append, IH, FormatInt2_width; [| |lia].
    + unfold len. cbn [String.length]. rewrite !Nat2Z.inj_succ.
      replace (Z.succ (Z.succ (Z.of_nat (String.length rest))))
        with (Z.of_nat (String.length rest) + 1 * 2) by lia.
      rewrite Z.div_add, Z.mod_add by lia. lia.
    + pose proof (alphaTable_at_range (byteOf c1)).
      pose proof (alphaTable_at_range (byteOf c2)). change (2 ^ 11) with 2048. lia.
Qed.

Lemma allBits_zeros (k : nat) : allBits (zeros k) = true.
Proof. induction k as [|k IH]; [done|]. exact IH. Qed.

Lemma allBits_pos_to_binary (p : positive) (acc : string) :
  allBits (pos_to_binary p acc) = allBits acc.
Proof.
  revert acc. induction p as [p IH|p IH|]; intros acc; cbn [pos_to_binary];
    [by rewrite IH|by rewrite IH|done].
Qed.

Lemma allBits_padLeft_FormatInt2 (v w : Z) :
  0 ≤ v → allBits (padLeft (FormatInt2 v) w) = true.
Proof.
  intros Hv. rewrite padLeft_zeros, allBits_append, allBits_zeros.
  destruct v as [|p|p]; [done| |lia]. cbn [FormatInt2 andb].
  by rewrite allBits_pos_to_binary.
Qed.

(** X6.  Whatever the characters of the input, [encAlpha] gives a string
    of the characters 0 and 1 with eleven of them for every pair of input
    characters and six for a last single one: a character that is not in
    [alphaTable] counts as 0, and no group is ever wider than its
    padding. *)
Theorem encAlpha_bits (data : string) :
  allBits (encAlpha data) = true
  ∧ len (encAlpha data) = 11 * (len data / 2) + 6 * (len data mod 2).
Proof.
  split; [|apply len_encAlpha].
  induction data as [|c|c1 c2 rest IH] using string_ind2; [done| |].
  - cbn [encAlpha]. apply allBits_padLeft_FormatInt2.
    pose proof (alphaTable_at_range (byteOf c)). lia.
  - cbn [encAlpha]. rewrite allBits_append, IH, allBits_padLeft_FormatInt2; [done|].
    pose proof (alphaTable_at_range (byteOf c1)).
    pose proof (alphaTable_at_range (byteOf c2)). lia.
Qed.

(** ** encBytes *)

Lemma runes_ASCII (data : string) :
  isASCII data = true → runes data = byteOf <$> String.list_ascii_of_string data.
Proof.
  unfold isASCII. induction data as [|c s IH]; [done|].
  cbn [String.list_ascii_of_string forallb runes fmap list_fmap].
  intros [Hc Hs]%andb_true_iff. rewrite Hc, IH by done. reflexivity.
Qed.

Lemma byteOf_range (c : ascii) : 0 ≤ byteOf c < 256.
Proof.
  unfold byteOf. pose proof (N_ascii_bounded c). lia.
Qed.

Lemma encBytes_joinBits (data : string) :
  encBytes data = joinBits (byte8 <$> runes data).
Proof. unfold encBytes. by rewrite (foldl_append_joinBits byte8). Qed.

Lemma length_list_ascii (s : string) :
  length (String.list_ascii_of_string s) = String.length s.
Proof. induction s as [|c s IH]; [done|]. cbn. by rewrite IH. Qed.

Lemma len_encBytes_ASCII (data : string) :
  isASCII data = true → len (encBytes data) = 8 * len data.
Proof.
  intros Ha. rewrite encBytes_joinBits, runes_ASCII by done.
  rewrite (len_joinBits_chunks 8).
  - rewrite !length_fmap, length_list_ascii. reflexivity.
  - apply Forall_fmap, Forall_fmap, Forall_forall. intros c _. cbn.
    apply len_byte8, byteOf_range.
Qed.

(** X7.  On an input of ASCII characters [encBytes] gives the bit string
    of the bytes of the input, eight bits for each: the same string as
    [byteArrayToEncoding] gives for the bytes. *)
Theorem encBytes_ASCII (data : string) :
  isASCII data = true →
  encBytes data = byteArrayToEncoding (byteOf <$> String.list_ascii_of_string data)
  ∧ len (encBytes data) = 8 * len data.
Proof.
  intros Ha. split; [|by apply len_encBytes_ASCII].
  by rewrite encBytes_joinBits, byteArrayToEncoding_joinBits, runes_ASCII.
Qed.

Lemma encBytes_ASCII_witness :
  encBytes "Hello" = byteArrayToEncoding (byteOf <$> String.list_ascii_of_string "Hello")
  ∧ len (encBytes "Hello") = 8 * len "Hello".
Proof. apply (encBytes_ASCII "Hello"). reflexivity. Defined.

Lemma digitVal_nonneg (c : ascii) (d : Z) : digitVal c = Some d → 0 ≤ d.
Proof.
  unfold digitVal. intros H.
  destruct ((48 <=? byteOf c) && (byteOf c <=? 57)) eqn:E1; [injection H as <-; lia|].
  destruct ((97 <=? byteOf c) && (byteOf c <=? 122)) eqn:E2; [injection H as <-; lia|].
  destruct ((65 <=? byteOf c) && (byteOf c <=? 90)) eqn:E3; [injection H as <-; lia|].
  discriminate.
Qed.

(** The decimal digit loop on a short string: no range error, and a value
    below the power of ten of the length. *)
Lemma ParseUint_loop_bound (s : string) (n : Z) :
  0 ≤ n → (n + 1) * 10 ^ Z.of_nat (String.length s) ≤ 2 ^ 64 →
  match ParseUint_loop s 10 n with
  | Value v => n * 10 ^ Z.of_nat (String.length s) ≤ v
               < (n + 1) * 10 ^ Z.of_nat (String.length s)
  | SyntaxError => True
  | RangeError => False
  end.
Proof.
  revert n. induction s as [|c s IH]; intros n Hn Hb.
  - cbn in *. lia.
  - cbn [String.length] in *. rewrite Nat2Z.inj_succ, Z.pow_succ_r in * by lia.
    cbn [ParseUint_loop].
    destruct (digitVal c) as [d|] eqn:Ed; [|done].
    pose proof (digitVal_nonneg c d Ed) as Hd.
    destruct (10 <=? d) eqn:E1; [done|].
    assert (Hp : 0 < 10 ^ Z.of_nat (String.length s)) by (apply Z.pow_pos_nonneg; lia).
    assert (Hlt : n * 10 + d + 1 ≤ (n + 1) * 10) by lia.
    assert (Hb' : (n * 10 + d + 1) * 10 ^ Z.of_nat (String.length s) ≤ 2 ^ 64) by nia.
    destruct (2 ^ 64 - 1 <? n * 10 + d) eqn:E2; [nia|].
    specialize (IH (n * 10 + d) ltac:(lia) Hb').
    destruct (ParseUint_loop s 10 (n * 10 + d)); [done|done|]. nia.
Qed.

Lemma ParseUint_bound (s : string) :
  (String.length s ≤ 3)%nat →
  match ParseUint s 10 with
  | Value v => 0 ≤ v < 10 ^ Z.of_nat (String.length s)
  | SyntaxError => True
  | RangeError => False
  end.
Proof.
  intros Hl. unfold ParseUint. destruct s as [|c s]; [done|].
  assert (Hb : (0 + 1) * 10 ^ Z.of_nat (String.length (String c s)) ≤ 2 ^ 64).
  { transitivity (1 * 10 ^ 3); [|lia].
    apply Z.mul_le_mono_nonneg_l; [lia|]. apply Z.pow_le_mono_r; lia. }
  pose proof (ParseUint_loop_bound (String c s) 0 ltac:(lia) Hb) as H.
  destruct (ParseUint_loop (String c s) 10 0); [done|done|]. lia.
Qed.

(** [ParseInt] on a string of at most three characters, whatever they
    are: below the power of ten of the length, and above minus the power of
    ten of the length less one. *)
Lemma ParseInt_bound (s : string) :
  (1 ≤ String.length s ≤ 3)%nat →
  - 10 ^ (Z.of_nat (String.length s) - 1) < ParseInt s 10
  < 10 ^ Z.of_nat (String.length s).
Proof.
  intros Hl. destruct s as [|c s]; [cbn in Hl; lia|].
  assert (Hp1 : 0 < 10 ^ (Z.of_nat (String.length (String c s)) - 1))
    by (apply Z.pow_pos_nonneg; lia).
  assert (Hp2 : 0 < 10 ^ Z.of_nat (String.length (String c s)))
    by (apply Z.pow_pos_nonneg; lia).
  assert (Hs : Z.of_nat (String.length (String c s)) - 1 = Z.of_nat (String.length s))
    by (cbn [String.length]; lia).
  assert (Hmono : 10 ^ Z.of_nat (String.length s)
                  ≤ 10 ^ Z.of_nat (String.length (String c s)))
    by (apply Z.pow_le_mono_r; cbn [String.length]; lia).
  unfold ParseInt.
  destruct (bool_decide (c = "-"%char)) eqn:Eneg;
    destruct (bool_decide (c = "+"%char)) eqn:Eplus; cbn [orb negb andb].
  - apply bool_decide_eq_true in Eneg, Eplus. congruence.
  - pose proof (ParseUint_bound s ltac:(cbn in Hl; lia)) as H.
    destruct (ParseUint s 10) as [| |v]; [lia|done|].
    rewrite Hs. destruct (2 ^ 63 <? v) eqn:E; [|lia].
    assert (10 ^ Z.of_nat (String.length s) ≤ 10 ^ 3)
      by (apply Z.pow_le_mono_r; cbn in Hl; lia). lia.
  - pose proof (ParseUint_bound s ltac:(cbn in Hl; lia)) as H.
    destruct (ParseUint s 10) as [| |v]; [lia|done|].
    assert (10 ^ Z.of_nat (String.length s) ≤ 10 ^ 3)
      by (apply Z.pow_le_mono_r; cbn in Hl; lia).
    destruct (2 ^ 63 <=? v) eqn:E; lia.
  - pose proof (ParseUint_bound (String c s) ltac:(lia)) as H.
    destruct (ParseUint (String c s) 10) as [| |v]; [lia|done|].
    assert (10 ^ Z.of_nat (String.length (String c s)) ≤ 10 ^ 3)
      by (apply Z.pow_le_mono_r; lia).
    destruct (2 ^ 63 <=? v) eqn:E; lia.
Qed.

Lemma len_FormatInt2_neg (p : positive) :
  len (FormatInt2 (Z.neg p)) = 1 + len (FormatInt2 (Z.pos p)).
Proof. unfold len. cbn [FormatInt2 String.length]. lia. Qed.

Lemma len_FormatInt2_bound (v : Z) (k : nat) :
  (1 ≤ k)%nat → - 2 ^ (Z.of_nat k - 1) < v < 2 ^ Z.of_nat k →
  len (FormatInt2 v) ≤ Z.of_nat k.
Proof.
  intros Hk Hv. destruct v as [|p|p].
  - unfold len; cbn; lia.
  - pose proof (FormatInt2_length (Z.pos p) k ltac:(lia) Hk). lia.
  - rewrite len_FormatInt2_neg.
    destruct (decide (k = 1%nat)) as [->|Hk1]; [cbn in Hv; lia|].
    pose proof (FormatInt2_length (Z.pos p) (k - 1)) as H.
    replace (Z.of_nat (k - 1)) with (Z.of_nat k - 1) in H by lia.
    specialize (H ltac:(lia) ltac:(lia)). lia.
Qed.

(** One group of the numeric encoder, whatever its characters. *)
Lemma stringToBinary_bound (g : string) :
  (String.length g ≤ 3)%nat →
  len (stringToBinary g)
  ≤ match String.length g with 0%nat => 0 | 1%nat => 4 | 2%nat => 7 | _ => 10 end.
Proof.
  intros Hl. unfold stringToBinary.
  destruct (len g =? 0) eqn:E.
  { apply Z.eqb_eq in E. destruct g; [reflexivity|].
    unfold len in E. cbn [String.length] in E. lia. }
  apply Z.eqb_neq in E.
  assert (Hl1 : (1 ≤ String.length g ≤ 3)%nat) by (unfold len in E; lia).
  pose proof (ParseInt_bound g Hl1) as Hb.
  destruct (String.length g) as [|[|[|[|n]]]] eqn:El;
    [exfalso; clear -Hl1; lia| | | |exfalso; clear -Hl; lia].
  - change (10 ^ (Z.of_nat 1 - 1)) with 1 in Hb. change (10 ^ Z.of_nat 1) with 10 in Hb.
    apply (len_FormatInt2_bound _ 4); [lia|].
    change (2 ^ (Z.of_nat 4 - 1)) with 8. change (2 ^ Z.of_nat 4) with 16. lia.
  - change (10 ^ (Z.of_nat 2 - 1)) with 10 in Hb. change (10 ^ Z.of_nat 2) with 100 in Hb.
    apply (len_FormatInt2_bound _ 7); [lia|].
    change (2 ^ (Z.of_nat 7 - 1)) with 64. change (2 ^ Z.of_nat 7) with 128. lia.
  - change (10 ^ (Z.of_nat 3 - 1)) with 100 in Hb. change (10 ^ Z.of_nat 3) with 1000 in Hb.
    apply (len_FormatInt2_bound _ 10); [lia|].
    change (2 ^ (Z.of_nat 10 - 1)) with 512. change (2 ^ Z.of_nat 10) with 1024. lia.
Qed.

Lemma len_encNumeric (data : string) :
  len (encNumeric data) ≤ numericBits (len data).
Proof.
  induction data as [| c | c1 c2 | c1 c2 c3 rest IH] using string_ind3.
  - vm_compute. discriminate.
  - pose proof (stringToBinary_bound (String c "") ltac:(cbn; lia)) as H.
    cbn [encNumeric]. etransitivity; [exact H|]. vm_compute. discriminate.
  - pose proof (stringToBinary_bound (String c1 (String c2 "")) ltac:(cbn; lia)) as H.
    cbn [encNumeric]. etransitivity; [exact H|]. vm_compute. discriminate.
  - pose proof (stringToBinary_bound (String c1 (String c2 (String c3 "")))
                  ltac:(cbn; lia)) as H.
    cbn [encNumeric]. rewrite len_append.
    assert (Hn : numericBits (len (String c1 (String c2 (String c3 rest))))
                 = 10 + numericBits (len rest)).
    { unfold numericBits, len. cbn [String.length]. rewrite !Nat2Z.inj_succ.
      replace (Z.succ (Z.succ (Z.succ (Z.of_nat (String.length rest)))))
        with (Z.of_nat (String.length rest) + 1 * 3) by lia.
      rewrite Z.div_add, Z.mod_add by lia. lia. }
    rewrite Hn. cbn [String.length] in H. lia.
Qed.

Lemma stringToBinary_nonempty (g : string) : g ≠ "" → 1 ≤ len (stringToBinary g).
Proof.
  intros Hg. unfold stringToBinary.
  destruct (len g =? 0) eqn:E.
  { apply Z.eqb_eq in E. destruct g; [done|].
    unfold len in E. cbn [String.length] in E. lia. }
  pose proof (FormatInt2_nonempty (ParseInt g 10)) as Hne.
  destruct (FormatInt2 (ParseInt g 10)); [done|].
  unfold len. cbn [String.length]. lia.
Qed.

(** X8.  Whatever the characters of the input, the numeric payload has at
    least one character for every group of three input characters, the
    last group of one or two included, and at most the ten, seven or four
    bits of the group: a group never overflows its width, also when it
    holds a sign or a character that is no digit. *)
Theorem encNumeric_bounds (data : string) :
  (len data + 2) / 3 ≤ len (encNumeric data) ≤ numericBits (len data).
Proof.
  split; [|apply len_encNumeric].
  induction data as [| c | c1 c2 | c1 c2 c3 rest IH] using string_ind3.
  - vm_compute. discriminate.
  - pose proof (stringToBinary_nonempty (String c "") ltac:(done)) as H.
    cbn [encNumeric]. etransitivity; [|exact H]. vm_compute. discriminate.
  - pose proof (stringToBinary_nonempty (String c1 (String c2 "")) ltac:(done)) as H.
    cbn [encNumeric]. etransitivity; [|exact H]. vm_compute. discriminate.
  - pose proof (stringToBinary_nonempty (String c1 (String c2 (String c3 "")))
                  ltac:(done)) as H.
    cbn [encNumeric]. rewrite len_append.
    assert (Hn : (len (String c1 (String c2 (String c3 rest))) + 2) / 3
                 = 1 + (len rest + 2) / 3).
    { unfold len. cbn [String.length]. rewrite !Nat2Z.inj_succ.
      replace (Z.succ (Z.succ (Z.succ (Z.of_nat (String.length rest)))) + 2)
        with (Z.of_nat (String.length rest) + 2 + 1 * 3) by lia.
      rewrite Z.div_add by lia. lia. }
    rewrite Hn. lia.
Qed.
(** ** The data codewords of a version *)

Lemma capacityFits_to_14 (m : Z) :
  forallb (capacityFits m) (seqZ 1 14) = true.
Proof.
  unfold capacityFits, capacityTable, modeBits, countWidth.
  destruct (m =? numeric); [vm_compute; reflexivity|].
  destruct (m =? alpha); vm_compute; reflexivity.
Qed.

Lemma numericBits_mono (n n' : Z) : 0 ≤ n ≤ n' → numericBits n ≤ numericBits n'.
Proof.
  intros H. unfold numericBits.
  pose proof (Z.div_mod n 3 ltac:(lia)). pose proof (Z.mod_pos_bound n 3 ltac:(lia)).
  pose proof (Z.div_mod n' 3 ltac:(lia)). pose proof (Z.mod_pos_bound n' 3 ltac:(lia)).
  destruct (n mod 3 =? 0) eqn:E1, (n mod 3 =? 1) eqn:E2,
           (n' mod 3 =? 0) eqn:E3, (n' mod 3 =? 1) eqn:E4; lia.
Qed.

Lemma modeBits_mono (m n n' : Z) : 0 ≤ n ≤ n' → modeBits m n ≤ modeBits m n'.
Proof.
  intros H. unfold modeBits.
  destruct (m =? numeric); [by apply numericBits_mono|].
  destruct (m =? alpha); [|lia].
  pose proof (Z.div_mod n 2 ltac:(lia)). pose proof (Z.mod_pos_bound n 2 ltac:(lia)).
  pose proof (Z.div_mod n' 2 ltac:(lia)). pose proof (Z.mod_pos_bound n' 2 ltac:(lia)).
  lia.
Qed.

Lemma mode_Data (qr : QR) : Data (mode qr) = Data qr.
Proof.
  unfold mode. destruct (matchNumeric _); [done|]. by destruct (matchAlpha _).
Qed.

(** The payload never exceeds the full width of its mode. *)
Lemma payload_bound (qr : QR) :
  (Mode qr ≠ numeric → Mode qr ≠ alpha → isASCII (Data qr) = true) →
  len (payloadBits qr)
  ≤ 4 + len (indCount (Length qr) (Mode qr) (Version qr))
    + modeBits (Mode qr) (len (Data qr)).
Proof.
  intros Hascii. unfold payloadBits, modeBits.
  destruct (Z.eqb_spec (Mode qr) numeric) as [E1|E1].
  { rewrite !len_append. pose proof (len_encNumeric (Data qr)).
    change (len indNumeric) with 4. lia. }
  destruct (Z.eqb_spec (Mode qr) alpha) as [E2|E2].
  { rewrite !len_append, len_encAlpha. change (len indAlpha) with 4. lia. }
  rewrite !len_append, (len_encBytes_ASCII (Data qr) (Hascii E1 E2)).
  change (len indBytes) with 4. lia.
Qed.

(** Selection of the version, from the outcome. *)
Lemma selected_inv (data : string) (qr : QR) :
  selected data = Ok qr →
  Data qr = data ∧ Length qr = len data ∧ Mode qr = detected data
  ∧ binarySearch (capacityTable (detected data)) (len data) = Ok (Version qr - 1).
Proof.
  unfold selected. rewrite version_eq, mode_Length. fold (detected data).
  cbn [Length initQR].
  intros (r & Hr & [= <-])%bind_Ok_inv.
  cbn [Data Length Mode Version set_Version].
  rewrite mode_Data, mode_Length. cbn [Data Length initQR]. fold (detected data).
  split; [reflexivity|]. split; [reflexivity|]. split; [reflexivity|].
  rewrite Hr. f_equal. lia.
Qed.

Lemma selected_fits (data : string) (qr : QR) :
  selected data = Ok qr → Version qr ≤ 40 →
  1 ≤ Version qr
  ∧ ∃ c, capacityTable (detected data) !! Z.to_nat (Version qr - 1) = Some c
         ∧ len data ≤ c.
Proof.
  intros Hsel Hv.
  destruct (decide (Exists (λ c, len data ≤ c) (capacityTable (detected data))))
    as [Hex|Hnex].
  - destruct (selected_inv data qr Hsel) as (_ & _ & _ & Hr).
    destruct (binarySearch_firstFit _ _ Hex) as (r & Hr' & Hfit).
    rewrite Hr in Hr'. injection Hr' as <-.
    apply firstFit_spec in Hfit as (Hrange & Hc & _). split; [lia|done].
  - apply not_Exists_Forall in Hnex; [|intros c; apply _].
    assert (Hall : Forall (λ c, c < len data) (capacityTable (detected data))).
    { eapply Forall_impl; [exact Hnex|]. intros c Hc. cbn in Hc. lia. }
    rewrite (version_oversize data Hall) in Hsel. injection Hsel as <-.
    cbn [Version set_Version] in Hv. lia.
Qed.

(** X9.  For every input whose version is at most 14, and which is ASCII
    when its mode is the byte mode, [encoding] returns and stores exactly
    the number of data codewords [blockInfo] gives for the version: header
    and payload never exceed them, and [terminator] fills up to them. *)
Theorem encoding_codewords (data : string) (qr : QR) :
  selected data = Ok qr → Version qr ≤ 14 →
  (Mode qr = byteMode → isASCII data = true) →
  ∃ e, encoding qr = Ok (set_Encoding qr e)
       ∧ Z.of_nat (length e) = arr (blockInfo_at (Version qr)) 0.
Proof.
  intros Hsel Hv Hascii.
  destruct (selected_fits data qr Hsel ltac:(lia)) as (Hv1 & c & Hc & Hlen).
  destruct (selected_inv data qr Hsel) as (HD & HL & HM & _).
  pose proof (capacityFits_to_14 (Mode qr)) as Hfits.
  rewrite forallb_forall in Hfits.
  specialize (Hfits (Version qr)).
  rewrite <- list_elem_of_In, elem_of_seqZ in Hfits. specialize (Hfits ltac:(lia)).
  unfold capacityFits in Hfits. rewrite HM, Hc in Hfits. rewrite <- HM in Hfits.
  apply andb_true_iff in Hfits as [Hw Hb].
  apply Z.ltb_lt in Hw. apply Z.leb_le in Hb.
  pose proof (len_nonneg data) as Hn.
  pose proof (len_indCount (Length qr) (Mode qr) (Version qr)
                ltac:(lia) ltac:(rewrite HL; lia)) as Hcw.
  assert (Hpay : len (payloadBits qr) ≤ 8 * arr (blockInfo_at (Version qr)) 0).
  { etransitivity; [apply payload_bound|].
    - intros H1 H2. rewrite HD. apply Hascii.
      rewrite HM in *. unfold detected, mode in *.
      destruct (matchNumeric _); [done|]. by destruct (matchAlpha _).
    - rewrite Hcw, HD.
      pose proof (modeBits_mono (Mode qr) (len data) c ltac:(lia)). lia. }
  rewrite encoding_eq, terminator_eq.
  pose proof (terminator_bits_length _ _ Hpay) as Htl.
  destruct (encodingToByteArray_multiple
              (terminator_bits (payloadBits qr) (arr (blockInfo_at (Version qr)) 0)))
    as (e & He & Hle & _).
  { rewrite Htl, Z.mul_comm. apply Z.mod_mul. lia. }
  exists e. rewrite He. split; [done|].
  rewrite Hle, Htl, Z.mul_comm. apply Z.div_mul. lia.
Qed.

Lemma encoding_codewords_witness :
  ∃ e, encoding (set_Version (mode (initQR "HELLO WORLD" 11)) 1)
       = Ok (set_Encoding (set_Version (mode (initQR "HELLO WORLD" 11)) 1) e)
       ∧ Z.of_nat (length e)
         = arr (blockInfo_at (Version (set_Version (mode (initQR "HELLO WORLD" 11)) 1))) 0.
Proof.
  apply (encoding_codewords "HELLO WORLD").
  - vm_compute. reflexivity.
  - vm_compute. discriminate.
  - intros _. reflexivity.
Defined.

(** ** The binary search *)

Lemma sortedb_cons (a : Z) (l : list Z) :
  sortedb (a :: l) = true → sortedb l = true ∧ Forall (λ b, a ≤ b) l.
Proof.
  revert a. induction l as [|b l IH]; intros a H; [by split|].
  cbn [sortedb] in H. apply andb_true_iff in H as [Hab Hl].
  split; [exact Hl|]. apply Z.leb_le in Hab.
  constructor; [done|]. destruct (IH b Hl) as [_ Hall].
  eapply Forall_impl; [exact Hall|]. intros c Hc. cbn in Hc. lia.
Qed.

Lemma sortedb_lookup (l : list Z) (i j : nat) (a b : Z) :
  sortedb l = true → (i ≤ j)%nat → l !! i = Some a → l !! j = Some b → a ≤ b.
Proof.
  revert i j. induction l as [|x l IH]; intros i j Hs Hij Hi Hj; [done|].
  destruct (sortedb_cons x l Hs) as [Hl Hall].
  destruct i as [|i], j as [|j]; cbn in Hi, Hj.
  - injection Hi as <-. injection Hj as <-. lia.
  - injection Hi as <-. rewrite Forall_forall in Hall.
    apply Hall. by eapply list_elem_of_lookup_2.
  - lia.
  - apply (IH i j); [done|lia|done|done].
Qed.

(** The search loop between [low] and [high]: what is below [low] is less
    than the value, what is from [high] on is not. *)
Lemma binarySearch_loop_sorted (fuel : nat) (array : list Z) (value low high : Z) :
  sortedb array = true →
  0 ≤ low ≤ high → high ≤ Z.of_nat (length array) → high - low ≤ Z.of_nat fuel →
  (∀ (j : nat) a, Z.of_nat j < low → array !! j = Some a → a < value) →
  (∀ (j : nat) a, high ≤ Z.of_nat j → array !! j = Some a → value ≤ a) →
  ∃ r, binarySearch_loop fuel array value low high = Ok r
       ∧ low ≤ r ≤ high
       ∧ (∀ (j : nat) a, Z.of_nat j < r → array !! j = Some a → a < value)
       ∧ (∀ (j : nat) a, r ≤ Z.of_nat j → array !! j = Some a → value ≤ a).
Proof.
  intros Hs. revert low high.
  induction fuel as [|fuel IH]; intros low high Hlh Hhi Hfuel Hlow Hhigh;
    cbn [binarySearch_loop].
  - replace high with low in * by lia. rewrite Z.eqb_refl.
    exists low. split; [done|]. split; [lia|]. by split.
  - destruct (Z.eqb_spec low high) as [->|Hne].
    { exists high. split; [done|]. split; [lia|]. by split. }
    assert (Hmid : low ≤ (low + high) `quot` 2 < high).
    { rewrite Z.quot_div_nonneg by lia.
      pose proof (Z.div_mod (low + high) 2 ltac:(lia)).
      pose proof (Z.mod_pos_bound (low + high) 2 ltac:(lia)). lia. }
    set (mid := (low + high) `quot` 2) in *.
    destruct (idx_Ok array mid ltac:(lia)) as (a & -> & Ha).
    change (Ok a ≫= ?g) with (g a); cbv beta.
    destruct (Z.ltb_spec a value) as [Hlt|Hge].
    + destruct (IH (mid + 1) high) as (r & Hr & Hrange & H1 & H2); [lia|lia|lia| |done|].
      * intros j b Hj Hb.
        pose proof (sortedb_lookup array j (Z.to_nat mid) b a Hs ltac:(lia) Hb Ha). lia.
      * exists r. split; [done|]. split; [lia|]. by split.
    + destruct (IH low mid) as (r & Hr & Hrange & H1 & H2); [lia|lia|lia|done| |].
      * intros j b Hj Hb.
        pose proof (sortedb_lookup array (Z.to_nat mid) j a b Hs ltac:(lia) Ha Hb). lia.
      * exists r. split; [done|]. split; [lia|]. by split.
Qed.

(** X10.  On every table of 40 entries that never decrease, [binarySearch]
    returns, and what it returns is the number of entries less than the
    value: every entry before that index is less than the value and every
    entry from it on is at least the value (40 when no entry is). *)
Theorem binarySearch_sorted (array : list Z) (value : Z) :
  length array = 40%nat → sortedb array = true →
  ∃ r, binarySearch array value = Ok r
       ∧ 0 ≤ r ≤ 40
       ∧ (∀ (j : nat) a, Z.of_nat j < r → array !! j = Some a → a < value)
       ∧ (∀ (j : nat) a, r ≤ Z.of_nat j → array !! j = Some a → value ≤ a).
Proof.
  intros Hlen Hs. unfold binarySearch. change versions with 40.
  apply binarySearch_loop_sorted; [done|lia|lia|lia| |].
  - intros j a Hj. lia.
  - intros j a Hj Ha. apply lookup_lt_Some in Ha. lia.
Qed.

Lemma binarySearch_sorted_witness :
  ∃ r, binarySearch maxCharsNumeric 100 = Ok r
       ∧ 0 ≤ r ≤ 40
       ∧ (∀ (j : nat) a, Z.of_nat j < r → maxCharsNumeric !! j = Some a → a < 100)
       ∧ (∀ (j : nat) a, r ≤ Z.of_nat j → maxCharsNumeric !! j = Some a → 100 ≤ a).
Proof. apply (binarySearch_sorted maxCharsNumeric 100); reflexivity. Defined.

Lemma binarySearch_loop_S (fuel : nat) (array : list Z) (value low high : Z) :
  binarySearch_loop (S fuel) array value low high
  = if low =? high then Ok low
    else a ← idx array ((low + high) `quot` 2);
         if a <? value
         then binarySearch_loop fuel array value ((low + high) `quot` 2 + 1) high
         else binarySearch_loop fuel array value low ((low + high) `quot` 2).
Proof. reflexivity. Qed.

(** X11.  The bounds of the search are the constant [versions], not the
    length of the table: on a table of at most 20 entries the first probe,
    at index 20, is out of range and [binarySearch] panics, whatever the
    value. *)
Theorem binarySearch_short (array : list Z) (value : Z) :
  (length array ≤ 20)%nat → binarySearch array value = Panic.
Proof.
  intros Hlen. unfold binarySearch. change versions with 40.
  change (Z.to_nat 40) with (S 39).
  rewrite binarySearch_loop_S. change (0 =? 40) with false. cbv iota.
  change ((0 + 40) `quot` 2) with 20.
  assert (Hidx : idx array 20 = Panic).
  { unfold idx. change (20 <? 0) with false. cbv iota.
    change (Z.to_nat 20) with 20%nat.
    by rewrite (proj2 (lookup_ge_None array 20)) by lia. }
  by rewrite Hidx.
Qed.

Lemma binarySearch_short_witness : binarySearch [1; 2; 3] 2 = Panic.
Proof. apply (binarySearch_short [1; 2; 3] 2). simpl. lia. Defined.

(** ** Interleaving *)

Lemma length_column (array : list Z) (start step n : Z) :
  length (column array start step n) = Z.to_nat n.
Proof. unfold column. by rewrite length_fmap, length_seqZ. Qed.

Lemma column_S (array : list Z) (start step : Z) (k : nat) :
  column array start step (Z.of_nat (S k))
  = column array start step (Z.of_nat k)
    ++ [nth (Z.to_nat (start + Z.of_nat k * step)) array 0].
Proof.
  unfold column. rewrite Nat2Z.inj_succ, <- Z.add_1_r, seqZ_app by lia.
  rewrite fmap_app. reflexivity.
Qed.

Lemma insert_fill (pre : list Z) (m : nat) (a : Z) :
  (0 < m)%nat →
  <[length pre := a]> (pre ++ replicate m 0) = (pre ++ [a]) ++ replicate (m - 1) 0.
Proof.
  intros Hm. destruct m as [|m]; [lia|]. cbn [replicate].
  rewrite <- (Nat.add_0_r (length pre)), insert_app_r. cbn.
  by rewrite Nat.sub_0_r, <- app_assoc.
Qed.

Lemma idx_nth (array : list Z) (i : Z) :
  0 ≤ i < Z.of_nat (length array) → idx array i = Ok (nth (Z.to_nat i) array 0).
Proof.
  intros Hi. destruct (idx_Ok array i Hi) as (a & -> & Ha).
  f_equal. symmetry. by apply nth_lookup_Some.
Qed.

(** The inner loop of [interleaveData]: it appends a column to what is
    written. *)
Lemma fill_column (array pre : list Z) (m : nat) (y step : Z) (n : nat) :
  (n ≤ m)%nat →
  (∀ j : nat, (j < n)%nat → 0 ≤ y + Z.of_nat j * step < Z.of_nat (length array)) →
  forZ 0 (Z.of_nat n)
    (λ j '(inter, x, y),
       a ← idx array y;
       inter ← upd inter x a;
       Ok (inter, x + 1, y + step))
    (pre ++ replicate m 0, Z.of_nat (length pre), y)
  = Ok ((pre ++ column array y step (Z.of_nat n)) ++ replicate (m - n) 0,
        Z.of_nat (length pre) + Z.of_nat n, y + Z.of_nat n * step).
Proof.
  intros Hnm Hidx.
  pose (st := λ k : nat,
          ((pre ++ column array y step (Z.of_nat k)) ++ replicate (m - k) 0,
           Z.of_nat (length pre) + Z.of_nat k, y + Z.of_nat k * step)).
  replace (pre ++ replicate m 0, Z.of_nat (length pre), y) with (st 0%nat).
  2:{ unfold st. cbn [column seqZ fmap list_fmap Z.of_nat]. 
      change (column array y step 0) with (@nil Z).
      rewrite app_nil_r, Nat.sub_0_r. f_equal; [f_equal; lia|lia]. }
  rewrite <- (Z.add_0_l (Z.of_nat n)).
  rewrite (forZ_steps _ st 0 n); [done|].
  intros k Hk. unfold st. cbv beta iota.
  rewrite idx_nth by (apply Hidx; lia).
  change (Ok ?a ≫= ?g) with (g a); cbv beta.
  rewrite upd_Ok.
  2:{ rewrite !length_app, length_column, length_replicate. lia. }
  change (Ok ?a ≫= ?g) with (g a); cbv beta.
  f_equal. f_equal; [f_equal|lia]; [|lia].
  replace (Z.to_nat (Z.of_nat (length pre) + Z.of_nat k))
    with (length (pre ++ column array y step (Z.of_nat k)))
    by (rewrite length_app, length_column; lia).
  rewrite insert_fill by lia.
  rewrite column_S, app_assoc. do 2 f_equal. lia.
Qed.

(** The inner loop of [interleaveError], the same with the indices in the
    other order. *)
Lemma fill_column_error (array pre : list Z) (m : nat) (x step : Z) (n : nat) :
  (n ≤ m)%nat →
  (∀ j : nat, (j < n)%nat → 0 ≤ x + Z.of_nat j * step < Z.of_nat (length array)) →
  forZ 0 (Z.of_nat n)
    (λ j '(inter, x, y),
       a ← idx array x;
       inter ← upd inter y a;
       Ok (inter, x + step, y + 1))
    (pre ++ replicate m 0, x, Z.of_nat (length pre))
  = Ok ((pre ++ column array x step (Z.of_nat n)) ++ replicate (m - n) 0,
        x + Z.of_nat n * step, Z.of_nat (length pre) + Z.of_nat n).
Proof.
  intros Hnm Hidx.
  pose (st := λ k : nat,
          ((pre ++ column array x step (Z.of_nat k)) ++ replicate (m - k) 0,
           x + Z.of_nat k * step, Z.of_nat (length pre) + Z.of_nat k)).
  replace (pre ++ replicate m 0, x, Z.of_nat (length pre)) with (st 0%nat).
  2:{ unfold st. change (column array x step (Z.of_nat 0)) with (@nil Z).
      rewrite app_nil_r, Nat.sub_0_r. f_equal; [f_equal; lia|lia]. }
  rewrite <- (Z.add_0_l (Z.of_nat n)).
  rewrite (forZ_steps _ st 0 n); [done|].
  intros k Hk. unfold st. cbv beta iota.
  rewrite idx_nth by (apply Hidx; lia).
  change (Ok ?a ≫= ?g) with (g a); cbv beta.
  rewrite upd_Ok.
  2:{ rewrite !length_app, length_column, length_replicate. lia. }
  change (Ok ?a ≫= ?g) with (g a); cbv beta.
  f_equal. f_equal; [f_equal|lia]; [|lia].
  replace (Z.to_nat (Z.of_nat (length pre) + Z.of_nat k))
    with (length (pre ++ column array x step (Z.of_nat k)))
    by (rewrite length_app, length_column; lia).
  rewrite insert_fill by lia.
  rewrite column_S, app_assoc. do 2 f_equal. lia.
Qed.

Lemma fill_column_at (array pre inter : list Z) (m : nat) (x y step n : Z) :
  inter = pre ++ replicate m 0 → x = Z.of_nat (length pre) →
  0 ≤ n ≤ Z.of_nat m →
  (∀ j, 0 ≤ j < n → 0 ≤ y + j * step < Z.of_nat (length array)) →
  forZ 0 n
    (λ j '(inter, x, y),
       a ← idx array y;
       inter ← upd inter x a;
       Ok (inter, x + 1, y + step))
    (inter, x, y)
  = Ok ((pre ++ column array y step n) ++ replicate (m - Z.to_nat n) 0,
        x + n, y + n * step).
Proof.
  intros -> -> Hn Hidx.
  rewrite <- (Z2Nat.id n) at 1 by lia.
  rewrite fill_column; [by rewrite Z2Nat.id by lia|lia|].
  intros j Hj. apply Hidx. lia.
Qed.

Lemma blockColumns_length (array : list Z) (b1 b2 w1 w2 : Z) :
  length (blockColumns array b1 b2 w1 w2) = Z.to_nat (Z.max w1 w2).
Proof. unfold blockColumns. by rewrite length_fmap, length_seqZ. Qed.

Lemma blockColumns_lookup (array : list Z) (b1 b2 w1 w2 : Z) (k : nat) :
  Z.of_nat k < Z.max w1 w2 →
  blockColumns array b1 b2 w1 w2 !! k
  = Some (columnAt array b1 b2 w1 w2 (Z.of_nat k)).
Proof.
  intros Hk. unfold blockColumns.
  rewrite list_lookup_fmap, lookup_seqZ_lt by lia. reflexivity.
Qed.

Lemma length_columnAt (array : list Z) (b1 b2 w1 w2 i : Z) :
  0 ≤ b1 → 0 ≤ b2 →
  Z.of_nat (length (columnAt array b1 b2 w1 w2 i))
  = (if i <? w1 then b1 else 0) + (if i <? w2 then b2 else 0).
Proof.
  intros Hb1 Hb2. unfold columnAt. rewrite length_app.
  destruct (i <? w1), (i <? w2); rewrite ?length_column; cbn [length]; lia.
Qed.

Lemma length_columns_prefix (array : list Z) (b1 b2 w1 w2 : Z) (k : nat) :
  0 ≤ b1 → 0 ≤ b2 → 0 ≤ w1 → 0 ≤ w2 →
  Z.of_nat k ≤ Z.max w1 w2 →
  Z.of_nat (length (concat (take k (blockColumns array b1 b2 w1 w2))))
  = b1 * Z.min (Z.of_nat k) w1 + b2 * Z.min (Z.of_nat k) w2.
Proof.
  intros Hb1 Hb2 Hw1 Hw2.
  induction k as [|k IH]; intros Hk.
  - rewrite take_0. cbn [concat length]. change (Z.of_nat 0) with 0.
    rewrite !Z.min_l by lia. lia.
  - rewrite (take_S_r _ k _ (blockColumns_lookup array b1 b2 w1 w2 k ltac:(lia))).
    rewrite concat_app, length_app. cbn [concat]. rewrite app_nil_r.
    rewrite Nat2Z.inj_add, IH, length_columnAt by lia.
    destruct (Z.ltb_spec (Z.of_nat k) w1), (Z.ltb_spec (Z.of_nat k) w2);
      repeat first [rewrite Z.min_l by lia | rewrite Z.min_r by lia]; lia.
Qed.

Lemma max_Zmax (a b : Z) : max a b = Z.max a b.
Proof. unfold max. destruct (a >=? b) eqn:E; lia. Qed.

Lemma make_Ok (n : nat) : make (Z.of_nat n) = Ok (replicate n 0).
Proof.
  unfold make. destruct (Z.of_nat n <? 0) eqn:E; [apply Z.ltb_lt in E; lia|].
  by rewrite Nat2Z.id.
Qed.

Lemma tuple4_eq {A B C D} (a a' : A) (b b' : B) (c c' : C) (d d' : D) :
  a = a' → b = b' → c = c' → d = d' → (a, b, c, d) = (a', b', c', d').
Proof. by intros -> -> -> ->. Qed.

Lemma interleaveData_columns (array : list Z) (b1 b2 w1 w2 : Z) :
  0 ≤ b1 → 0 ≤ b2 → 0 ≤ w1 → 0 ≤ w2 →
  Z.of_nat (length array) = b1 * w1 + b2 * w2 →
  interleaveData array b1 b2 w1 w2 = Ok (concat (blockColumns array b1 b2 w1 w2)).
Proof.
  intros Hb1 Hb2 Hw1 Hw2 HL. unfold interleaveData. rewrite make_Ok.
  change (Ok ?a ≫= ?g) with (g a); cbv beta.
  rewrite max_Zmax.
  set (cols := blockColumns array b1 b2 w1 w2).
  set (L := length array) in *.
  pose (P := λ k : nat, concat (take k cols)).
  assert (Hpre : ∀ k : nat, Z.of_nat k ≤ Z.max w1 w2 →
            Z.of_nat (length (P k))
            = b1 * Z.min (Z.of_nat k) w1 + b2 * Z.min (Z.of_nat k) w2).
  { intros k Hk. by apply length_columns_prefix. }
  assert (HS : ∀ k : nat, Z.of_nat k < Z.max w1 w2 →
            P (S k) = P k ++ columnAt array b1 b2 w1 w2 (Z.of_nat k)).
  { intros k Hk. unfold P.
    rewrite (take_S_r cols k _ (blockColumns_lookup array b1 b2 w1 w2 k Hk)).
    rewrite concat_app. cbn [concat]. by rewrite app_nil_r. }
  pose (st := λ k : nat,
          (P k ++ replicate (L - length (P k)) 0, Z.of_nat (length (P k)),
           Z.min (Z.of_nat k) w1, Z.min (Z.of_nat k) w2)).
  set (N := Z.to_nat (Z.max w1 w2)).
  replace (Z.max w1 w2) with (0 + Z.of_nat N) by lia.
  replace (replicate L 0, 0, 0, 0) with (st 0%nat).
  2:{ unfold st, P. rewrite take_0. cbn [concat length app].
      rewrite Nat.sub_0_r. change (Z.of_nat 0) with 0.
      rewrite !Z.min_l by lia. reflexivity. }
  rewrite (forZ_steps _ st 0 N).
  - unfold st. change (Ok ?a ≫= ?g) with (g a); cbv beta iota. f_equal.
    pose proof (Hpre N ltac:(lia)) as HN.
    rewrite !Z.min_r in HN by lia.
    assert (HPN : P N = concat cols).
    { unfold P. f_equal. apply take_ge. unfold cols.
      rewrite blockColumns_length. lia. }
    rewrite HPN in *.
    replace (L - length (concat cols))%nat with 0%nat by lia.
    by rewrite app_nil_r.
  - intros k Hk.
    assert (Hk' : Z.of_nat k < Z.max w1 w2) by lia.
    pose proof (Hpre k ltac:(lia)) as Hk0.
    pose proof (Hpre (S k) ltac:(lia)) as Hk1.
    pose proof (HS k Hk') as HSk.
    unfold st. cbv beta iota zeta. rewrite Z.add_0_l.
    rewrite HSk in *. unfold columnAt in *.
    rewrite length_app, length_app in Hk1.
    destruct (Z.ltb_spec (Z.of_nat k) w1) as [H1|H1];
      destruct (Z.ltb_spec (Z.of_nat k) w2) as [H2|H2]; try lia.
    + (* both groups *)
      rewrite !length_column in Hk1.
      rewrite (Z.min_l (Z.of_nat k) w1), (Z.min_l (Z.of_nat k) w2) in * by lia.
      rewrite (Z.min_l (Z.of_nat (S k)) w1), (Z.min_l (Z.of_nat (S k)) w2) in * by lia.
      destruct (Z.ltb_spec (Z.of_nat k) w1); [|lia].
      rewrite (fill_column_at array (P k) _ (L - length (P k)) _ _ w1 b1 eq_refl eq_refl);
        [|nia|intros j Hj; nia].
      change (Ok ?a ≫= ?g) with (g a); cbv beta iota.
      change (Ok ?a ≫= ?g) with (g a); cbv beta iota.
      destruct (Z.ltb_spec (Z.of_nat k) w2); [|lia].
      rewrite (fill_column_at array (P k ++ column array (Z.of_nat k) w1 b1) _
                 (L - length (P k) - Z.to_nat b1) _ _ w2 b2 eq_refl);
        [|rewrite length_app, length_column; lia|nia|intros j Hj; nia].
      change (Ok ?a ≫= ?g) with (g a); cbv beta iota.
      f_equal. apply tuple4_eq; [|rewrite !length_app, !length_column; lia|lia|lia].
      rewrite <- !app_assoc. do 3 f_equal.
      rewrite !length_app, !length_column. f_equal. lia.
    + (* group 1 only *)
      rewrite !length_column in Hk1. cbn [length] in Hk1.
      rewrite (Z.min_l (Z.of_nat k) w1), (Z.min_r (Z.of_nat k) w2) in * by lia.
      rewrite (Z.min_l (Z.of_nat (S k)) w1), (Z.min_r (Z.of_nat (S k)) w2) in * by lia.
      destruct (Z.ltb_spec (Z.of_nat k) w1); [|lia].
      rewrite (fill_column_at array (P k) _ (L - length (P k)) _ _ w1 b1 eq_refl eq_refl);
        [|nia|intros j Hj; nia].
      change (Ok ?a ≫= ?g) with (g a); cbv beta iota.
      change (Ok ?a ≫= ?g) with (g a); cbv beta iota.
      destruct (Z.ltb_spec w2 w2); [lia|].
      f_equal.
      apply tuple4_eq; [|rewrite !length_app, !length_column; cbn [length]; lia|lia|lia].
      rewrite app_nil_r. f_equal.
      rewrite !length_app, !length_column. f_equal. lia.
    + (* group 2 only *)
      rewrite !length_column in Hk1. cbn [length] in Hk1.
      rewrite (Z.min_r (Z.of_nat k) w1), (Z.min_l (Z.of_nat k) w2) in * by lia.
      rewrite (Z.min_r (Z.of_nat (S k)) w1), (Z.min_l (Z.of_nat (S k)) w2) in * by lia.
      destruct (Z.ltb_spec w1 w1); [lia|].
      change (Ok ?a ≫= ?g) with (g a); cbv beta iota.
      destruct (Z.ltb_spec (Z.of_nat k) w2); [|lia].
      rewrite (fill_column_at array (P k) _ (L - length (P k)) _ _ w2 b2 eq_refl eq_refl);
        [|nia|intros j Hj; nia].
      change (Ok ?a ≫= ?g) with (g a); cbv beta iota.
      f_equal.
      apply tuple4_eq; [|rewrite !length_app, !length_column; cbn [length]; lia|lia|lia].
      cbn [app]. f_equal.
      rewrite !length_app, !length_column. f_equal. lia.
Qed.

(** X12.  For block counts and block sizes that are not negative and an
    array that holds exactly the blocks, [interleaveData] returns, as long
    as the array, the columns of the blocks one after the other: for every
    index of a word, the words of that index of the blocks of group 1 that
    have it, then those of the blocks of group 2 that have it. *)
Theorem interleaveData_by_columns (array : list Z) (blocks1 blocks2 words1 words2 : Z) :
  0 ≤ blocks1 → 0 ≤ blocks2 → 0 ≤ words1 → 0 ≤ words2 →
  Z.of_nat (length array) = blocks1 * words1 + blocks2 * words2 →
  ∃ inter, interleaveData array blocks1 blocks2 words1 words2 = Ok inter
           ∧ inter = concat (blockColumns array blocks1 blocks2 words1 words2)
           ∧ length inter = length array.
Proof.
  intros Hb1 Hb2 Hw1 Hw2 HL. eexists. split; [by apply interleaveData_columns|].
  split; [done|].
  assert (H : Z.of_nat (length (concat (take (Z.to_nat (Z.max words1 words2))
                 (blockColumns array blocks1 blocks2 words1 words2))))
              = blocks1 * Z.min (Z.of_nat (Z.to_nat (Z.max words1 words2))) words1
                + blocks2 * Z.min (Z.of_nat (Z.to_nat (Z.max words1 words2))) words2)
    by (apply length_columns_prefix; lia).
  rewrite take_ge in H by (rewrite blockColumns_length; lia).
  rewrite !Z.min_r in H by lia. lia.
Qed.

Lemma interleaveData_by_columns_witness :
  ∃ inter, interleaveData [1; 2; 3; 4; 5; 6; 7; 8; 9; 10; 11; 12; 13; 14] 2 2 2 5
           = Ok inter
           ∧ inter = concat (blockColumns [1; 2; 3; 4; 5; 6; 7; 8; 9; 10; 11; 12; 13; 14]
                                          2 2 2 5)
           ∧ length inter = length [1; 2; 3; 4; 5; 6; 7; 8; 9; 10; 11; 12; 13; 14].
Proof.
  apply (interleaveData_by_columns [1; 2; 3; 4; 5; 6; 7; 8; 9; 10; 11; 12; 13; 14] 2 2 2 5);
    [lia|lia|lia|lia|reflexivity].
Defined.

Lemma fill_column_error_at (array pre inter : list Z) (m : nat) (x y step n : Z) :
  inter = pre ++ replicate m 0 → y = Z.of_nat (length pre) →
  0 ≤ n ≤ Z.of_nat m →
  (∀ j, 0 ≤ j < n → 0 ≤ x + j * step < Z.of_nat (length array)) →
  forZ 0 n
    (λ j '(inter, x, y),
       a ← idx array x;
       inter ← upd inter y a;
       Ok (inter, x + step, y + 1))
    (inter, x, y)
  = Ok ((pre ++ column array x step n) ++ replicate (m - Z.to_nat n) 0,
        x + n * step, y + n).
Proof.
  intros -> -> Hn Hidx.
  rewrite <- (Z2Nat.id n) at 1 by lia.
  rewrite fill_column_error; [by rewrite Z2Nat.id by lia|lia|].
  intros j Hj. apply Hidx. lia.
Qed.

Lemma columnAt_one_group (array : list Z) (b w i : Z) :
  0 ≤ i < w → columnAt array b 0 w 0 i = column array i w b.
Proof.
  intros Hi. unfold columnAt.
  destruct (Z.ltb_spec i w); [|lia]. destruct (Z.ltb_spec i 0); [lia|].
  by rewrite app_nil_r.
Qed.

Lemma interleaveError_columns (array : list Z) (numErr numB1 numB2 : Z) :
  0 ≤ numErr → 0 ≤ numB1 + numB2 →
  Z.of_nat (length array) = numErr * (numB1 + numB2) →
  interleaveError array numErr numB1 numB2
  = Ok (concat (blockColumns array (numB1 + numB2) 0 numErr 0)).
Proof.
  intros He Hb HL. unfold interleaveError. rewrite make_Ok.
  change (Ok ?a ≫= ?g) with (g a); cbv beta.
  set (b := numB1 + numB2) in *.
  set (cols := blockColumns array b 0 numErr 0).
  set (L := length array) in *.
  pose (P := λ k : nat, concat (take k cols)).
  assert (Hpre : ∀ k : nat, Z.of_nat k ≤ numErr →
            Z.of_nat (length (P k)) = b * Z.of_nat k).
  { intros k Hk. unfold P, cols.
    rewrite length_columns_prefix by lia. rewrite Z.min_l by lia. lia. }
  assert (HS : ∀ k : nat, Z.of_nat k < numErr →
            P (S k) = P k ++ column array (Z.of_nat k) numErr b).
  { intros k Hk. unfold P.
    rewrite (take_S_r cols k _ (blockColumns_lookup array b 0 numErr 0 k ltac:(lia))).
    rewrite concat_app. cbn [concat].
    by rewrite app_nil_r, columnAt_one_group by lia. }
  pose (st := λ k : nat,
          (P k ++ replicate (L - length (P k)) 0, Z.of_nat (length (P k)))).
  set (N := Z.to_nat numErr).
  replace numErr with (0 + Z.of_nat N) at 1 by lia.
  replace (replicate L 0, 0) with (st 0%nat).
  2:{ unfold st, P. rewrite take_0. cbn [concat length app].
      by rewrite Nat.sub_0_r. }
  rewrite (forZ_steps _ st 0 N).
  - unfold st. change (Ok ?a ≫= ?g) with (g a); cbv beta iota. f_equal.
    pose proof (Hpre N ltac:(lia)) as HN.
    assert (HPN : P N = concat cols).
    { unfold P. f_equal. apply take_ge. unfold cols.
      rewrite blockColumns_length. lia. }
    rewrite HPN in *.
    replace (L - length (concat cols))%nat with 0%nat by lia.
    by rewrite app_nil_r.
  - intros k Hk.
    pose proof (Hpre k ltac:(lia)) as Hk0.
    pose proof (Hpre (S k) ltac:(lia)) as Hk1.
    pose proof (HS k ltac:(lia)) as HSk.
    unfold st. cbv beta iota zeta. rewrite Z.add_0_l.
    rewrite HSk in *. rewrite length_app, length_column in Hk1.
    rewrite (fill_column_error_at array (P k) _ (L - length (P k)) _ _ numErr b
               eq_refl eq_refl); [|nia|intros j Hj; nia].
    change (Ok ?a ≫= ?g) with (g a); cbv beta iota.
    f_equal. f_equal; [|rewrite length_app, length_column; lia].
    f_equal. rewrite length_app, length_column. f_equal. lia.
Qed.

(** ** Lookups in the columns *)

Lemma lookup_concat_uniform {A} (ls : list (list A)) (n i j : nat) :
  Forall (λ l, length l = n) ls → (j < n)%nat →
  concat ls !! (i * n + j)%nat = ls !! i ≫= (.!! j).
Proof.
  intros Hall Hj. revert i. induction Hall as [|l ls Hl _ IH]; intros i; [done|].
  cbn [concat]. destruct i as [|i].
  - cbn. rewrite lookup_app_l by lia. reflexivity.
  - rewrite lookup_app_r by lia.
    replace (S i * n + j - length l)%nat with (i * n + j)%nat by lia.
    apply IH.
Qed.

Lemma lookup_column (array : list Z) (start step n : Z) (j : nat) :
  Z.of_nat j < n → 0 ≤ start + Z.of_nat j * step < Z.of_nat (length array) →
  column array start step n !! j = array !! Z.to_nat (start + Z.of_nat j * step).
Proof.
  intros Hj Hr. unfold column.
  rewrite list_lookup_fmap, lookup_seqZ_lt by lia. cbn. rewrite Z.add_0_l.
  destruct (lookup_lt_is_Some_2 array (Z.to_nat (start + Z.of_nat j * step))
              ltac:(lia)) as [a Ha].
  rewrite Ha. f_equal. by apply nth_lookup_Some.
Qed.

(** X13.  For an array of [numErr] check bytes for each of the
    [numB1 + numB2] blocks, [interleaveError] returns the transposition of
    the array: the byte at place [i * (numB1 + numB2) + j] of the result is
    the byte [i] of block [j], at place [i + j * numErr] of the array. *)
Theorem interleaveError_transposes (array : list Z) (numErr numB1 numB2 : Z) :
  0 ≤ numErr → 0 ≤ numB1 + numB2 →
  Z.of_nat (length array) = numErr * (numB1 + numB2) →
  ∃ inter, interleaveError array numErr numB1 numB2 = Ok inter
           ∧ length inter = length array
           ∧ ∀ i j, 0 ≤ i < numErr → 0 ≤ j < numB1 + numB2 →
                    inter !! Z.to_nat (i * (numB1 + numB2) + j)
                    = array !! Z.to_nat (i + j * numErr).
Proof.
  intros He Hb HL. eexists. split; [by apply interleaveError_columns|].
  set (b := numB1 + numB2) in *.
  assert (Hall : Forall (λ l, length l = Z.to_nat b) (blockColumns array b 0 numErr 0)).
  { unfold blockColumns. apply Forall_fmap, Forall_forall. intros i Hi. cbn.
    apply elem_of_seqZ in Hi. rewrite columnAt_one_group by lia.
    apply length_column. }
  split.
  - assert (H : Z.of_nat (length (concat (take (Z.to_nat numErr)
                                             (blockColumns array b 0 numErr 0))))
                = b * Z.min (Z.of_nat (Z.to_nat numErr)) numErr
                  + 0 * Z.min (Z.of_nat (Z.to_nat numErr)) 0)
      by (apply length_columns_prefix; lia).
    rewrite take_ge in H by (rewrite blockColumns_length; lia).
    rewrite Z.min_l in H by lia. lia.
  - intros i j Hi Hj.
    replace (Z.to_nat (i * b + j)) with (Z.to_nat i * Z.to_nat b + Z.to_nat j)%nat by nia.
    rewrite (lookup_concat_uniform _ _ _ _ Hall) by lia.
    rewrite (blockColumns_lookup array b 0 numErr 0 (Z.to_nat i)) by lia.
    cbn [mbind option_bind]. rewrite columnAt_one_group by lia.
    rewrite lookup_column by nia. f_equal. lia.
Qed.

Lemma interleaveError_transposes_witness :
  ∃ inter, interleaveError [1; 2; 3; 4; 5; 6; 7; 8] 4 2 0 = Ok inter
           ∧ length inter = length [1; 2; 3; 4; 5; 6; 7; 8]
           ∧ ∀ i j, 0 ≤ i < 4 → 0 ≤ j < 2 + 0 →
                    inter !! Z.to_nat (i * (2 + 0) + j)
                    = [1; 2; 3; 4; 5; 6; 7; 8] !! Z.to_nat (i + j * 4).
Proof.
  apply (interleaveError_transposes [1; 2; 3; 4; 5; 6; 7; 8] 4 2 0);
    [lia|lia|reflexivity].
Defined.

(** ** A single block *)

Lemma seqZ_one (x : Z) : seqZ x 1 = [x].
Proof. unfold seqZ. cbn. f_equal. Qed.

Lemma column_whole (array : list Z) :
  concat ((λ i, [nth (Z.to_nat i) array 0]) <$> seqZ 0 (Z.of_nat (length array)))
  = array.
Proof.
  induction array as [|a l IH] using rev_ind; [done|].
  rewrite length_app. cbn [length]. rewrite Nat2Z.inj_add, seqZ_app by lia.
  rewrite fmap_app, concat_app. rewrite Z.add_0_l. f_equal.
  - etransitivity; [|exact IH]. f_equal. apply list_fmap_ext. intros i x Hx.
    apply lookup_seqZ in Hx as [-> Hi]. f_equal.
    apply app_nth1. lia.
  - change (Z.of_nat 1) with 1. rewrite seqZ_one. cbn [fmap list_fmap concat app].
    rewrite Nat2Z.id, app_nth2, Nat.sub_diag by lia. reflexivity.
Qed.

Lemma blockColumns_single (array : list Z) :
  concat (blockColumns array 1 0 (Z.of_nat (length array)) 0) = array.
Proof.
  etransitivity; [|exact (column_whole array)]. f_equal.
  unfold blockColumns. rewrite Z.max_l by lia.
  apply list_fmap_ext. intros i x Hx. apply lookup_seqZ in Hx as [-> Hi].
  rewrite columnAt_one_group by lia.
  unfold column. rewrite seqZ_one. cbn [fmap list_fmap].
  by rewrite Z.mul_0_l, Z.add_0_r.
Qed.

(** X14.  A single block is not interleaved: with one block that is the
    whole array, [interleaveData] and [interleaveError] return the array
    as it is. *)
Theorem single_block_kept (array : list Z) :
  interleaveData array 1 0 (Z.of_nat (length array)) 0 = Ok array
  ∧ interleaveError array (Z.of_nat (length array)) 1 0 = Ok array.
Proof.
  split.
  - rewrite interleaveData_columns by lia. by rewrite blockColumns_single.
  - rewrite interleaveError_columns by lia.
    change (1 + 0) with 1. by rewrite blockColumns_single.
Qed.


(** * Rounding of binary64 stays below the next power of two *)

(** ** Binary digits *)

Lemma digits2_pos_bounds (p : positive) :
  2 ^ (Z.pos (digits2_pos p) - 1) ≤ Z.pos p < 2 ^ Z.pos (digits2_pos p).
Proof.
  induction p as [p IH|p IH|]; cbn [digits2_pos].
  - rewrite Pos2Z.inj_succ. replace (Z.succ (Z.pos (digits2_pos p)) - 1)
      with (Z.succ (Z.pos (digits2_pos p) - 1)) by lia.
    rewrite !Z.pow_succ_r by lia. lia.
  - rewrite Pos2Z.inj_succ. replace (Z.succ (Z.pos (digits2_pos p)) - 1)
      with (Z.succ (Z.pos (digits2_pos p) - 1)) by lia.
    rewrite !Z.pow_succ_r by lia. lia.
  - cbn. lia.
Qed.

Lemma Zdigits2_nonneg (m : Z) : 0 ≤ Zdigits2 m.
Proof. destruct m; cbn; lia. Qed.

Lemma Zdigits2_bounds (m : Z) :
  0 ≤ m → m < 2 ^ Zdigits2 m ∧ (0 < m → 2 ^ (Zdigits2 m - 1) ≤ m).
Proof.
  intros Hm. destruct m as [|p|p]; [cbn; lia| |lia].
  cbn [Zdigits2]. pose proof (digits2_pos_bounds p). lia.
Qed.

(** [m < 2^k] bounds the digits of [m]. *)
Lemma Zdigits2_le (m k : Z) : 0 ≤ m → 0 ≤ k → m < 2 ^ k → Zdigits2 m ≤ k.
Proof.
  intros Hm Hk Hlt. destruct (Z.eq_dec m 0) as [->|Hne]; [cbn; lia|].
  destruct (Zdigits2_bounds m Hm) as [_ Hlow]. specialize (Hlow ltac:(lia)).
  pose proof (Zdigits2_nonneg m).
  destruct (Z_le_gt_dec (Zdigits2 m) k) as [|Hgt]; [done|exfalso].
  assert (2 ^ k ≤ 2 ^ (Zdigits2 m - 1)) by (apply Z.pow_le_mono_r; lia). lia.
Qed.

(** ** Shifts to the right *)

Lemma shr_1_m (mrs : shr_record) :
  0 ≤ shr_m mrs → shr_m (shr_1 mrs) = shr_m mrs / 2.
Proof.
  destruct mrs as [m r s]. cbn [shr_m shr_1]. intros Hm.
  destruct m as [|[p|p|]|p]; cbn [shr_m].
  - reflexivity.
  - rewrite Pos2Z.inj_xI. apply (Z.div_unique _ _ _ 1); lia.
  - rewrite Pos2Z.inj_xO. apply (Z.div_unique _ _ _ 0); lia.
  - reflexivity.
  - lia.
Qed.

Lemma iter_shr_1_m (n : positive) (mrs : shr_record) :
  0 ≤ shr_m mrs → shr_m (@SpecFloat.iter_pos shr_record shr_1 n mrs) = shr_m mrs / 2 ^ Z.pos n.
Proof.
  revert mrs. induction n as [n IH|n IH|]; intros mrs Hm; cbn [SpecFloat.iter_pos].
  - assert (H1 : 0 ≤ shr_m (shr_1 mrs))
      by (rewrite shr_1_m by done; apply Z.div_pos; lia).
    assert (H2 : 0 ≤ shr_m (@SpecFloat.iter_pos shr_record shr_1 n (shr_1 mrs)))
      by (rewrite IH by done; apply Z.div_pos; [done|apply Z.pow_pos_nonneg; lia]).
    rewrite IH, IH, shr_1_m by done.
    rewrite !Z.div_div by (try apply Z.pow_pos_nonneg; lia).
    f_equal. change 2 with (2 ^ 1) at 1. rewrite <- !Z.pow_add_r by lia.
    f_equal. lia.
  - assert (H2 : 0 ≤ shr_m (@SpecFloat.iter_pos shr_record shr_1 n mrs))
      by (rewrite IH by done; apply Z.div_pos; [done|apply Z.pow_pos_nonneg; lia]).
    rewrite IH, IH by done.
    rewrite !Z.div_div by (try apply Z.pow_pos_nonneg; lia).
    f_equal. rewrite <- !Z.pow_add_r by lia. f_equal. lia.
  - by apply shr_1_m.
Qed.

Lemma shr_record_of_loc_m (m : Z) (l : location) : shr_m (shr_record_of_loc m l) = m.
Proof. by destruct l as [|[| |]]. Qed.

(** What [shr_fexp] leaves: the mantissa divided by the power of two of
    the shift, when there is one. *)
Lemma shr_fexp_m (m e : Z) (l : location) :
  0 ≤ m →
  let n := fexp 53 1024 (Zdigits2 m + e) - e in
  let '(mrs, e') := shr_fexp 53 1024 m e l in
  (n ≤ 0 ∧ shr_m mrs = m ∧ loc_of_shr_record mrs = l ∧ e' = e)
  ∨ (0 < n ∧ shr_m mrs = m / 2 ^ n ∧ e' = e + n).
Proof.
  intros Hm n. unfold shr_fexp, shr. fold n.
  destruct n as [|p|p] eqn:En.
  - left. split; [lia|]. split; [apply shr_record_of_loc_m|].
    split; [by destruct l as [|[| |]]|done].
  - right. split; [lia|]. split; [|done].
    rewrite iter_shr_1_m by (rewrite shr_record_of_loc_m; lia).
    by rewrite shr_record_of_loc_m.
  - left. split; [lia|]. split; [apply shr_record_of_loc_m|].
    split; [by destruct l as [|[| |]]|done].
Qed.

Lemma round_nearest_even_range (m : Z) (l : location) :
  m ≤ round_nearest_even m l ≤ m + 1.
Proof.
  destruct l as [|[| |]]; cbn [round_nearest_even]; try lia.
  destruct (Z.even m); lia.
Qed.

Lemma fexp_ge (e : Z) : -1074 ≤ fexp 53 1024 e.
Proof. unfold fexp, emin. lia. Qed.

Lemma fexp_eq (e : Z) : fexp 53 1024 e = Z.max (e - 53) (-1074).
Proof. reflexivity. Qed.

Lemma pow2_le (a b : Z) : 0 ≤ a ≤ b → 2 ^ a ≤ 2 ^ b.
Proof. intros H. apply Z.pow_le_mono_r; lia. Qed.

Lemma pow2_lt_inv (a b : Z) : 0 ≤ b → 2 ^ a < 2 ^ b → a < b.
Proof. intros Hb H. apply (Z.pow_lt_mono_r_iff 2); [lia|done|done]. Qed.

Lemma pow2_le_inv (a b : Z) : 0 ≤ b → 2 ^ a ≤ 2 ^ b → a ≤ b.
Proof. intros Hb H. apply (Z.pow_le_mono_r_iff 2); [lia|done|done]. Qed.

Lemma pow2_pos (a : Z) : 0 ≤ a → 0 < 2 ^ a.
Proof. intros H. apply Z.pow_pos_nonneg; lia. Qed.

(** Rounding never passes the power of two above the digits of what is
    rounded. *)
Lemma binary_round_aux_below (mx ex : Z) (lx : location) (K : Z) :
  0 ≤ mx → Zdigits2 mx + ex ≤ K → -1021 ≤ K ≤ 970 →
  below (binary_round_aux 53 1024 false mx ex lx) K.
Proof.
  intros Hm Hd HK. unfold binary_round_aux.
  pose proof (shr_fexp_m mx ex lx Hm) as H1. cbv zeta in H1.
  destruct (shr_fexp 53 1024 mx ex lx) as [mrs1 e1].
  pose proof (Zdigits2_nonneg mx) as Hd0.
  destruct (Zdigits2_bounds mx Hm) as [Hup _].
  rewrite fexp_eq in H1.
  assert (HA : 0 ≤ shr_m mrs1 ∧ -1074 ≤ e1
               ∧ (shr_m mrs1 + 1) * 2 ^ (e1 + 1074) ≤ 2 ^ (K + 1074)).
  { destruct H1 as [(Hn & -> & _ & ->)|(Hn & -> & ->)].
    - split; [done|]. split; [lia|].
      transitivity (2 ^ Zdigits2 mx * 2 ^ (ex + 1074)).
      + apply Z.mul_le_mono_nonneg_r; [apply Z.lt_le_incl, pow2_pos; lia|lia].
      + rewrite <- Z.pow_add_r by lia. apply pow2_le. lia.
    - set (n := Z.max (Zdigits2 mx + ex - 53) (-1074) - ex) in *.
      assert (Hq : mx / 2 ^ n < 2 ^ 53).
      { apply Z.div_lt_upper_bound; [apply pow2_pos; lia|].
        rewrite <- Z.pow_add_r by lia.
        eapply Z.lt_le_trans; [exact Hup|]. apply pow2_le. lia. }
      split; [apply Z.div_pos; [done|apply pow2_pos; lia]|]. split; [lia|].
      transitivity (2 ^ 53 * 2 ^ (ex + n + 1074)).
      + apply Z.mul_le_mono_nonneg_r; [apply Z.lt_le_incl, pow2_pos; lia|lia].
      + rewrite <- Z.pow_add_r by lia. apply pow2_le. lia. }
  destruct HA as (Hm1 & He1 & Hv1).
  set (m2 := round_nearest_even (shr_m mrs1) (loc_of_shr_record mrs1)).
  pose proof (round_nearest_even_range (shr_m mrs1) (loc_of_shr_record mrs1)) as Hr.
  fold m2 in Hr.
  assert (Hm2 : 0 ≤ m2) by lia.
  assert (Hv2 : m2 * 2 ^ (e1 + 1074) ≤ 2 ^ (K + 1074)).
  { etransitivity; [|exact Hv1].
    apply Z.mul_le_mono_nonneg_r; [apply Z.lt_le_incl, pow2_pos; lia|lia]. }
  pose proof (shr_fexp_m m2 e1 loc_Exact Hm2) as H2. cbv zeta in H2.
  destruct (shr_fexp 53 1024 m2 e1 loc_Exact) as [mrs2 e2].
  rewrite fexp_eq in H2.
  assert (HB : 0 ≤ shr_m mrs2 ∧ -1074 ≤ e2
               ∧ shr_m mrs2 * 2 ^ (e2 + 1074) ≤ 2 ^ (K + 1074)).
  { destruct H2 as [(Hn & -> & _ & ->)|(Hn & -> & ->)]; [done|].
    set (n := Z.max (Zdigits2 m2 + e1 - 53) (-1074) - e1) in *.
    split; [apply Z.div_pos; [done|apply pow2_pos; lia]|]. split; [lia|].
    etransitivity; [|exact Hv2].
    replace (e1 + n + 1074) with (n + (e1 + 1074)) by lia.
    rewrite Z.pow_add_r, Z.mul_assoc by lia.
    apply Z.mul_le_mono_nonneg_r; [apply Z.lt_le_incl, pow2_pos; lia|].
    rewrite Z.mul_comm. apply Z.mul_div_le. apply pow2_pos. lia. }
  destruct HB as (Hm3 & He2 & Hv3).
  destruct (shr_m mrs2) as [|p|p]; [exact I| |lia].
  assert (He : e2 ≤ K).
  { assert (2 ^ (e2 + 1074) ≤ 2 ^ (K + 1074)).
    { etransitivity; [|exact Hv3].
      rewrite <- (Z.mul_1_l (2 ^ (e2 + 1074))) at 1.
      apply Z.mul_le_mono_nonneg_r; [apply Z.lt_le_incl, pow2_pos; lia|lia]. }
    apply pow2_le_inv in H; lia. }
  destruct (Z.leb_spec e2 (1024 - 53)) as [_|Hgt]; [|lia].
  cbn [below]. split; [lia|exact Hv3].
Qed.

Lemma below_cases (f : spec_float) (K : Z) :
  below f K →
  (∃ s, f = S754_zero s)
  ∨ ∃ m e, f = S754_finite false m e ∧ -1074 ≤ e
           ∧ Z.pos m * 2 ^ (e + 1074) ≤ 2 ^ (K + 1074).
Proof.
  destruct f as [s| | |[|] m e]; cbn [below]; try done.
  - intros _. left. by exists s.
  - intros [He Hv]. right. by exists m, e.
Qed.

(** ** Products and quotients of positive floats *)

Lemma f64_mul_below (mx my : positive) (ex ey K : Z) :
  -1074 ≤ ex → -1074 ≤ ey → -1021 ≤ K ≤ 970 →
  Z.pos mx * 2 ^ (ex + 1074) * (Z.pos my * 2 ^ (ey + 1074)) < 2 ^ (K + 2148) →
  below (f64_mul (S754_finite false mx ex) (S754_finite false my ey)) K.
Proof.
  intros Hex Hey HK Hv. unfold f64_mul, SFmul. cbn [xorb].
  apply binary_round_aux_below; [lia| |done].
  change (Z.pos (mx * my)) with (Z.pos mx * Z.pos my).
  assert (Hpos : 0 < Z.pos mx * Z.pos my) by lia.
  destruct (Zdigits2_bounds (Z.pos mx * Z.pos my) ltac:(lia)) as [_ Hlow].
  specialize (Hlow Hpos).
  pose proof (Zdigits2_nonneg (Z.pos mx * Z.pos my)) as Hd0.
  set (d := Zdigits2 (Z.pos mx * Z.pos my)) in *.
  assert (Hd1 : 1 ≤ d).
  { unfold d. change (Z.pos mx * Z.pos my) with (Z.pos (mx * my)).
    cbn [Zdigits2]. lia. }
  assert (H : 2 ^ (d - 1 + (ex + 1074) + (ey + 1074)) < 2 ^ (K + 2148)).
  { eapply Z.le_lt_trans; [|exact Hv].
    rewrite !Z.pow_add_r by lia.
    pose proof (pow2_pos (ex + 1074) ltac:(lia)).
    pose proof (pow2_pos (ey + 1074) ltac:(lia)). nia. }
  apply pow2_lt_inv in H; lia.
Qed.

Lemma div_eucl_pos (a b : Z) :
  0 ≤ a → 0 < b →
  let '(q, r) := Z.div_eucl a b in 0 ≤ q ∧ q * b ≤ a.
Proof.
  intros Ha Hb. pose proof (Z_div_mod a b ltac:(lia)) as H.
  destruct (Z.div_eucl a b) as [q r]. destruct H as [-> Hr]. nia.
Qed.

Lemma f64_div_below (mx my : positive) (ex ey K : Z) :
  -1074 ≤ ex → -1074 ≤ ey → 0 ≤ K ≤ 970 →
  Z.pos mx * 2 ^ (ex + 1074) < 2 ^ K * (Z.pos my * 2 ^ (ey + 1074)) →
  below (f64_div (S754_finite false mx ex) (S754_finite false my ey)) K.
Proof.
  intros Hex Hey HK Hv. unfold f64_div, SFdiv, SFdiv_core_binary. cbn [xorb].
  cbv zeta.
  set (d1 := Zdigits2 (Z.pos mx)). set (d2 := Zdigits2 (Z.pos my)).
  set (e' := Z.min (fexp 53 1024 (d1 + ex - (d2 + ey))) (ex - ey)).
  set (s := ex - ey - e').
  assert (Hs : 0 ≤ s) by (unfold s, e'; lia).
  set (m' := match s with Z.pos _ => Z.shiftl (Z.pos mx) s | 0 => Z.pos mx | Z.neg _ => 0 end).
  assert (Hm' : m' = Z.pos mx * 2 ^ s).
  { unfold m'. destruct s as [|p|p] eqn:Es; [cbn; lia| |lia].
    rewrite Z.shiftl_mul_pow2 by lia. reflexivity. }
  pose proof (pow2_pos s Hs) as Hps.
  pose proof (pow2_pos (ex + 1074) ltac:(lia)) as Hpx.
  pose proof (pow2_pos (ey + 1074) ltac:(lia)) as Hpy.
  pose proof (pow2_pos K ltac:(lia)) as HpK.
  pose proof (div_eucl_pos m' (Z.pos my) ltac:(lia) ltac:(lia)) as Hq.
  destruct (Z.div_eucl m' (Z.pos my)) as [q r]. destruct Hq as [Hq0 Hqm].
  (* the digits of the operands *)
  destruct (Zdigits2_bounds (Z.pos mx) ltac:(lia)) as [_ Hl1].
  specialize (Hl1 ltac:(lia)). fold d1 in Hl1.
  destruct (Zdigits2_bounds (Z.pos my) ltac:(lia)) as [Hu2 _]. fold d2 in Hu2.
  assert (Hd1 : 1 ≤ d1) by (unfold d1; cbn; lia).
  assert (Hd2 : 1 ≤ d2) by (unfold d2; cbn; lia).
  assert (He' : e' ≤ K).
  { pose proof (pow2_pos (d1 - 1) ltac:(lia)) as Hp1.
    pose proof (pow2_pos d2 ltac:(lia)) as Hp2.
    assert (H1 : 2 ^ (d1 - 1) * 2 ^ (ex + 1074) ≤ Z.pos mx * 2 ^ (ex + 1074))
      by (apply Z.mul_le_mono_nonneg_r; lia).
    assert (H2 : Z.pos my * 2 ^ (ey + 1074) < 2 ^ d2 * 2 ^ (ey + 1074))
      by (apply Z.mul_lt_mono_pos_r; lia).
    assert (H3 : 2 ^ K * (Z.pos my * 2 ^ (ey + 1074))
                 < 2 ^ K * (2 ^ d2 * 2 ^ (ey + 1074)))
      by (apply Z.mul_lt_mono_pos_l; lia).
    assert (H : 2 ^ (d1 - 1) * 2 ^ (ex + 1074) < 2 ^ K * (2 ^ d2 * 2 ^ (ey + 1074)))
      by (eapply Z.le_lt_trans; [exact H1|]; eapply Z.lt_trans; [exact Hv|exact H3]).
    rewrite <- !Z.pow_add_r in H by lia.
    apply pow2_lt_inv in H; [|lia].
    unfold e'. rewrite fexp_eq. lia. }
  apply binary_round_aux_below; [done| |lia].
  destruct (Z.eq_dec q 0) as [->|Hq1]; [cbn; lia|].
  destruct (Zdigits2_bounds q Hq0) as [_ Hlq]. specialize (Hlq ltac:(lia)).
  pose proof (Zdigits2_nonneg q) as Hdq0.
  set (dq := Zdigits2 q) in *.
  assert (Hdq : 1 ≤ dq).
  { unfold dq. destruct q as [|pq|pq]; [lia| |lia]. cbn [Zdigits2]. lia. }
  pose proof (pow2_pos (dq - 1) ltac:(lia)) as Hpq.
  assert (H0 : 2 ^ (dq - 1) * Z.pos my ≤ Z.pos mx * 2 ^ s).
  { rewrite <- Hm'. etransitivity; [|exact Hqm].
    apply Z.mul_le_mono_nonneg_r; lia. }
  assert (H1 : 2 ^ (dq - 1) * Z.pos my * 2 ^ (ex + 1074)
               ≤ Z.pos mx * 2 ^ s * 2 ^ (ex + 1074))
    by (apply Z.mul_le_mono_nonneg_r; lia).
  assert (H2 : Z.pos mx * 2 ^ (ex + 1074) * 2 ^ s
               < 2 ^ K * (Z.pos my * 2 ^ (ey + 1074)) * 2 ^ s)
    by (apply Z.mul_lt_mono_pos_r; lia).
  assert (H3 : 2 ^ (dq - 1) * 2 ^ (ex + 1074) * Z.pos my
               < 2 ^ K * (2 ^ (ey + 1074) * 2 ^ s) * Z.pos my).
  { replace (2 ^ (dq - 1) * 2 ^ (ex + 1074) * Z.pos my)
      with (2 ^ (dq - 1) * Z.pos my * 2 ^ (ex + 1074)) by ring.
    replace (2 ^ K * (2 ^ (ey + 1074) * 2 ^ s) * Z.pos my)
      with (2 ^ K * (Z.pos my * 2 ^ (ey + 1074)) * 2 ^ s) by ring.
    eapply Z.le_lt_trans; [exact H1|].
    replace (Z.pos mx * 2 ^ s * 2 ^ (ex + 1074))
      with (Z.pos mx * 2 ^ (ex + 1074) * 2 ^ s) by ring.
    exact H2. }
  apply Z.mul_lt_mono_pos_r in H3; [|lia].
  rewrite <- !Z.pow_add_r in H3 by lia.
  apply pow2_lt_inv in H3; [|lia]. unfold s in H3. lia.
Qed.

(** ** Conversions *)

Lemma int_of_f64_below (f : spec_float) (K : Z) :
  below f K → 0 ≤ K ≤ 62 → 0 ≤ int_of_f64 f ≤ 2 ^ K.
Proof.
  intros Hb HK. pose proof (pow2_pos K ltac:(lia)) as HpK.
  destruct (below_cases f K Hb) as [[s ->]|(m & e & -> & He & Hv)]; [cbn; lia|].
  cbn [int_of_f64].
  assert (Ha : 0 ≤ (if 0 <=? e then Z.pos m * 2 ^ e else Z.pos m `quot` 2 ^ (- e))
               ≤ 2 ^ K).
  { pose proof (pow2_pos 1074 ltac:(lia)) as Hpc.
    destruct (Z.leb_spec 0 e) as [H0|H0].
    - pose proof (pow2_pos e H0). split; [lia|].
      rewrite !Z.pow_add_r, Z.mul_assoc in Hv by lia.
      apply Z.mul_le_mono_pos_r in Hv; lia.
    - pose proof (pow2_pos (- e) ltac:(lia)) as Hpe.
      rewrite Z.quot_div_nonneg by lia. split; [apply Z.div_pos; lia|].
      apply Z.div_le_upper_bound; [done|].
      pose proof (pow2_pos (e + 1074) ltac:(lia)) as Hpec.
      assert (H1 : 2 ^ (K + 1074) = 2 ^ (- e) * 2 ^ K * 2 ^ (e + 1074))
        by (rewrite <- !Z.pow_add_r by lia; f_equal; lia).
      rewrite H1 in Hv. apply Z.mul_le_mono_pos_r in Hv; lia. }
  set (a := if 0 <=? e then Z.pos m * 2 ^ e else Z.pos m `quot` 2 ^ (- e)) in *.
  assert (H62 : 2 ^ K ≤ 2 ^ 62) by (apply pow2_le; lia).
  destruct ((- 2 ^ 63 <=? a) && (a <? 2 ^ 63)) eqn:E; lia.
Qed.

Lemma iter_xO_value (p k : positive) :
  Z.pos (Pos.iter xO p k) = Z.pos p * 2 ^ Z.pos k
  ∧ Z.pos (digits2_pos (Pos.iter xO p k)) = Z.pos (digits2_pos p) + Z.pos k.
Proof.
  induction k as [|k IH] using Pos.peano_ind.
  - cbn [Pos.iter digits2_pos]. rewrite Pos2Z.inj_xO, Pos2Z.inj_succ. lia.
  - rewrite Pos.iter_succ. cbn [digits2_pos].
    rewrite Pos2Z.inj_xO, !Pos2Z.inj_succ, Z.pow_succ_r by lia.
    destruct IH as [-> ->]. lia.
Qed.

Lemma binary_round_aux_exact (m : positive) (e : Z) :
  Z.pos (digits2_pos m) = 53 → -1074 ≤ e ≤ 971 →
  binary_round_aux 53 1024 false (Z.pos m) e loc_Exact = S754_finite false m e.
Proof.
  intros Hd He. unfold binary_round_aux, shr_fexp. cbn [Zdigits2].
  rewrite Hd, fexp_eq.
  replace (Z.max (53 + e - 53) (-1074) - e) with 0 by lia.
  cbn [shr shr_record_of_loc shr_m loc_of_shr_record round_nearest_even Zdigits2].
  rewrite Hd, fexp_eq.
  replace (Z.max (53 + e - 53) (-1074) - e) with 0 by lia.
  cbn [shr shr_record_of_loc shr_m].
  destruct (Z.leb_spec e (1024 - 53)); [done|lia].
Qed.

(** An integer below 2^53 converts exactly. *)
Lemma f64_of_int_exact (n : Z) :
  0 < n < 2 ^ 53 →
  ∃ m e, f64_of_int n = S754_finite false m e ∧ -1074 ≤ e
         ∧ Z.pos m * 2 ^ (e + 1074) = n * 2 ^ 1074.
Proof.
  intros Hn. destruct n as [|p|p]; [lia| |lia].
  unfold f64_of_int, binary_normalize, binary_round.
  pose proof (Zdigits2_le (Z.pos p) 53 ltac:(lia) ltac:(lia) ltac:(lia)) as Hd.
  cbn [Zdigits2] in Hd.
  rewrite Z.add_0_r, fexp_eq.
  replace (Z.max (Z.pos (digits2_pos p) - 53) (-1074))
    with (Z.pos (digits2_pos p) - 53) by lia.
  unfold shl_align. rewrite Z.sub_0_r.
  destruct (Z.pos (digits2_pos p) - 53) as [|k|k] eqn:Ek; [|lia|].
  - rewrite binary_round_aux_exact by lia.
    exists p, 0. split; [done|]. split; lia.
  - destruct (iter_xO_value p k) as [Hv Hdig].
    rewrite binary_round_aux_exact by lia.
    exists (Pos.iter xO p k), (Z.neg k). split; [done|]. split; [lia|].
    rewrite Hv.
    replace 1074 with (Z.pos k + (Z.neg k + 1074)) at 2 by lia.
    rewrite (Z.pow_add_r 2 (Z.pos k)) by lia. lia.
Qed.

Lemma f64_100 : f64_of_int 100 = S754_finite false 7036874417766400 (-46).
Proof. vm_compute. reflexivity. Qed.

Lemma f64_5 : f64_of_int 5 = S754_finite false 5629499534213120 (-50).
Proof. vm_compute. reflexivity. Qed.

Lemma f64_mul_100_below (x : spec_float) (K : Z) :
  below x K → -1028 ≤ K ≤ 963 →
  below (f64_mul x (f64_of_int 100)) (K + 7).
Proof.
  intros Hb HK. rewrite f64_100.
  destruct (below_cases x K Hb) as [[s ->]|(m & e & -> & He & Hv)]; [exact I|].
  apply f64_mul_below; [lia..|].
  change (7036874417766400 * 2 ^ (-46 + 1074)) with (100 * 2 ^ 1074).
  pose proof (pow2_pos 1074 ltac:(lia)) as Hpc.
  pose proof (pow2_pos (K + 1074) ltac:(lia)) as HpK.
  replace (2 ^ (K + 7 + 2148)) with (2 ^ (K + 1074) * 128 * 2 ^ 1074)
    by (replace (K + 7 + 2148) with ((K + 1074) + 7 + 1074) by lia;
        rewrite (Z.pow_add_r 2 (K + 1074 + 7) 1074),
                (Z.pow_add_r 2 (K + 1074) 7) by lia; reflexivity).
  assert (H1 : Z.pos m * 2 ^ (e + 1074) * (100 * 2 ^ 1074)
               ≤ 2 ^ (K + 1074) * (100 * 2 ^ 1074))
    by (apply Z.mul_le_mono_nonneg_r; lia).
  lia.
Qed.

Lemma f64_div_5_below (x : spec_float) (K : Z) :
  below x K → 2 ≤ K ≤ 972 →
  below (f64_div x (f64_of_int 5)) (K - 2).
Proof.
  intros Hb HK. rewrite f64_5.
  destruct (below_cases x K Hb) as [[s ->]|(m & e & -> & He & Hv)]; [exact I|].
  apply f64_div_below; [lia..|].
  change (5629499534213120 * 2 ^ (-50 + 1074)) with (5 * 2 ^ 1074).
  pose proof (pow2_pos 1074 ltac:(lia)) as Hpc.
  pose proof (pow2_pos (K - 2) ltac:(lia)) as HpK.
  replace (2 ^ (K + 1074)) with (4 * 2 ^ (K - 2) * 2 ^ 1074) in Hv
    by (replace (K + 1074) with (2 + (K - 2) + 1074) by lia;
        rewrite (Z.pow_add_r 2 (2 + (K - 2)) 1074),
                (Z.pow_add_r 2 2 (K - 2)) by lia; reflexivity).
  nia.
Qed.

Lemma f64_div_ints_below (nb nm : Z) :
  0 < nb ≤ nm → nm < 2 ^ 53 →
  below (f64_div (f64_of_int nb) (f64_of_int nm)) 1.
Proof.
  intros Hnb Hnm.
  destruct (f64_of_int_exact nb ltac:(lia)) as (mx & ex & -> & Hex & Hvx).
  destruct (f64_of_int_exact nm ltac:(lia)) as (my & ey & -> & Hey & Hvy).
  apply f64_div_below; [lia..|].
  rewrite Hvx, Hvy. change (2 ^ 1) with 2.
  pose proof (pow2_pos 1074 ltac:(lia)) as Hpc.
  assert (nb * 2 ^ 1074 ≤ nm * 2 ^ 1074) by (apply Z.mul_le_mono_nonneg_r; lia).
  lia.
Qed.

(** The twentieth of the percentage of dark modules is from 0 to 64. *)
Lemma twentieth_range (nb nm : Z) :
  0 ≤ nb ≤ nm → 0 < nm < 2 ^ 53 →
  0 ≤ int_of_f64
        (f64_div (f64_mul (f64_div (f64_of_int nb) (f64_of_int nm)) (f64_of_int 100))
                 (f64_of_int 5))
    ≤ 64.
Proof.
  intros Hnb Hnm. change 64 with (2 ^ 6). apply int_of_f64_below; [|lia].
  change 6 with (8 - 2). apply f64_div_5_below; [|lia].
  change 8 with (1 + 7). apply f64_mul_100_below; [|lia].
  destruct (Z.eq_dec nb 0) as [->|Hne].
  - destruct (f64_of_int_exact nm ltac:(lia)) as (my & ey & -> & _). exact I.
  - apply f64_div_ints_below; lia.
Qed.

Lemma pen4_of_twentieth_range (q : Z) :
  0 ≤ q ≤ 64 → 0 ≤ pen4_of_twentieth q ≤ 540.
Proof.
  intros Hq.
  assert (H : forallb (λ q, (0 <=? pen4_of_twentieth q) && (pen4_of_twentieth q <=? 540))
                      (seqZ 0 65) = true) by (vm_compute; reflexivity).
  rewrite forallb_forall in H.
  specialize (H q). rewrite <- list_elem_of_In, elem_of_seqZ in H.
  specialize (H ltac:(lia)). lia.
Qed.

(** * Ranges of the four penalties *)

Lemma binaryb_grid (N : nat) (cv : canvas) :
  shape N cv → binaryb cv = true → grid N (λ cell, binaryCell cell = true) cv.
Proof.
  intros Hsh Hb. split; [done|].
  unfold binaryb in Hb. rewrite forallb_forall in Hb.
  apply Forall_forall. intros row Hrow. apply list_elem_of_In, Hb in Hrow.
  rewrite forallb_forall in Hrow.
  apply Forall_forall. intros cell Hcell. by apply Hrow, list_elem_of_In.
Qed.

(** ** A loop with an invariant that follows the index *)

Lemma forZ_inv_idx {St} (I : Z → St → Prop) lo hi (body : Z → St → res St) s :
  lo ≤ hi → I lo s →
  (∀ i s, lo ≤ i < hi → I i s → ∃ s', body i s = Ok s' ∧ I (i + 1) s') →
  ∃ s', forZ lo hi body s = Ok s' ∧ I hi s'.
Proof.
  intros Hle Hs Hbody.
  remember (Z.to_nat (hi - lo)) as n eqn:Hn. revert lo s Hle Hs Hbody Hn.
  induction n as [|n IH]; intros lo s Hle Hs Hbody Hn.
  - rewrite forZ_nil by lia. exists s. split; [done|]. by replace hi with lo by lia.
  - rewrite forZ_cons by lia.
    destruct (Hbody lo s ltac:(lia) Hs) as (s1 & -> & Hs1).
    change (Ok s1 ≫= ?f) with (f s1); cbv beta. apply IH; [lia|done| |lia].
    intros i s2 Hi. apply Hbody. lia.
Qed.

(** ** Cells of a grid *)

Section Grid.
Variables (N : nat) (P : Cell → Prop).

Lemma getCell_grid (cv : canvas) (r c : Z) :
  grid N P cv → 0 ≤ r < Z.of_nat N → 0 ≤ c < Z.of_nat N →
  ∃ cell, getCell cv r c = Ok cell ∧ P cell.
Proof.
  intros [Hsh Hall] Hr Hc. unfold getCell.
  destruct (idx_Ok cv r) as (row & -> & Hrow); [destruct Hsh as [-> _]; lia|].
  change (Ok row ≫= ?f) with (f row); cbv beta.
  pose proof (shape_row _ _ _ _ Hsh Hrow) as Hl.
  destruct (idx_Ok row c) as (cell & -> & Hcell); [lia|]. exists cell. split; [done|].
  rewrite Forall_forall in Hall.
  pose proof (Hall row (list_elem_of_lookup_2 _ _ _ Hrow)) as HP.
  rewrite Forall_forall in HP. apply HP. by eapply list_elem_of_lookup_2.
Qed.

Lemma putCell_grid (cv : canvas) (r c : Z) (cell : Cell) :
  grid N P cv → 0 ≤ r < Z.of_nat N → 0 ≤ c < Z.of_nat N → P cell →
  ∃ cv', putCell cv r c cell = Ok cv' ∧ grid N P cv'.
Proof.
  intros [Hsh Hall] Hr Hc HP. unfold putCell.
  destruct (idx_Ok cv r) as (row & -> & Hrow); [destruct Hsh as [-> _]; lia|].
  change (Ok row ≫= ?f) with (f row); cbv beta.
  pose proof (shape_row _ _ _ _ Hsh Hrow) as Hl.
  rewrite upd_Ok by lia. change (Ok ?x ≫= ?f) with (f x); cbv beta.
  destruct Hsh as [Hlen Hrows]. rewrite upd_Ok by lia.
  eexists. split; [done|]. split; [split|].
  - by rewrite length_insert.
  - apply Forall_insert; [done|]. by rewrite length_insert.
  - apply Forall_insert; [done|]. apply Forall_insert; [|done].
    rewrite Forall_forall in Hall. apply Hall. by eapply list_elem_of_lookup_2.
Qed.

Lemma setCell_grid (cv : canvas) (r c : Z) (f : Cell → Cell) :
  grid N P cv → 0 ≤ r < Z.of_nat N → 0 ≤ c < Z.of_nat N →
  (∀ cell, P cell → P (f cell)) →
  ∃ cv', setCell cv r c f = Ok cv' ∧ grid N P cv'.
Proof.
  intros [Hsh Hall] Hr Hc Hf. unfold setCell.
  destruct (idx_Ok cv r) as (row & -> & Hrow); [destruct Hsh as [-> _]; lia|].
  change (Ok row ≫= ?g) with (g row); cbv beta.
  pose proof (shape_row _ _ _ _ Hsh Hrow) as Hl.
  destruct (idx_Ok row c) as (cell & -> & Hcell); [lia|].
  change (Ok cell ≫= ?g) with (g cell); cbv beta.
  rewrite upd_Ok by lia. change (Ok ?x ≫= ?g) with (g x); cbv beta.
  destruct Hsh as [Hlen Hrows]. rewrite upd_Ok by lia.
  assert (HProw : Forall P row).
  { rewrite Forall_forall in Hall. apply Hall. by eapply list_elem_of_lookup_2. }
  eexists. split; [done|]. split; [split|].
  - by rewrite length_insert.
  - apply Forall_insert; [done|]. by rewrite length_insert.
  - apply Forall_insert; [done|]. apply Forall_insert; [done|].
    apply Hf. rewrite Forall_forall in HProw. apply HProw.
    by eapply list_elem_of_lookup_2.
Qed.

Lemma newCanvas_grid : P (mkCell 0 true) → ∃ cv, newCanvas (Z.of_nat N) = Ok cv ∧ grid N P cv.
Proof.
  intros HP. destruct (newCanvas_Ok N) as (cv & Hcv & Hsh). exists cv.
  split; [done|]. split; [done|].
  unfold newCanvas in Hcv.
  destruct (Z.of_nat N <? 0); [discriminate|]. injection Hcv as <-.
  apply Forall_replicate, Forall_replicate, HP.
Qed.

Lemma copyCanvas_grid (cv copy : canvas) :
  grid N P cv → grid N P copy →
  ∃ copy', copyCanvas cv copy = Ok copy' ∧ grid N P copy'.
Proof.
  intros Hcv Hcopy. unfold copyCanvas.
  pose proof Hcv as [[Hlen _] _]. rewrite Hlen.
  apply forZ_inv; [done|]. intros r cp Hr Hcp.
  apply forZ_inv; [done|]. intros c cp' Hc Hcp'.
  destruct (getCell_grid cv r c Hcv) as (cell & -> & HP); [lia..|].
  change (Ok cell ≫= ?g) with (g cell); cbv beta.
  apply putCell_grid; [done|lia..|]. by destruct cell.
Qed.

End Grid.

Lemma maskCanvas_binary (N : nat) (cv : canvas) (fn : Z → Z → bool) :
  grid N (λ cell, binaryCell cell = true) cv →
  ∃ masked, maskCanvas cv fn = Ok masked
            ∧ grid N (λ cell, binaryCell cell = true) masked.
Proof.
  intros Hcv. unfold maskCanvas. pose proof Hcv as [[Hlen _] _]. rewrite Hlen.
  destruct (newCanvas_grid N (λ cell, binaryCell cell = true) eq_refl)
    as (cv0 & -> & Hcv0).
  change (Ok cv0 ≫= ?g) with (g cv0); cbv beta.
  destruct (copyCanvas_grid N _ cv cv0 Hcv Hcv0) as (cv1 & -> & Hcv1).
  change (Ok cv1 ≫= ?g) with (g cv1); cbv beta.
  apply forZ_inv; [done|]. intros r m Hr Hm.
  apply forZ_inv; [done|]. intros c m' Hc Hm'.
  destruct (getCell_grid N _ m' r c Hm') as (cell & -> & HP); [lia..|].
  change (Ok cell ≫= ?g) with (g cell); cbv beta.
  destruct (data cell && fn r c); [|by exists m'].
  apply setCell_grid; [done|lia..|].
  intros cell' _. unfold binaryCell in HP |- *. cbn [color].
  destruct (Z.eqb_spec (color cell) 0) as [->|]; [reflexivity|].
  destruct (Z.eqb_spec (color cell) 1) as [->|]; [reflexivity|discriminate].
Qed.

Lemma wrap64_small (z : Z) : - 2 ^ 63 ≤ z < 2 ^ 63 → wrap64 z = z.
Proof.
  intros Hz. unfold wrap64. rewrite Z.mod_small; [lia|].
  change (2 ^ 64) with (2 ^ 63 + 2 ^ 63). lia.
Qed.

Lemma binaryCell_color (cell : Cell) :
  binaryCell cell = true → color cell = 0 ∨ color cell = 1.
Proof.
  unfold binaryCell. intros [H|H]%orb_true_iff; apply Z.eqb_eq in H; lia.
Qed.

(** ** The four penalties on a canvas of modules *)

Lemma pen1_range (N : nat) (masked : canvas) :
  shape N masked → (N ≤ 177)%nat →
  ∃ p, pen1 masked = Ok p ∧ 0 ≤ p ≤ 31506 * Z.of_nat N.
Proof.
  intros Hsh HN. unfold pen1. pose proof Hsh as [Hlen _]. rewrite Hlen.
  apply (forZ_inv_idx (λ r total, 0 ≤ total ≤ 31506 * r)); [lia|lia|].
  intros r total Hr Ht.
  apply (bind_Ok_with
           (λ '(t, cnt, _), total ≤ t ≤ total + 177 * Z.of_nat N
                            ∧ 0 ≤ cnt ≤ Z.of_nat N)).
  - apply (forZ_inv_idx
             (λ c '(t, cnt, _), total ≤ t ≤ total + 177 * c ∧ 0 ≤ cnt ≤ c));
      [lia|cbn; lia|].
    intros c [[t cnt] prev] Hc [Ht' Hcnt].
    destruct (getCell_Ok N masked r c) as [cell ->]; [done|lia..|].
    change (Ok cell ≫= ?g) with (g cell); cbv beta zeta.
    destruct (color cell =? prev); (eexists; split; [reflexivity|]); cbn beta iota.
    + lia.
    + destruct (0 <=? cnt - 5) eqn:E; lia.
  - intros [[t cnt] prev] [Ht' Hcnt]. cbv zeta.
    eexists; split; [reflexivity|]. destruct (0 <=? cnt - 5) eqn:E; lia.
Qed.

Lemma pen2_range (N : nat) (masked : canvas) :
  shape N masked → (1 ≤ N)%nat →
  ∃ p, pen2 masked = Ok p ∧ 0 ≤ p ≤ 3 * Z.of_nat N.
Proof.
  intros Hsh HN. unfold pen2. pose proof Hsh as [Hlen _]. rewrite Hlen.
  match goal with
  | |- ∃ p, ?t = Ok p ∧ _ =>
      enough (∃ p, t = Ok p ∧ ((1 = 0 → p = 0) ∧ 0 ≤ p ≤ 3 * Z.of_nat N))
        as (p & Hp & _ & Hrange) by (by exists p)
  end.
  apply (forZ_inv_idx
           (λ r total, (r = 0 → total = 0) ∧ 0 ≤ total ≤ 3 * Z.of_nat N));
    [lia|lia|].
  intros r total Hr [Hr0 Ht]. replace r with 0 in * by lia. specialize (Hr0 eq_refl).
  subst total.
  destruct (forZ_inv_idx (λ c t, 0 ≤ t ≤ 3 * c) 0 (Z.of_nat N - 1)
              (λ c total,
                 c00 ← getCell masked 0 c;
                 c01 ← getCell masked 0 (c + 1);
                 c10 ← getCell masked (0 + 1) c;
                 c11 ← getCell masked (0 + 1) (c + 1);
                 let sum := color c00 + color c01 + color c10 + color c11 in
                 Ok (if (sum =? 0) || (sum =? 4) then total + 3 else total)) 0)
    as (t & Hloop & Hrange); [lia|lia| |].
  - intros c t Hc Ht'.
    destruct (getCell_Ok N masked 0 c) as [c00 ->]; [done|lia..|].
    change (Ok c00 ≫= ?g) with (g c00); cbv beta.
    destruct (getCell_Ok N masked 0 (c + 1)) as [c01 ->]; [done|lia..|].
    change (Ok c01 ≫= ?g) with (g c01); cbv beta.
    destruct (getCell_Ok N masked (0 + 1) c) as [c10 ->]; [done|lia..|].
    change (Ok c10 ≫= ?g) with (g c10); cbv beta.
    destruct (getCell_Ok N masked (0 + 1) (c + 1)) as [c11 ->]; [done|lia..|].
    change (Ok c11 ≫= ?g) with (g c11); cbv beta zeta.
    eexists; split; [reflexivity|]. destruct (_ || _); lia.
  - exists t. split; [exact Hloop|]. split; [lia|lia].
Qed.

Lemma substringOccurrences_range (s sub : string) :
  ∃ n, substringOccurrences s sub = Ok n ∧ 0 ≤ n ≤ Z.max 0 (len s - len sub + 1).
Proof.
  unfold substringOccurrences.
  destruct (Z_le_gt_dec 0 (len s - len sub + 1)) as [Hle|Hgt].
  - destruct (forZ_inv_idx (λ i t, 0 ≤ t ≤ i) 0 (len s - len sub + 1)
                (λ i total,
                   window ← slice s i (i + len sub);
                   Ok (if Contains window sub then total + 1 else total)) 0)
      as (n & Hn & Hrange); [lia|lia| |].
    + intros i t Hi Ht. unfold slice. pose proof (len_nonneg sub).
      destruct ((0 <=? i) && (i <=? i + len sub) && (i + len sub <=? len s)) eqn:E;
        [|lia].
      change (Ok ?x ≫= ?g) with (g x); cbv beta.
      eexists; split; [reflexivity|]. destruct (Contains _ _); lia.
    + exists n. split; [exact Hn|lia].
  - rewrite forZ_nil by lia. exists 0. split; [done|lia].
Qed.

Lemma len_Itoa_binary (cell : Cell) : binaryCell cell = true → len (Itoa (color cell)) = 1.
Proof. intros [->| ->]%binaryCell_color; reflexivity. Qed.

Lemma pen3_range (N : nat) (masked : canvas) :
  grid N (λ cell, binaryCell cell = true) masked → (N ≤ 177)%nat →
  ∃ p, pen3 masked = Ok p ∧ 0 ≤ p ≤ 14160 * Z.of_nat N.
Proof.
  intros Hg HN. unfold pen3. pose proof Hg as [[Hlen _] _]. rewrite Hlen.
  apply (forZ_inv_idx (λ i total, 0 ≤ total ≤ 14160 * i)); [lia|lia|].
  intros i total Hi Ht.
  apply (bind_Ok_with (λ '(row, col), len row = Z.of_nat N ∧ len col = Z.of_nat N)).
  - apply (forZ_inv_idx (λ j '(row, col), len row = j ∧ len col = j));
      [lia|done|].
    intros j [row col] Hj [Hrow Hcol].
    destruct (getCell_grid N _ masked i j Hg) as (cij & -> & Hij); [lia..|].
    change (Ok cij ≫= ?g) with (g cij); cbv beta.
    destruct (getCell_grid N _ masked j i Hg) as (cji & -> & Hji); [lia..|].
    change (Ok cji ≫= ?g) with (g cji); cbv beta.
    eexists; split; [reflexivity|]. cbn beta iota.
    rewrite !len_append, !len_Itoa_binary by done. lia.
  - intros [row col] [Hrow Hcol].
    change (idx penaltySequences 0) with (Ok (A:=string) "10111010000").
    change (Ok "10111010000" ≫= ?g) with (g "10111010000"); cbv beta.
    destruct (substringOccurrences_range row "10111010000") as (n0 & -> & Hn0).
    change (Ok n0 ≫= ?g) with (g n0); cbv beta.
    change (idx penaltySequences 1) with (Ok (A:=string) "00001011101").
    change (Ok "00001011101" ≫= ?g) with (g "00001011101"); cbv beta.
    destruct (substringOccurrences_range col "00001011101") as (n1 & -> & Hn1).
    change (Ok n1 ≫= ?g) with (g n1); cbv beta.
    eexists; split; [reflexivity|].
    change (len "10111010000") with 11 in Hn0.
    change (len "00001011101") with 11 in Hn1. lia.
Qed.

Lemma pen4_range (N : nat) (masked : canvas) :
  grid N (λ cell, binaryCell cell = true) masked → (1 ≤ N ≤ 177)%nat →
  ∃ p, pen4 masked = Ok p ∧ 0 ≤ p ≤ 540.
Proof.
  intros Hg HN. unfold pen4. pose proof Hg as [[Hlen _] _]. rewrite Hlen.
  apply (bind_Ok_with (λ nb, 0 ≤ nb ≤ Z.of_nat N * Z.of_nat N)).
  - apply (forZ_inv_idx (λ r nb, 0 ≤ nb ≤ Z.of_nat N * r)); [lia|lia|].
    intros r nb Hr Hnb.
    destruct (forZ_inv_idx (λ c nb', nb ≤ nb' ≤ nb + c) 0 (Z.of_nat N)
                (λ c numBlack,
                   cell ← getCell masked r c; Ok (wrap64 (numBlack + color cell))) nb)
      as (nb' & Hnb' & Hrange); [lia|lia| |].
    + intros c nb' Hc Hnb'.
      destruct (getCell_grid N _ masked r c Hg) as (cell & -> & Hcell); [lia..|].
      change (Ok cell ≫= ?g) with (g cell); cbv beta.
      eexists; split; [reflexivity|].
      apply binaryCell_color in Hcell.
      rewrite wrap64_small; [lia|].
      assert (Z.of_nat N * r ≤ 177 * 177) by nia.
      change (2 ^ 63) with 9223372036854775808. lia.
    + exists nb'. split; [exact Hnb'|]. lia.
  - intros nb Hnb. cbv zeta.
    pose proof (twentieth_range nb (Z.of_nat N * Z.of_nat N) Hnb) as Hq.
    assert (HNN : 0 < Z.of_nat N * Z.of_nat N < 2 ^ 53).
    { change (2 ^ 53) with 9007199254740992. nia. }
    specialize (Hq HNN).
    set (q := int_of_f64 _) in *.
    pose proof (pen4_of_twentieth_range q Hq) as Hp.
    unfold pen4_of_twentieth in Hp.
    destruct (SFleb _ _); eexists; (split; [reflexivity|exact Hp]).
Qed.

(** The score of a canvas of modules is the sum of the four penalties,
    without overflow, and below the initial minimum. *)
Lemma penalty_range (N : nat) (masked : canvas) :
  grid N (λ cell, binaryCell cell = true) masked → (1 ≤ N ≤ 177)%nat →
  ∃ p1 p2 p3 p4,
    pen1 masked = Ok p1 ∧ pen2 masked = Ok p2 ∧ pen3 masked = Ok p3
    ∧ pen4 masked = Ok p4
    ∧ penalty masked = Ok (p1 + p2 + p3 + p4)
    ∧ 0 ≤ p1 + p2 + p3 + p4 < MaxInt64.
Proof.
  intros Hg HN. pose proof Hg as [Hsh _].
  destruct (pen1_range N masked Hsh ltac:(lia)) as (p1 & H1 & R1).
  destruct (pen2_range N masked Hsh ltac:(lia)) as (p2 & H2 & R2).
  destruct (pen3_range N masked Hg ltac:(lia)) as (p3 & H3 & R3).
  destruct (pen4_range N masked Hg HN) as (p4 & H4 & R4).
  exists p1, p2, p3, p4. repeat (split; [done|]).
  assert (HM : MaxInt64 = 9223372036854775807) by reflexivity.
  assert (H63 : 2 ^ 63 = 9223372036854775808) by reflexivity.
  split; [|lia].
  unfold penalty. rewrite H1. change (Ok p1 ≫= ?g) with (g p1); cbv beta.
  rewrite H2. change (Ok p2 ≫= ?g) with (g p2); cbv beta.
  rewrite H3. change (Ok p3 ≫= ?g) with (g p3); cbv beta.
  rewrite H4. change (Ok p4 ≫= ?g) with (g p4); cbv beta.
  rewrite (wrap64_small (p1 + p2)) by lia.
  rewrite (wrap64_small (p1 + p2 + p3)) by lia.
  rewrite (wrap64_small (p1 + p2 + p3 + p4)) by lia. reflexivity.
Qed.

(** * The mask that is kept *)

Lemma candidates_scored (N : nat) (cv : canvas) (fns : list (Z → Z → bool)) :
  grid N (λ cell, binaryCell cell = true) cv → (1 ≤ N ≤ 177)%nat →
  ∃ ms ps, Forall2 (λ fn m, maskCanvas cv fn = Ok m) fns ms
           ∧ Forall2 scored ms ps
           ∧ Forall2 (λ m p, penalty m = Ok p) ms ps
           ∧ Forall (λ p, p < MaxInt64) ps.
Proof.
  intros Hg HN. induction fns as [|fn fns (ms & ps & Hms & Hsc & Hps & Hlt)].
  - exists [], []. repeat split; constructor.
  - destruct (maskCanvas_binary N cv fn Hg) as (m & Hm & Hgm).
    destruct (penalty_range N m Hgm HN)
      as (p1 & p2 & p3 & p4 & H1 & H2 & H3 & H4 & Hp & Hr).
    exists (m :: ms), ((p1 + p2 + p3 + p4) :: ps).
    split; [by constructor|]. split; [constructor; [|done]|].
    { by exists p1, p2, p3, p4. }
    split; [by constructor|]. constructor; [lia|done].
Qed.

(** C9.  On a canvas of modules (square, of side 1 to 177, every module
    light or dark) [dataMasking] evaluates the eight masks: each masked
    canvas [ms[i]] is computed and [ps[i]] is the sum of [pen1], [pen2],
    [pen3] and [pen4] on it.  The canvas and the mask stored are [ms[k]]
    and [k], where [ps[k]] is least among the eight and every earlier
    score is strictly larger: the lowest index among the minimal ones. *)
Theorem dataMasking_least_penalty (qr : QR) (N : nat) :
  shape N (Canvas qr) → (1 ≤ N ≤ 177)%nat → binaryb (Canvas qr) = true →
  ∃ ms ps,
    Forall2 (λ fn m, maskCanvas (Canvas qr) fn = Ok m) masks ms
    ∧ Forall2 scored ms ps
    ∧ ∃ (k : nat) m p,
        dataMasking qr = Ok (set_Mask (set_Canvas qr m) (Z.of_nat k))
        ∧ (k < 8)%nat ∧ ms !! k = Some m ∧ ps !! k = Some p
        ∧ (∀ (j : nat) q, ps !! j = Some q → p ≤ q)
        ∧ (∀ (j : nat) q, (j < k)%nat → ps !! j = Some q → p < q).
Proof.
  intros Hsh HN Hbin.
  destruct (candidates_scored N (Canvas qr) masks (binaryb_grid N _ Hsh Hbin) HN)
    as (ms & ps & Hms & Hsc & Hps & Hlt).
  exists ms, ps. split; [done|]. split; [done|].
  rewrite (dataMasking_fold qr ms ps Hms Hps).
  pose proof (Forall2_length _ _ _ Hms) as Hl1.
  pose proof (Forall2_length _ _ _ Hps) as Hl2.
  rewrite masks_length in Hl1.
  assert (Hlz : length (zip ms ps) = 8%nat) by (rewrite length_zip; lia).
  pose proof (pick_first_least (zip ms ps) 0 [] (-1) MaxInt64) as Hpick.
  rewrite Hlz in Hpick. change (Z.of_nat 8) with 8 in Hpick. cbv zeta in Hpick.
  destruct Hpick as [[Hall _]|(k & m & p & Hk & -> & _ & Hall & Hfirst)].
  - exfalso.
    destruct (lookup_lt_is_Some_2 ms 0) as [m Hm]; [lia|].
    destruct (lookup_lt_is_Some_2 ps 0) as [p Hp]; [lia|].
    rewrite Forall_forall in Hall. rewrite Forall_forall in Hlt.
    assert (Hin : (m, p) ∈ zip ms ps).
    { apply list_elem_of_lookup. exists 0%nat. apply lookup_zip_with_Some. by exists m, p. }
    specialize (Hall _ Hin). cbn in Hall.
    specialize (Hlt p (list_elem_of_lookup_2 _ _ _ Hp)). cbn in Hlt. lia.
  - apply lookup_zip_with_Some in Hk as (m' & p' & [= <- <-] & Hm & Hp).
    exists k, m, p. split; [f_equal; f_equal; lia|].
    split; [apply lookup_lt_Some in Hm; lia|]. split; [done|]. split; [done|].
    rewrite Forall_forall in Hall. split.
    + intros j q Hq.
      destruct (lookup_lt_is_Some_2 ms j) as [mj Hmj];
        [apply lookup_lt_Some in Hq; lia|].
      assert (Hin : (mj, q) ∈ zip ms ps).
      { apply list_elem_of_lookup. exists j. apply lookup_zip_with_Some. by exists mj, q. }
      specialize (Hall _ Hin). cbn in Hall. lia.
    + intros j q Hj Hq.
      destruct (lookup_lt_is_Some_2 ms j) as [mj Hmj];
        [apply lookup_lt_Some in Hq; lia|].
      assert (Hz : zip ms ps !! j = Some (mj, q)).
      { apply lookup_zip_with_Some. by exists mj, q. }
      specialize (Hfirst j _ Hj Hz). cbn in Hfirst. lia.
Qed.

Lemma dataMasking_least_penalty_witness :
  let qr := set_Canvas (initQR "" 0)
              [[mkCell 1 true; mkCell 0 false]; [mkCell 0 true; mkCell 0 true]] in
  ∃ ms ps,
    Forall2 (λ fn m, maskCanvas (Canvas qr) fn = Ok m) masks ms
    ∧ Forall2 scored ms ps
    ∧ ∃ (k : nat) m p,
        dataMasking qr = Ok (set_Mask (set_Canvas qr m) (Z.of_nat k))
        ∧ (k < 8)%nat ∧ ms !! k = Some m ∧ ps !! k = Some p
        ∧ (∀ (j : nat) q, ps !! j = Some q → p ≤ q)
        ∧ (∀ (j : nat) q, (j < k)%nat → ps !! j = Some q → p < q).
Proof.
  apply (dataMasking_least_penalty
           (set_Canvas (initQR "" 0)
              [[mkCell 1 true; mkCell 0 false]; [mkCell 0 true; mkCell 0 true]])
           2).
  - split; [reflexivity|]. repeat constructor.
  - lia.
  - reflexivity.
Defined.
